(** * Blackbox flight-log decoder: byte stream, helpers, indexer and facade

    A shallow embedding of the TypeScript sources of the blackbox log
    parser ([utils/ArrayDataStream], [utils/Utils], [FlightLogIndex],
    [FlightLog]) together with the properties the specification states
    about them.  The indexer and the facade drive a [FlightLogParser];
    they are embedded against every answer its calls can give.

    JavaScript numbers that occur in the decoder are integers far below
    2^53, so they are modelled as [Z]; the 32-bit behaviour of the bit
    operators is written out with [ToInt32] / [ToUint32]. *)

From Stdlib Require Import Ascii String.
From stdpp Require Import base numbers list strings gmap sorting pretty.

Local Open Scope Z_scope.

(** ** JavaScript 32-bit integer operators *)

Module JS.

(** [ToUint32]: reduce modulo 2^32. *)
Definition ToUint32 (z : Z) : Z := z mod 2 ^ 32.

(** [ToInt32]: reduce modulo 2^32 and read the result as a signed
    two's-complement number. *)
Definition ToInt32 (z : Z) : Z :=
  let m := z mod 2 ^ 32 in
  if m <? 2 ^ 31 then m else m - 2 ^ 32.

(** The shift count of [<<], [>>] and [>>>] is taken modulo 32. *)
Definition shift_count (n : Z) : Z := ToUint32 n mod 32.

Definition and (a b : Z) : Z := Z.land (ToInt32 a) (ToInt32 b).
Definition or (a b : Z) : Z := Z.lor (ToInt32 a) (ToInt32 b).
Definition xor (a b : Z) : Z := Z.lxor (ToInt32 a) (ToInt32 b).
Definition not (a : Z) : Z := Z.lnot (ToInt32 a).
Definition shl (a n : Z) : Z := ToInt32 (Z.shiftl (ToInt32 a) (shift_count n)).
Definition sar (a n : Z) : Z := Z.shiftr (ToInt32 a) (shift_count n).
Definition shr (a n : Z) : Z := Z.shiftr (ToUint32 a) (shift_count n).

End JS.

(** A value read out of the byte buffer: a number, or [undefined] when
    the index is outside the typed array. *)
Inductive jsval : Type :=
  | JNum (z : Z)
  | JUndefined.

Global Instance jsval_eq_dec : EqDecision jsval.
Proof. solve_decision. Defined.

(** Numeric coercion in front of a bit operator: [undefined] becomes
    [NaN], which [ToInt32] maps to 0. *)
Definition num_of (v : jsval) : Z :=
  match v with
  | JNum z => z
  | JUndefined => 0
  end.

(** Loose equality [==] between two values that are numbers or undefined. *)
Definition loose_eq (a b : jsval) : bool :=
  match a, b with
  | JNum x, JNum y => x =? y
  | JUndefined, JUndefined => true
  | _, _ => false
  end.

(** [a < n] for a numeric [n]: comparisons with [NaN] are false. *)
Definition js_lt (a : jsval) (n : Z) : bool :=
  match a with
  | JNum x => x <? n
  | JUndefined => false
  end.

(** ** Sign-extension helpers (utils/Utils.ts) *)

Definition signExtend24Bit (u : jsval) : jsval :=
  if negb (JS.and (num_of u) 0x800000 =? 0) then JNum (JS.or (num_of u) 0xff000000) else u.

Definition signExtend16Bit (word : jsval) : jsval :=
  if negb (JS.and (num_of word) 0x8000 =? 0) then JNum (JS.or (num_of word) 0xffff0000) else word.

Definition signExtend14Bit (word : jsval) : jsval :=
  if negb (JS.and (num_of word) 0x2000 =? 0) then JNum (JS.or (num_of word) 0xffffc000) else word.

Definition signExtend8Bit (byte : jsval) : jsval :=
  if negb (JS.and (num_of byte) 0x80 =? 0) then JNum (JS.or (num_of byte) 0xffffff00) else byte.

Definition signExtend7Bit (byte : jsval) : jsval :=
  if negb (JS.and (num_of byte) 0x40 =? 0) then JNum (JS.or (num_of byte) 0xffffff80) else byte.

Definition signExtend6Bit (byte : jsval) : jsval :=
  if negb (JS.and (num_of byte) 0x20 =? 0) then JNum (JS.or (num_of byte) 0xffffffc0) else byte.

Definition signExtend5Bit (byte : jsval) : jsval :=
  if negb (JS.and (num_of byte) 0x10 =? 0) then JNum (JS.or (num_of byte) 0xffffffe0) else byte.

Definition signExtend4Bit (nibble : jsval) : jsval :=
  if negb (JS.and (num_of nibble) 0x08 =? 0) then JNum (JS.or (num_of nibble) 0xfffffff0) else nibble.

Definition signExtend2Bit (byte : jsval) : jsval :=
  if negb (JS.and (num_of byte) 0x02 =? 0) then JNum (JS.or (num_of byte) 0xfffffffc) else byte.

(** The helper that exists for a given width, if any. *)
Definition signExtend_w (w : Z) : option (jsval → jsval) :=
  match w with
  | 2 => Some signExtend2Bit
  | 4 => Some signExtend4Bit
  | 5 => Some signExtend5Bit
  | 6 => Some signExtend6Bit
  | 7 => Some signExtend7Bit
  | 8 => Some signExtend8Bit
  | 14 => Some signExtend14Bit
  | 16 => Some signExtend16Bit
  | 24 => Some signExtend24Bit
  | _ => None
  end.

(** The value of the [w]-bit pattern [v] read as a two's-complement
    number. *)
Definition twos_complement (w v : Z) : Z :=
  if v <? 2 ^ (w - 1) then v else v - 2 ^ w.

(** ** The byte stream (utils/ArrayDataStream.ts) *)

Definition EOF : Z := -1.
Definition NEWLINE_CODE : Z := 10.

(** [{ data, start, end, eof, pos }]; the data range is [[start, end)]. *)
Record ArrayDataStream : Type := mkStream {
  data : list Z;
  start : Z;
  end_ : Z;
  eof : bool;
  pos : Z
}.

Definition set_pos (s : ArrayDataStream) (p : Z) : ArrayDataStream :=
  {| data := data s; start := start s; end_ := end_ s; eof := eof s; pos := p |}.

Definition set_eof (s : ArrayDataStream) (b : bool) : ArrayDataStream :=
  {| data := data s; start := start s; end_ := end_ s; eof := b; pos := pos s |}.

(** [data[i]] on a typed array: [undefined] outside [[0, length)]. *)
Definition data_at (d : list Z) (i : Z) : jsval :=
  if i <? 0 then JUndefined
  else match d !! Z.to_nat i with
       | Some b => JNum b
       | None => JUndefined
       end.

(** [constructor(data, start = 0, end = null)]: [end] falls back to
    [data.length] when it is falsy (absent, null or 0). *)
Definition new_ArrayDataStream (d : list Z) (start0 : option Z) (end0 : option Z)
  : ArrayDataStream :=
  let st := default 0 start0 in
  let en := match end0 with
            | Some e => if e =? 0 then Z.of_nat (length d) else e
            | None => Z.of_nat (length d)
            end in
  {| data := d; start := st; end_ := en; eof := false; pos := st |}.

(** Stream methods are state transformers returning a value. *)
Definition M (A : Type) : Type := ArrayDataStream → A * ArrayDataStream.

Definition ret {A : Type} (a : A) : M A := λ s, (a, s).

Definition bind {A B : Type} (m : M A) (k : A → M B) : M B :=
  λ s, k (m s).1 (m s).2.

Notation "'let*' x ':=' m 'in' k" := (bind m (λ x, k))
  (at level 10, x name, m at level 100, k at level 200, only parsing).

(** The result of [readChar] / [peekChar]: a one-character string,
    given by its character code, or the number [EOF]. *)
Inductive charval : Type :=
  | CChar (code : Z)
  | CEOF.

(** [String.fromCharCode(v)]: the code unit is [ToUint16(ToNumber(v))]. *)
Definition fromCharCode (v : jsval) : Z := num_of v mod 2 ^ 16.

Definition readChar : M charval := λ s,
  if pos s <? end_ s
  then (CChar (fromCharCode (data_at (data s) (pos s))), set_pos s (pos s + 1))
  else (CEOF, set_eof s true).

Definition readByte : M jsval := λ s,
  if pos s <? end_ s
  then (data_at (data s) (pos s), set_pos s (pos s + 1))
  else (JNum EOF, set_eof s true).

Definition readU8 : M jsval := readByte.

Definition readS8 : M jsval :=
  let* b := readByte in ret (signExtend8Bit b).

Definition unreadChar : M unit := λ s, (tt, set_pos s (pos s - 1)).

Definition peekChar : M charval := λ s,
  if pos s <? end_ s
  then (CChar (fromCharCode (data_at (data s) (pos s))), s)
  else (CEOF, set_eof s true).

(** *** readLine *)

(** [new Set([NEWLINE_CODE, 0]).has(v)]. *)
Definition is_line_end (v : jsval) : bool :=
  match v with
  | JNum z => (z =? NEWLINE_CODE) || (z =? 0)
  | JUndefined => false
  end.

(** The [while] loop of [readLine], returning the final position.  Every
    iteration advances by one and requires [p < end], so
    [Z.to_nat (end - p)] iterations are all the loop can make. *)
Fixpoint readLine_scan (fuel : nat) (d : list Z) (en p : Z) : Z :=
  match fuel with
  | O => p
  | S fuel' =>
      if (p <? en) && negb (is_line_end (data_at d p))
      then readLine_scan fuel' d en (p + 1)
      else p
  end.

(** [data.subarray(b, e)]: negative indices count from the end, and both
    ends are clamped to the array. *)
Definition subarray (d : list Z) (b e : Z) : list Z :=
  let len := Z.of_nat (length d) in
  let clamp i := if i <? 0 then Z.max (len + i) 0 else Z.min i len in
  let b' := clamp b in
  let e' := clamp e in
  take (Z.to_nat (e' - b')) (drop (Z.to_nat b') d).

(** The buffer holds bytes, so a character code is below 256. *)
Definition char_of_code (z : Z) : Ascii.ascii := Ascii.ascii_of_N (Z.to_N (z mod 256)).

Definition string_of_codes (l : list Z) : string :=
  foldr (λ c acc, String (char_of_code c) acc) EmptyString l.

Definition readLine : M string := λ s,
  let start0 := pos s in
  let p := readLine_scan (Z.to_nat (end_ s - pos s)) (data s) (end_ s) (pos s) in
  (string_of_codes (subarray (data s) start0 p), set_pos s p).

(** *** Variable-byte integers *)

(** The [for (i = 0; i < 5; i++)] loop of [readUnsignedVB]; [n] counts
    the iterations that remain. *)
Fixpoint readUnsignedVB_loop (n : nat) (shift result : Z) : M Z :=
  match n with
  | O => ret 0
  | S n' =>
      let* b := readByte in
      if loose_eq b (JNum EOF) then ret 0
      else
        let result := JS.or result (JS.shl (JS.and (num_of b) (JS.not 0x80)) shift) in
        if js_lt b 128 then ret (JS.shr result 0)
        else readUnsignedVB_loop n' (shift + 7) result
  end.

Definition readUnsignedVB : M Z := readUnsignedVB_loop 5 0 0.

Definition readSignedVB : M Z :=
  let* unsigned := readUnsignedVB in
  ret (JS.xor (JS.shr unsigned 1) (- JS.and unsigned 1)).

(** *** Fixed-width reads *)

(** Joining the characters renders each one as itself and [EOF] (the
    number -1) as the two characters of its decimal form. *)
Definition render_char (c : charval) : string :=
  match c with
  | CChar z => String (char_of_code z) EmptyString
  | CEOF => "-1"%string
  end.

Fixpoint readString (length : nat) : M string :=
  match length with
  | O => ret EmptyString
  | S n => let* c := readChar in let* rest := readString n in ret (render_char c +:+ rest)
  end.

Definition readS16 : M jsval :=
  let* b1 := readByte in let* b2 := readByte in
  ret (signExtend16Bit (JNum (JS.or (num_of b1) (JS.shl (num_of b2) 8)))).

Definition readU16 : M Z :=
  let* b1 := readByte in let* b2 := readByte in
  ret (JS.or (num_of b1) (JS.shl (num_of b2) 8)).

Definition readU32 : M Z :=
  let* b1 := readByte in let* b2 := readByte in let* b3 := readByte in let* b4 := readByte in
  ret (JS.or (JS.or (JS.or (num_of b1) (JS.shl (num_of b2) 8))
                    (JS.shl (num_of b3) 16))
             (JS.shl (num_of b4) 24)).

(** *** Marker search *)

(** [needle[j]] on a plain array of byte values. *)
Definition needle_at (needle : list Z) (j : nat) : jsval :=
  match needle !! j with
  | Some c => JNum c
  | None => JUndefined
  end.

(** The inner loop [for (j = 1; j < needle.length && data[i + j] ==
    needle[j]; j++);] of [nextOffsetOf], returning the final [j].
    [rest] is the part of the needle from index [j] on, so the guard
    [j < needle.length] is [rest ≠ []] and [needle[j]] is its head. *)
Fixpoint match_rest (d : list Z) (i j : Z) (rest : list Z) : Z :=
  match rest with
  | [] => j
  | c :: rest' =>
      if loose_eq (data_at d (i + j)) (JNum c)
      then match_rest d i (j + 1) rest'
      else j
  end.

(** The outer loop [for (i = this.pos; i <= this.end - needle.length;
    i++)].  It makes at most [end - needle.length - pos + 1] iterations;
    running out of [fuel] and failing the guard both return -1. *)
Fixpoint nextOffsetOf_loop (fuel : nat) (d : list Z) (en : Z) (needle : list Z) (i : Z) : Z :=
  match fuel with
  | O => -1
  | S fuel' =>
      if i <=? en - Z.of_nat (length needle) then
        if loose_eq (data_at d i) (needle_at needle 0)
           && (match_rest d i 1 (tail needle) =? Z.of_nat (length needle))
        then i
        else nextOffsetOf_loop fuel' d en needle (i + 1)
      else -1
  end.

Definition nextOffsetOf (needle : list Z) : M Z := λ s,
  (nextOffsetOf_loop (Z.to_nat (end_ s - Z.of_nat (length needle) - pos s + 1))
                     (data s) (end_ s) needle (pos s),
   s).

(** The [while (true)] loop of [allIndicesOf].  [None] stands for a loop
    that has not returned within [fuel] iterations. *)
Fixpoint allIndicesOf_loop (fuel : nat) (marker : list Z) (indices : list Z)
  : ArrayDataStream → option (list Z * ArrayDataStream) :=
  λ s,
  match fuel with
  | O => None
  | S fuel' =>
      let index := (nextOffsetOf marker s).1 in
      if index =? -1 then Some (indices ++ [end_ s], s)
      else allIndicesOf_loop fuel' marker (indices ++ [index])
             (set_pos s (index + Z.of_nat (length marker)))
  end.

(** Each iteration that does not return moves [pos] forward by at least
    one byte (an empty marker is never found), so
    [end - pos + 2] iterations always suffice. *)
Definition allIndicesOf (marker : list Z) (s : ArrayDataStream)
  : option (list Z * ArrayDataStream) :=
  allIndicesOf_loop (S (S (Z.to_nat (end_ s - pos s)))) marker [] s.

(** *** Tagged group decoders *)

(** [values[i] = v] on a JavaScript array: writing at or past the end
    extends the array, leaving holes that read as [undefined]. *)
Definition arr_set (values : list jsval) (i : nat) (v : jsval) : list jsval :=
  if (i <? length values)%nat then <[i:=v]> values
  else values ++ replicate (i - length values) JUndefined ++ [v].

(** One field of the mixed 8/16/24/32-bit layout, selected by the two
    low bits of the (shifted) lead byte. *)
Definition readTag2_3_field (leadByte : Z) : M jsval :=
  match JS.and leadByte 0x03 with
  | 0 =>
      let* byte1 := readByte in
      ret (signExtend8Bit byte1)
  | 1 =>
      let* byte1 := readByte in
      let* byte2 := readByte in
      ret (signExtend16Bit (JNum (JS.or (num_of byte1) (JS.shl (num_of byte2) 8))))
  | 2 =>
      let* byte1 := readByte in
      let* byte2 := readByte in
      let* byte3 := readByte in
      ret (signExtend24Bit
             (JNum (JS.or (JS.or (num_of byte1) (JS.shl (num_of byte2) 8))
                          (JS.shl (num_of byte3) 16))))
  | _ =>
      let* byte1 := readByte in
      let* byte2 := readByte in
      let* byte3 := readByte in
      let* byte4 := readByte in
      ret (JNum (JS.or (JS.or (JS.or (num_of byte1) (JS.shl (num_of byte2) 8))
                              (JS.shl (num_of byte3) 16))
                       (JS.shl (num_of byte4) 24)))
  end.

(** [for (i = 0; i < 3; i++) { ...; leadByte >>= 2; }], with [n]
    iterations left. *)
Fixpoint readTag2_3_fields (n : nat) (i : nat) (leadByte : Z) (values : list jsval)
  : M (list jsval) :=
  match n with
  | O => ret values
  | S n' =>
      let* v := readTag2_3_field leadByte in
      readTag2_3_fields n' (S i) (JS.sar leadByte 2) (arr_set values i v)
  end.

Definition readTag2_3S32 (values : list jsval) : M (list jsval) :=
  let* leadByte := readByte in
  match JS.sar (num_of leadByte) 6 with
  | 0 =>
      let values := arr_set values 0
        (signExtend2Bit (JNum (JS.and (JS.sar (num_of leadByte) 4) 0x03))) in
      let values := arr_set values 1
        (signExtend2Bit (JNum (JS.and (JS.sar (num_of leadByte) 2) 0x03))) in
      let values := arr_set values 2
        (signExtend2Bit (JNum (JS.and (num_of leadByte) 0x03))) in
      ret values
  | 1 =>
      let values := arr_set values 0
        (signExtend4Bit (JNum (JS.and (num_of leadByte) 0x0f))) in
      let* leadByte := readByte in
      let values := arr_set values 1
        (signExtend4Bit (JNum (JS.sar (num_of leadByte) 4))) in
      let values := arr_set values 2
        (signExtend4Bit (JNum (JS.and (num_of leadByte) 0x0f))) in
      ret values
  | 2 =>
      let values := arr_set values 0
        (signExtend6Bit (JNum (JS.and (num_of leadByte) 0x3f))) in
      let* leadByte := readByte in
      let values := arr_set values 1
        (signExtend6Bit (JNum (JS.and (num_of leadByte) 0x3f))) in
      let* leadByte := readByte in
      let values := arr_set values 2
        (signExtend6Bit (JNum (JS.and (num_of leadByte) 0x3f))) in
      ret values
  | 3 => readTag2_3_fields 3 0 (num_of leadByte) values
  | _ => ret values
  end.

Definition readTag2_3SVariable (values : list jsval) : M (list jsval) :=
  let* leadByte := readByte in
  match JS.sar (num_of leadByte) 6 with
  | 0 =>
      let values := arr_set values 0
        (signExtend2Bit (JNum (JS.and (JS.sar (num_of leadByte) 4) 0x03))) in
      let values := arr_set values 1
        (signExtend2Bit (JNum (JS.and (JS.sar (num_of leadByte) 2) 0x03))) in
      let values := arr_set values 2
        (signExtend2Bit (JNum (JS.and (num_of leadByte) 0x03))) in
      ret values
  | 1 =>
      let values := arr_set values 0
        (signExtend5Bit (JNum (JS.sar (JS.and (num_of leadByte) 0x3e) 1))) in
      let* leadByte2 := readByte in
      let values := arr_set values 1
        (signExtend5Bit
           (JNum (JS.or (JS.shl (JS.and (num_of leadByte) 0x01) 5)
                        (JS.sar (JS.and (num_of leadByte2) 0x0f) 4)))) in
      let values := arr_set values 2
        (signExtend4Bit (JNum (JS.and (num_of leadByte2) 0x0f))) in
      ret values
  | 2 =>
      let* leadByte2 := readByte in
      let values := arr_set values 1
        (signExtend8Bit
           (JNum (JS.or (JS.shl (JS.and (num_of leadByte) 0x3f) 2)
                        (JS.sar (JS.and (num_of leadByte2) 0xc0) 6)))) in
      let* leadByte3 := readByte in
      let values := arr_set values 1
        (signExtend7Bit
           (JNum (JS.or (JS.shl (JS.and (num_of leadByte2) 0x3f) 1)
                        (JS.sar (JS.and (num_of leadByte2) 0x80) 7)))) in
      let values := arr_set values 2
        (signExtend7Bit (JNum (JS.and (num_of leadByte3) 0x7f))) in
      ret values
  | 3 => readTag2_3_fields 3 0 (num_of leadByte) values
  | _ => ret values
  end.

(** [readTag8_4S16_v1]: [for (i = 0; i < 4; i++) { ...; selector >>= 2; }].
    The 4-bit case fills two slots and advances [i] and [selector] once
    more inside the body.  [i] grows in every iteration, so four
    iterations are the most the loop can make.  [selector & 0x03] only
    takes the values 0 to 3, the last being [FIELD_16BIT]. *)
Fixpoint readTag8_4S16_v1_loop (fuel : nat) (i : nat) (selector : Z) (values : list jsval)
  : M (list jsval) :=
  match fuel with
  | O => ret values
  | S fuel' =>
      if (i <? 4)%nat then
        match JS.and selector 0x03 with
        | 0 =>
            let values := arr_set values i (JNum 0) in
            readTag8_4S16_v1_loop fuel' (S i) (JS.sar selector 2) values
        | 1 =>
            let* combinedChar := readByte in
            let values := arr_set values i
              (signExtend4Bit (JNum (JS.and (num_of combinedChar) 0x0f))) in
            let i := S i in
            let selector := JS.sar selector 2 in
            let values := arr_set values i
              (signExtend4Bit (JNum (JS.sar (num_of combinedChar) 4))) in
            readTag8_4S16_v1_loop fuel' (S i) (JS.sar selector 2) values
        | 2 =>
            let* b := readByte in
            let values := arr_set values i (signExtend8Bit b) in
            readTag8_4S16_v1_loop fuel' (S i) (JS.sar selector 2) values
        | _ =>
            let* char1 := readByte in
            let* char2 := readByte in
            let values := arr_set values i
              (signExtend16Bit (JNum (JS.or (num_of char1) (JS.shl (num_of char2) 8)))) in
            readTag8_4S16_v1_loop fuel' (S i) (JS.sar selector 2) values
        end
      else ret values
  end.

Definition readTag8_4S16_v1 (values : list jsval) : M (list jsval) :=
  let* selector := readByte in
  readTag8_4S16_v1_loop 4 0 (num_of selector) values.

(** [readTag8_4S16_v2]: the loop carries the rolling nibble cursor
    ([nibbleIndex], [buffer]); [buffer] is [undefined] until first
    assigned. *)
Fixpoint readTag8_4S16_v2_loop (n : nat) (i : nat) (selector : Z)
    (nibbleIndex : Z) (buffer : jsval) (values : list jsval) : M (list jsval) :=
  match n with
  | O => ret values
  | S n' =>
      match JS.and selector 0x03 with
      | 0 =>
          let values := arr_set values i (JNum 0) in
          readTag8_4S16_v2_loop n' (S i) (JS.sar selector 2) nibbleIndex buffer values
      | 1 =>
          if nibbleIndex =? 0 then
            let* buffer := readByte in
            let values := arr_set values i
              (signExtend4Bit (JNum (JS.sar (num_of buffer) 4))) in
            readTag8_4S16_v2_loop n' (S i) (JS.sar selector 2) 1 buffer values
          else
            let values := arr_set values i
              (signExtend4Bit (JNum (JS.and (num_of buffer) 0x0f))) in
            readTag8_4S16_v2_loop n' (S i) (JS.sar selector 2) 0 buffer values
      | 2 =>
          if nibbleIndex =? 0 then
            let* b := readByte in
            let values := arr_set values i (signExtend8Bit b) in
            readTag8_4S16_v2_loop n' (S i) (JS.sar selector 2) nibbleIndex buffer values
          else
            let char1 := JS.shl (JS.and (num_of buffer) 0x0f) 4 in
            let* buffer := readByte in
            let char1 := JS.or char1 (JS.sar (num_of buffer) 4) in
            let values := arr_set values i (signExtend8Bit (JNum char1)) in
            readTag8_4S16_v2_loop n' (S i) (JS.sar selector 2) nibbleIndex buffer values
      | _ =>
          if nibbleIndex =? 0 then
            let* char1 := readByte in
            let* char2 := readByte in
            let values := arr_set values i
              (signExtend16Bit (JNum (JS.or (JS.shl (num_of char1) 8) (num_of char2)))) in
            readTag8_4S16_v2_loop n' (S i) (JS.sar selector 2) nibbleIndex buffer values
          else
            let* char1 := readByte in
            let* char2 := readByte in
            let values := arr_set values i
              (signExtend16Bit
                 (JNum (JS.or (JS.or (JS.shl (JS.and (num_of buffer) 0x0f) 12)
                                     (JS.shl (num_of char1) 4))
                              (JS.sar (num_of char2) 4)))) in
            readTag8_4S16_v2_loop n' (S i) (JS.sar selector 2) nibbleIndex char2 values
      end
  end.

Definition readTag8_4S16_v2 (values : list jsval) : M (list jsval) :=
  let* selector := readByte in
  readTag8_4S16_v2_loop 4 0 (num_of selector) 0 JUndefined values.

(** [for (i = 0; i < 8; i++, header >>= 1) values[i] = header & 0x01 ?
    this.readSignedVB() : 0;] *)
Fixpoint readTag8_8SVB_loop (n : nat) (i : nat) (header : Z) (values : list jsval)
  : M (list jsval) :=
  match n with
  | O => ret values
  | S n' =>
      let* v := (if negb (JS.and header 0x01 =? 0)
                 then (let* x := readSignedVB in ret (JNum x))
                 else ret (JNum 0)) in
      readTag8_8SVB_loop n' (S i) (JS.sar header 1) (arr_set values i v)
  end.

Definition readTag8_8SVB (values : list jsval) (valueCount : Z) : M (list jsval) :=
  if valueCount =? 1 then
    let* x := readSignedVB in
    ret (arr_set values 0 (JNum x))
  else
    let* header := readByte in
    readTag8_8SVB_loop 8 0 (num_of header) values.

(** ** Reference encoders for variable-byte integers

    The repository only decodes.  The encoder the round-trip property
    refers to is the blackbox variable-byte format: seven data bits per
    byte, least significant group first, bit [0x80] set on every byte
    but the last; a 32-bit quantity takes at most five bytes. *)

Fixpoint encodeVB_bytes (n : nat) (u : Z) : list Z :=
  match n with
  | O => []
  | S n' =>
      if u <? 128 then [u]
      else Z.lor (Z.land u 0x7f) 0x80 :: encodeVB_bytes n' (Z.shiftr u 7)
  end.

Definition encodeVB (u : Z) : list Z := encodeVB_bytes 5 u.

(** ZigZag maps a signed 32-bit integer to an unsigned one:
    [(s << 1) ^ (s >> 31)], read as unsigned. *)
Definition encodeZigZag (s : Z) : Z :=
  JS.ToUint32 (Z.lxor (Z.shiftl s 1) (Z.shiftr s 31)).

(** ** Binary searches (utils/Utils.ts) *)

(** The [while (min < max)] loop of [binarySearchOrPrevious].  [list[mid]]
    is read with [data_at], so an index outside the list reads as
    [undefined] and fails both comparisons.  [None] stands for a loop
    that has not returned within [fuel] iterations. *)
Fixpoint binarySearchOrPrevious_loop (fuel : nat) (list : list Z) (item : Z)
    (min max result : Z) : option Z :=
  match fuel with
  | O => None
  | S fuel' =>
      if min <? max then
        let mid := (min + max) `div` 2 in
        if loose_eq (data_at list mid) (JNum item) then Some mid
        else if js_lt (data_at list mid) item then
          binarySearchOrPrevious_loop fuel' list item (mid + 1) max mid
        else
          binarySearchOrPrevious_loop fuel' list item min mid result
      else Some result
  end.

(** The interval [max - min] shrinks in every iteration, so
    [list.length + 1] iterations always suffice. *)
Definition binarySearchOrPrevious (list : list Z) (item : Z) : option Z :=
  binarySearchOrPrevious_loop (S (length list)) list item 0 (Z.of_nat (length list)) 0.

(** [a > n]: false when [a] is [undefined]. *)
Definition js_gt (a : jsval) (n : Z) : bool :=
  match a with
  | JNum x => n <? x
  | JUndefined => false
  end.

Fixpoint binarySearchOrNext_loop (fuel : nat) (list : list Z) (item : Z)
    (min max result : Z) : option Z :=
  match fuel with
  | O => None
  | S fuel' =>
      if min <? max then
        let mid := (min + max) `div` 2 in
        if loose_eq (data_at list mid) (JNum item) then Some mid
        else if js_gt (data_at list mid) item then
          binarySearchOrNext_loop fuel' list item min mid mid
        else
          binarySearchOrNext_loop fuel' list item (mid + 1) max result
      else Some result
  end.

Definition binarySearchOrNext (list : list Z) (item : Z) : option Z :=
  binarySearchOrNext_loop (S (length list)) list item 0 (Z.of_nat (length list))
                          (Z.of_nat (length list) - 1).

(** ** Header value parsing (utils/Utils.ts) *)

(** [string.split(",")]: the pieces between the separators; the empty
    string gives one empty piece. *)
Fixpoint split (sep : Ascii.ascii) (s : string) : list string :=
  match s with
  | EmptyString => [EmptyString]
  | String c s' =>
      if Ascii.eqb c sep then EmptyString :: split sep s'
      else match split sep s' with
           | [] => [String c EmptyString]
           | p :: ps => String c p :: ps
           end
  end.

(** [s.indexOf(c)] for a one-character pattern: the first position of
    [c] in [s], or -1. *)
Fixpoint string_indexOf (c : Ascii.ascii) (s : string) : Z :=
  match s with
  | EmptyString => -1
  | String a s' =>
      if Ascii.eqb a c then 0
      else let r := string_indexOf c s' in
           if r =? -1 then -1 else r + 1
  end.

(** [parts.indexOf(x)] on an array of strings. *)
Fixpoint array_indexOf (x : string) (l : list string) : Z :=
  match l with
  | [] => -1
  | p :: l' =>
      if String.eqb p x then 0
      else let r := array_indexOf x l' in
           if r =? -1 then -1 else r + 1
  end.

(** [parts.join(",")], which is how an array is turned into a string
    when handed to [parseFloat] or [parseInt]. *)
Fixpoint join_comma (l : list string) : string :=
  match l with
  | [] => EmptyString
  | [p] => p
  | p :: l' => p +:+ "," +:+ join_comma l'
  end.

(** An entry of the parsed header value. *)
Inductive csv_value (num : Type) : Type :=
  | VNum (n : num)
  | VStr (s : string)
  | VNull.
Arguments VNum {num} n.
Arguments VStr {num} s.
Arguments VNull {num}.

Inductive csv_result (num : Type) : Type :=
  | CsvScalar (v : csv_value num)
  | CsvArray (l : list (csv_value num)).
Arguments CsvScalar {num} v.
Arguments CsvArray {num} l.

Section ParseCommaSeparatedString.

(** The built-in [parseFloat] and [parseInt(_, 10)] are parameters;
    [None] stands for [NaN], the one result [isNaN] accepts. *)
Variable num : Type.
Variable parseFloat : string → option num.
Variable parseInt10 : string → option num.

(** [isNaN(value) ? fallback : value]. *)
Definition nan_fallback (value : option num) (fallback : string) : csv_value num :=
  match value with
  | Some v => VNum v
  | None => VStr fallback
  end.

(** The body of the loop for one present part:
    [value = parts[i].indexOf(".") ? parseFloat(parts[i]) : parseInt(parts[i], 10)];
    the condition is the index itself, so it is false exactly when the
    index is 0. *)
Definition parse_part (part : string) : csv_value num :=
  let value := if negb (string_indexOf "."%char part =? 0)
               then parseFloat part
               else parseInt10 part in
  nan_fallback value part.

Definition parseCommaSeparatedString (string0 : string) (length0 : Z) : csv_result num :=
  let parts := split ","%char string0 in
  let length1 := if length0 =? 0 then Z.of_nat (length parts) else length0 in
  if length1 <? 2 then
    let value := if negb (array_indexOf "." parts =? 0)
                 then parseFloat (join_comma parts)
                 else parseInt10 (join_comma parts) in
    CsvScalar (nan_fallback value string0)
  else
    CsvArray
      (map (λ i, match parts !! i with
                 | Some part => parse_part part
                 | None => VNull
                 end)
           (seq 0 (Z.to_nat length1))).

End ParseCommaSeparatedString.

(** The coercion the header grammar describes: a float when the part
    contains a dot, an integer otherwise, the literal part when the
    number is [NaN]. *)
Definition coerce_by_dot {num : Type} (parseFloat parseInt10 : string → option num)
    (part : string) : csv_value num :=
  nan_fallback num
    (if negb (string_indexOf "."%char part =? -1) then parseFloat part else parseInt10 part)
    part.

(** ** Vocabulary of the stream properties *)

(** The bytes [l] lie in the stream at its position, inside [[pos, end)]. *)
Definition bytes_at (s : ArrayDataStream) (l : list Z) : Prop :=
  pos s + Z.of_nat (length l) ≤ end_ s
  ∧ ∀ (k : nat) b, l !! k = Some b → data_at (data s) (pos s + Z.of_nat k) = JNum b.

(** A byte with the continuation bit set. *)
Definition continuation (v : jsval) : Prop := ∃ b, v = JNum b ∧ 128 ≤ b < 256.

(** [k] continuation bytes lie at the position, inside [[pos, end)]. *)
Definition continuations_at (s : ArrayDataStream) (k : nat) : Prop :=
  ∀ j : nat, (j < k)%nat →
    pos s + Z.of_nat j < end_ s ∧ continuation (data_at (data s) (pos s + Z.of_nat j)).

(** The marker occurs in the buffer at offset [i]: every byte of the
    marker is the byte of the buffer at the corresponding offset. *)
Definition occurs_at (d : list Z) (marker : list Z) (i : Z) : Prop :=
  ∀ (j : nat) c, marker !! j = Some c → data_at d (i + Z.of_nat j) = JNum c.

(** The offsets a left-to-right scan reports when it resumes behind the
    end of each match: the first occurrence at or after [p], then the
    scan from the end of that occurrence, until no occurrence is left
    in [[p, en - length marker]]. *)
Fixpoint scan_from (d : list Z) (marker : list Z) (en p : Z) (found : list Z) : Prop :=
  match found with
  | [] => ∀ i, p ≤ i ≤ en - Z.of_nat (length marker) → ¬ occurs_at d marker i
  | r :: found' =>
      p ≤ r ≤ en - Z.of_nat (length marker)
      ∧ occurs_at d marker r
      ∧ (∀ i, p ≤ i < r → ¬ occurs_at d marker i)
      ∧ scan_from d marker en (r + Z.of_nat (length marker)) found'
  end.

(** The bounds invariant of the stream. *)
Definition stream_inv (s : ArrayDataStream) : Prop :=
  start s ≤ pos s ∧ pos s ≤ end_ s ∧ end_ s ≤ Z.of_nat (length (data s)).

(** One stream handed on by an operation: the buffer and its bounds are
    untouched, the position has not moved back, and it has not moved
    past [end] unless it already was there. *)
Definition stream_step (s s' : ArrayDataStream) : Prop :=
  data s' = data s ∧ start s' = start s ∧ end_ s' = end_ s
  ∧ pos s ≤ pos s' ∧ (pos s ≤ end_ s → pos s' ≤ end_ s).

Definition forward {A : Type} (m : M A) : Prop := ∀ s, stream_step s (m s).2.

(** The 8-7-7 layout as the format describes it
    ([ss11 1111 1122 2222 2333 3333]): an 8-bit field made of the low
    six bits of the lead byte and the top two bits of the second byte,
    a 7-bit field made of the low six bits of the second byte and the
    top bit of the third, and a 7-bit field in the low seven bits of
    the third byte, each read as a two's-complement number. *)
Definition layout_877 (leadByte byte2 byte3 : Z) : list Z :=
  [ twos_complement 8
      (Z.lor (Z.shiftl (Z.land leadByte 0x3f) 2) (Z.shiftr (Z.land byte2 0xc0) 6));
    twos_complement 7
      (Z.lor (Z.shiftl (Z.land byte2 0x3f) 1) (Z.shiftr (Z.land byte3 0x80) 7));
    twos_complement 7 (Z.land byte3 0x7f) ].

(** ** The parser as the indexer and the facade see it

    [FlightLogIndex] and [FlightLog] drive a [FlightLogParser]: they
    call [parseHeader(start, end)], install [onFrameReady], call
    [parseLogData()] and read [frameDefs], [sysConfig] and [stats]. *)

(** A call that returns a value or throws; the thrown value is kept in
    its string form. *)
Inductive outcome (A : Type) : Type :=
  | Returned (a : A)
  | Thrown (e : string).
Arguments Returned {A} a.
Arguments Thrown {A} e.

(** [frameDefs.X]: the field names and the mapping from a name to its
    position. *)
Record frameDef : Type := mkFrameDef {
  name : list string;
  nameToIndex : gmap string nat;
  count : nat
}.

(** One call of [onFrameReady(frameValid, frame, frameType, frameOffset)].
    Main frames ("I" and "P") and slow frames carry an array of field
    values, an event frame carries an object with an [event] kind;
    other frame types (GPS) carry nothing the callers look at. *)
Inductive frame_ready : Type :=
  | MainFrame (frameValid : bool) (intra : bool) (frame : list Z) (frameOffset : Z)
  | EventFrame (frameValid : bool) (event : Z)
  | SlowFrame (frameValid : bool) (frame : list Z)
  | OtherFrame (frameValid : bool).

(** [a > b] on two values that are numbers or undefined. *)
Definition js_gt_val (a b : jsval) : bool :=
  match a, b with
  | JNum x, JNum y => y <? x
  | _, _ => false
  end.

(** [`motor[${j}]`] and the like. *)
Definition indexed_name (base : string) (j : nat) : string :=
  base +:+ "[" +:+ pretty j +:+ "]".

(** [arr[i] = true] on the sparse array [hasEvent]; a hole reads as
    [undefined] and is kept as [false]. *)
Definition mark_true (l : list bool) (i : nat) : list bool :=
  if (i <? length l)%nat then <[i:=true]> l
  else l ++ replicate (i - length l) false ++ [true].

(** The directory of one sub-log.  [minTime] and [maxTime] start as
    [false] ([None]); [initialSlow] is [None] once it has been deleted;
    [stats] is the parser's statistics record once the pass has run. *)
Record intraIndex (stats_t : Type) : Type := mkIntraIndex {
  times : list jsval;
  offsets : list Z;
  avgThrottle : list (option Z);
  initialSlow : option (list (list Z));
  hasEvent : list bool;
  minTime : option jsval;
  maxTime : option jsval;
  error : string;
  stats : option stats_t
}.
Arguments mkIntraIndex {stats_t}.
Arguments times {stats_t}.
Arguments offsets {stats_t}.
Arguments avgThrottle {stats_t}.
Arguments initialSlow {stats_t}.
Arguments hasEvent {stats_t}.
Arguments minTime {stats_t}.
Arguments maxTime {stats_t}.
Arguments error {stats_t}.
Arguments stats {stats_t}.

Definition set_error {stats_t} (d : intraIndex stats_t) (e : string) : intraIndex stats_t :=
  mkIntraIndex (times d) (offsets d) (avgThrottle d) (initialSlow d) (hasEvent d)
               (minTime d) (maxTime d) e (stats d).

(** The two diagnostics of an empty sub-log. *)
Definition LOGGING_PAUSED : string := ": Logging paused, no data".
Definition LOG_TRUNCATED : string := ": Log truncated, no data".

(** The char codes of the characters of a string, [charCodeAt(0)] of
    each. *)
Definition char_codes (s : string) : list Z :=
  (λ c, Z.of_N (Ascii.N_of_ascii c)) <$> list_ascii_of_string s.

(** The constants [FlightLogParser] exports (GraphConfig.ts, 1724-1733):
    the marker is the first header line with its newline. *)
Definition FLIGHT_LOG_START_MARKER : list Z :=
  char_codes ("H Product:Blackbox flight data recorder by Nicholas Sherlock"
              +:+ String "010"%char EmptyString).
Definition FLIGHT_LOG_FIELD_INDEX_TIME : nat := 1.

(** ** Plain objects used as tables

    [fieldNameToIndex] is a plain object ([{}]) that is written with
    [table[name] = i] and read with [table[name]].  Its own properties
    are a finite map.  A write to the key [__proto__] reaches the setter
    of [Object.prototype], which ignores a number: it leaves no entry.
    A read of a key that is not an own property finds what
    [Object.prototype] has under that name, and [undefined] only for
    the other keys. *)
Definition Object_prototype_names : list string :=
  ["constructor"; "__defineGetter__"; "__defineSetter__"; "hasOwnProperty";
   "__lookupGetter__"; "__lookupSetter__"; "isPrototypeOf"; "propertyIsEnumerable";
   "toString"; "valueOf"; "__proto__"; "toLocaleString"]%string.

(** What a read of a table gives: the number stored, something
    inherited from [Object.prototype] (a function or an object, none of
    them [undefined]), or [undefined]. *)
Inductive property : Type :=
  | Index (i : nat)
  | Inherited
  | Undefined.

(** [table[key] = i]. *)
Definition table_set (m : gmap string nat) (key : string) (i : nat) : gmap string nat :=
  if String.eqb key "__proto__" then m else <[key:=i]> m.

(** [table[key]]. *)
Definition table_get (m : gmap string nat) (key : string) : property :=
  match m !! key with
  | Some i => Index i
  | None => if bool_decide (key ∈ Object_prototype_names) then Inherited else Undefined
  end.

(** [v !== undefined]. *)
Definition is_defined (v : property) : bool :=
  match v with
  | Undefined => false
  | _ => true
  end.

Section Parser.

(** Constants the sources import from [FlightLogFieldDefs], which is not
    among the sources: the kind of the event that ends a log, and the
    largest number of motors. *)
Variable LOG_END : Z.
Variable MAX_MOTOR_NUMBER : nat.

(** The configuration record and the statistics record of the parser,
    with the two things the facade reads from the configuration:
    [fields_disabled_mask], and the floating-point comparison
    [refVoltage >= i * sysConfig.vbatmaxcellvoltage] of
    [_estimateNumCells], which also involves the firmware version. *)
Context {sysConfig_t stats_t chunk_t : Type}.
Variable fields_disabled_mask : sysConfig_t → Z.
Variable cell_voltage_reached : sysConfig_t → Z → bool.

(** What a [parseHeader] that has returned leaves in the parser for its
    callers: [frameDefs.I], which is complete then (GraphConfig.ts,
    1562-1567, throws otherwise), [frameDefs.S] when the header defines
    slow fields, and [sysConfig].  Every frame definition has a [name]
    array and a [nameToIndex] object (866-877); the callers read
    [nameToIndex] at the keys [motor[0]] to [motor[7]] only, which
    [Object.prototype] does not have, so its own properties are all
    that counts. *)
Record header : Type := mkHeader {
  frameDefs_I : frameDef;
  frameDefs_S : option frameDef;
  sysConfig : sysConfig_t
}.

(** *** The parser objects

    [FlightLogParser] (GraphConfig.ts, 460-1722) is not embedded as a
    function of the buffer: its header parsing goes through [Jq],
    [semver] and [FlightLogFieldDefs], which are not among the sources;
    it keeps state from one call to the next ([dataVersion] survives
    [_resetAllState], 1486-1501, and the default configuration arrays
    are pushed to); and its frame loop does not return on a header with
    [P interval:1/0] ([_countIntentionallySkippedFrames], 1337-1353).
    The indexer and the facade are embedded against everything a call
    of the parser can do: return, throw, or not return, with an answer
    that may depend on every call made before.

    A [world] holds the answers the parser objects are going to give,
    in the order of the calls, and the calls made so far.  A call takes
    the next answer; when there is none, or the next answer is not one
    of this method, the call does not return ([None]).  The statements
    about the indexer and the facade hold for every world.

    What is taken from the parser's source: [parseHeader] returns only
    with a complete [frameDefs.I] (1562-1567); [parseLogData] hands the
    frames to [onFrameReady] one by one, returns or throws, leaves
    [stats], and does not assign [frameDefs] (1608-1721), so that
    [frameDefs.S] read after the pass is what [parseHeader] left. *)

(** The parser that [_buildIntraframeDirectories] creates and the one
    the constructor of [FlightLog] creates. *)
Inductive parser_id : Type :=
  | IndexParser
  | FacadeParser.

Inductive parser_call : Type :=
  | ParseHeader (who : parser_id) (startOffset endOffset : jsval)
  | ParseLogData (who : parser_id).

(** The answer to [parseHeader]: it returns and leaves a header, or it
    throws.  The answer to [parseLogData]: the calls of [onFrameReady]
    it makes, in order, what it throws after them if it throws, and
    [stats]. *)
Inductive parser_answer : Type :=
  | HeaderAnswer (o : outcome header)
  | LogDataAnswer (frames : list frame_ready) (thrown : option string) (stats0 : stats_t).

Record world : Type := mkWorld {
  answers : list parser_answer;
  calls : list parser_call
}.

(** [parser.parseHeader(startOffset, endOffset)]. *)
Definition parser_parseHeader (who : parser_id) (startOffset endOffset : jsval) (w : world)
  : option (outcome header * world) :=
  match answers w with
  | HeaderAnswer o :: rest =>
      Some (o, mkWorld rest (calls w ++ [ParseHeader who startOffset endOffset]))
  | _ => None
  end.

(** [parser.parseLogData()] with [parser.onFrameReady] installed: the
    frames the callback is called with, what is thrown, and
    [parser.stats]. *)
Definition parser_parseLogData (who : parser_id) (w : world)
  : option (list frame_ready * option string * stats_t * world) :=
  match answers w with
  | LogDataAnswer frames thrown stats0 :: rest =>
      Some (frames, thrown, stats0, mkWorld rest (calls w ++ [ParseLogData who]))
  | _ => None
  end.

(** ** The sub-log indexer (FlightLogIndex.ts) *)

(** The local state of [_parseSubLog] that the callback updates. *)
Record index_pass : Type := mkPass {
  intraIndex_of : intraIndex stats_t;
  iframeCount : Z;
  lastSlow : list Z;
  sawEndMarker : bool
}.

(** [motorFields]: the positions of [motor[0]] to [motor[7]] that the
    main frame definition has. *)
Definition motorFields_of (mainFrameDef : frameDef) : list nat :=
  omap (λ j, nameToIndex mainFrameDef !! indexed_name "motor" j) (seq 0 8).

(** [Math.round(throttleTotal / motorFields.length)] on integers, [None]
    standing for [NaN] (a field the frame does not have).  [Math.round]
    is the floor of the value plus one half. *)
Definition avg_throttle (motorFields : list nat) (frame : list Z) : option Z :=
  total ← foldl (λ acc motorField, t ← acc; v ← frame !! motorField; Some (t + v))
                (Some 0) motorFields;
  Some ((2 * total + Z.of_nat (length motorFields))
          `div` (2 * Z.of_nat (length motorFields))).

(** The callback [parser.onFrameReady] that [_parseSubLog] installs. *)
Definition onFrameReady (motorFields : list nat) (st : index_pass) (fr : frame_ready)
  : index_pass :=
  let d := intraIndex_of st in
  match fr with
  | MainFrame frameValid intra frame frameOffset =>
      if negb frameValid then st
      else
        let frameTime := data_at frame (Z.of_nat FLIGHT_LOG_FIELD_INDEX_TIME) in
        let minTime' := match minTime d with
                        | None => Some frameTime
                        | Some t => Some t
                        end in
        let maxTime' := match maxTime d with
                        | None => Some frameTime
                        | Some t => if js_gt_val frameTime t then Some frameTime else Some t
                        end in
        if intra then
          let chunk_start := iframeCount st `mod` 4 =? 0 in
          let times' := if chunk_start then times d ++ [frameTime] else times d in
          let offsets' := if chunk_start then offsets d ++ [frameOffset] else offsets d in
          let avgThrottle' :=
            if chunk_start && negb (length motorFields =? 0)%nat
            then avgThrottle d ++ [avg_throttle motorFields frame]
            else avgThrottle d in
          let initialSlow' :=
            if chunk_start then (λ l, l ++ [lastSlow st]) <$> initialSlow d
            else initialSlow d in
          mkPass (mkIntraIndex times' offsets' avgThrottle' initialSlow' (hasEvent d)
                               minTime' maxTime' (error d) (stats d))
                 (iframeCount st + 1) (lastSlow st) (sawEndMarker st)
        else
          mkPass (mkIntraIndex (times d) (offsets d) (avgThrottle d) (initialSlow d)
                               (hasEvent d) minTime' maxTime' (error d) (stats d))
                 (iframeCount st) (lastSlow st) (sawEndMarker st)
  | EventFrame frameValid event =>
      if negb frameValid then st
      else
        let hasEvent' :=
          if (0 <? length (times d))%nat
          then mark_true (hasEvent d) (length (times d) - 1)
          else hasEvent d in
        mkPass (mkIntraIndex (times d) (offsets d) (avgThrottle d) (initialSlow d)
                             hasEvent' (minTime d) (maxTime d) (error d) (stats d))
               (iframeCount st) (lastSlow st)
               (if event =? LOG_END then true else sawEndMarker st)
  | SlowFrame frameValid frame =>
      if negb frameValid then st
      else mkPass d (iframeCount st) frame (sawEndMarker st)
  | OtherFrame _ => st
  end.

(** [logBeginOffsets[i]]. *)
Definition offset_at (logBeginOffsets : list Z) (i : nat) : jsval :=
  match logBeginOffsets !! i with
  | Some o => JNum o
  | None => JUndefined
  end.

(** The closing block of [_parseSubLog]: a directory without any valid
    main frame gets a diagnostic appended to its error. *)
Definition no_data_diagnostic (d : intraIndex stats_t) (saw : bool) : intraIndex stats_t :=
  match minTime d with
  | None => set_error d (error d +:+ (if saw then LOGGING_PAUSED else LOG_TRUNCATED))
  | Some _ => d
  end.

(** [_parseSubLog(parser, subLogIndex)]: what [parseHeader] throws is
    caught and kept as the error; only after a header that parsed are
    the frames read, and what [parseLogData] throws is caught and kept
    as the error too. *)
Definition _parseSubLog (parser : parser_id) (logBeginOffsets : list Z)
    (subLogIndex : nat) (w : world) : option (intraIndex stats_t * world) :=
  let intraIndex0 :=
    mkIntraIndex [] [] [] (Some []) [] None None EmptyString None in
  match parser_parseHeader parser (offset_at logBeginOffsets subLogIndex)
                           (offset_at logBeginOffsets (S subLogIndex)) w with
  | None => None
  | Some (Thrown e, w) =>
      Some (no_data_diagnostic (set_error intraIndex0 e) false, w)
  | Some (Returned h, w) =>
      let motorFields := motorFields_of (frameDefs_I h) in
      match parser_parseLogData parser w with
      | None => None
      | Some (frames, thrown, stats0, w) =>
          let st := foldl (onFrameReady motorFields) (mkPass intraIndex0 0 [] false)
                          frames in
          let d := intraIndex_of st in
          let d := match thrown with
                   | Some e => set_error d e
                   | None => d
                   end in
          let initialSlow' := match frameDefs_S h with
                              | Some _ => initialSlow d
                              | None => None
                              end in
          let d := mkIntraIndex (times d) (offsets d) (avgThrottle d) initialSlow'
                                (hasEvent d) (minTime d) (maxTime d) (error d)
                                (Some stats0) in
          Some (no_data_diagnostic d (sawEndMarker st), w)
      end
  end.

(** The state of a [FlightLogIndex] object; the two caches start as
    [null]. *)
Record FlightLogIndex : Type := mkIndex {
  logData : list Z;
  logBeginOffsets : option (list Z);
  intraframeDirectories : option (list (intraIndex stats_t))
}.

Definition new_FlightLogIndex (logData0 : list Z) : FlightLogIndex :=
  mkIndex logData0 None None.

(** [new ArrayDataStream(this.logData).allIndicesOf(FLIGHT_LOG_START_MARKER)];
    [allIndicesOf] always returns (see [allIndicesOf_returns]). *)
Definition start_offsets (logData0 : list Z) : list Z :=
  match allIndicesOf FLIGHT_LOG_START_MARKER (new_ArrayDataStream logData0 None None) with
  | Some r => r.1
  | None => []
  end.

Definition buildLogOffsetsIndex (idx : FlightLogIndex) : FlightLogIndex :=
  mkIndex (logData idx) (Some (start_offsets (logData idx))) (intraframeDirectories idx).

(** [if (!this.logBeginOffsets) this.buildLogOffsetsIndex();] *)
Definition ensure_offsets (idx : FlightLogIndex) : list Z * FlightLogIndex :=
  match logBeginOffsets idx with
  | Some l => (l, idx)
  | None => (start_offsets (logData idx), buildLogOffsetsIndex idx)
  end.

Definition getLogBeginOffset (idx : FlightLogIndex) (index : Z) : jsval * FlightLogIndex :=
  let r := ensure_offsets idx in
  (data_at r.1 index, r.2).

Definition getLogCount (idx : FlightLogIndex) : Z * FlightLogIndex :=
  let r := ensure_offsets idx in
  (Z.of_nat (length r.1) - 1, r.2).

(** The loop of [_buildIntraframeDirectories], one parser for all
    sub-logs, with [n] sub-logs left from sub-log [i] on. *)
Fixpoint parse_sub_logs (parser : parser_id) (logBeginOffsets : list Z)
    (i : nat) (n : nat) (w : world) : option (list (intraIndex stats_t) * world) :=
  match n with
  | O => Some ([], w)
  | S n' =>
      match _parseSubLog parser logBeginOffsets i w with
      | None => None
      | Some (d, w) =>
          match parse_sub_logs parser logBeginOffsets (S i) n' w with
          | None => None
          | Some (ds, w) => Some (d :: ds, w)
          end
      end
  end.

Definition _buildIntraframeDirectories (idx : FlightLogIndex) (w : world)
  : option (FlightLogIndex * world) :=
  let c := getLogCount idx in
  match parse_sub_logs IndexParser (ensure_offsets idx).1 0 (Z.to_nat c.1) w with
  | None => None
  | Some (ds, w) => Some (mkIndex (logData c.2) (logBeginOffsets c.2) (Some ds), w)
  end.

Definition _getIntraframeDirectories (idx : FlightLogIndex) (w : world)
  : option (list (intraIndex stats_t) * FlightLogIndex * world) :=
  match intraframeDirectories idx with
  | Some ds => Some (ds, idx, w)
  | None =>
      match _buildIntraframeDirectories idx w with
      | None => None
      | Some (idx', w) => Some (default [] (intraframeDirectories idx'), idx', w)
      end
  end.

(** [this._getIntraframeDirectories()[logIndex]]; [None] inside is
    [undefined]. *)
Definition getIntraframeDirectory (idx : FlightLogIndex) (logIndex0 : Z) (w : world)
  : option (option (intraIndex stats_t) * FlightLogIndex * world) :=
  match _getIntraframeDirectories idx w with
  | None => None
  | Some (ds, idx, w) =>
      Some ((if logIndex0 <? 0 then None else ds !! Z.to_nat logIndex0), idx, w)
  end.

(** ** The facade (FlightLog.ts) *)

(** The state of a [FlightLog] object that [openLog] reads and writes.
    Its [parser] is the parser object [FacadeParser], whose state is
    part of the world; [fieldNameToIndex] holds the own properties of
    that table. *)
Record FlightLog : Type := mkFlightLog {
  logIndex : Z;
  logIndexes : FlightLogIndex;
  iframeDirectory : option (intraIndex stats_t);
  numCells : Z;
  numMotors : Z;
  fieldNames : list string;
  fieldNameToIndex : gmap string nat;
  _allChunks : option (list chunk_t)
}.

(** [constructor(logData)]. *)
Definition new_FlightLog (logData0 : list Z) : FlightLog :=
  mkFlightLog 0 (new_FlightLogIndex logData0) None 0 0 [] ∅ None.

(** [isFieldDisabled()]: one flag per bit of [fields_disabled_mask]. *)
Definition isFieldDisabled (cfg : sysConfig_t) (bit : Z) : bool :=
  negb (JS.and (fields_disabled_mask cfg) (JS.shl 1 bit) =? 0).

Definition PID_disabled (cfg : sysConfig_t) : bool := isFieldDisabled cfg 0.
Definition SETPOINT_disabled (cfg : sysConfig_t) : bool := isFieldDisabled cfg 2.
Definition GYRO_disabled (cfg : sysConfig_t) : bool := isFieldDisabled cfg 7.
Definition MOTORS_disabled (cfg : sysConfig_t) : bool := isFieldDisabled cfg 10.

(** The loop that appends [motorLegacy[i]] while [motor[i]] is among
    the names, with [n] iterations left. *)
Fixpoint legacy_motor_names (n : nat) (i : nat) (names : list string) : list string :=
  match n with
  | O => names
  | S n' =>
      if bool_decide (indexed_name "motor" i ∈ names)
      then legacy_motor_names n' (S i) (names ++ [indexed_name "motorLegacy" i])
      else names
  end.

(** [this.fieldNameToIndex[this.fieldNames[i]] = i] for [i] from 0 up:
    a later position of the same name wins. *)
Fixpoint index_names (names : list string) (i : nat) (m : gmap string nat)
  : gmap string nat :=
  match names with
  | [] => m
  | x :: names' => index_names names' (S i) (table_set m x i)
  end.

(** [_buildFieldNames()], as a function of the header the parser holds. *)
Definition _buildFieldNames (h : header) : list string :=
  let cfg := sysConfig h in
  let names := name (frameDefs_I h) in
  let names := match frameDefs_S h with
               | Some s => names ++ name s
               | None => names
               end in
  let names := if negb (PID_disabled cfg)
               then names ++ map (indexed_name "axisSum") [0; 1; 2]%nat
               else names in
  let names := if negb (SETPOINT_disabled cfg)
               then names ++ map (indexed_name "rcCommands") [0; 1; 2; 3]%nat
               else names in
  let names := if negb (GYRO_disabled cfg || PID_disabled cfg)
               then names ++ map (indexed_name "axisError") [0; 1; 2]%nat
               else names in
  if negb (MOTORS_disabled cfg)
  then legacy_motor_names MAX_MOTOR_NUMBER 0 names
  else names.

(** [getMainFieldIndexByName(name)]. *)
Definition getMainFieldIndexByName (m : gmap string nat) (name0 : string) : property :=
  table_get m name0.

(** [_estimateNumMotors()]. *)
Definition _estimateNumMotors (m : gmap string nat) : Z :=
  Z.of_nat (length (filter (λ j, is_defined (getMainFieldIndexByName
                                              m (indexed_name "motor" j)) = true)
                           (seq 0 MAX_MOTOR_NUMBER))).

(** The loop [for (i = 1; i < 8 && refVoltage >= i * vbatmaxcellvoltage;
    i++) {}] of [_estimateNumCells]; from [i = 1] it makes at most seven
    iterations. *)
Fixpoint num_cells_loop (fuel : nat) (cfg : sysConfig_t) (i : Z) : Z :=
  match fuel with
  | O => i
  | S fuel' =>
      if (i <? 8) && cell_voltage_reached cfg i
      then num_cells_loop fuel' cfg (i + 1)
      else i
  end.

(** [_estimateNumCells()]: no cells when [fieldNameToIndex.vbatLatest]
    is falsy (absent, or position 0). *)
Definition _estimateNumCells (m : gmap string nat) (cfg : sysConfig_t) : Z :=
  match m !! "vbatLatest"%string with
  | None | Some O => 0
  | Some (S _) => num_cells_loop 7 cfg 1
  end.

Definition set_logIndexes (fl : FlightLog) (idx : FlightLogIndex) : FlightLog :=
  mkFlightLog (logIndex fl) idx (iframeDirectory fl) (numCells fl)
              (numMotors fl) (fieldNames fl) (fieldNameToIndex fl) (_allChunks fl).

(** What reading [.error] of [undefined] throws. *)
Definition NO_DIRECTORY : string :=
  "TypeError: Cannot read properties of undefined (reading 'error')".

(** [getLogError(logIndex)]: the [error] of the directory, or a
    [TypeError] when there is no directory at that index. *)
Definition getLogError (fl : FlightLog) (logIndex0 : Z) (w : world)
  : option (outcome string * FlightLog * world) :=
  match getIntraframeDirectory (logIndexes fl) logIndex0 w with
  | None => None
  | Some (Some d, idx, w) => Some (Returned (error d), set_logIndexes fl idx, w)
  | Some (None, idx, w) => Some (Thrown NO_DIRECTORY, set_logIndexes fl idx, w)
  end.

(** [openLog(index)].  Nothing is caught here: what [getLogError] or
    [parseHeader] throws leaves [openLog], with the assignments made up
    to then in place. *)
Definition openLog (fl : FlightLog) (index : Z) (w : world)
  : option (outcome bool * FlightLog * world) :=
  match getLogError fl index w with
  | None => None
  | Some (Thrown t, fl, w) => Some (Thrown t, fl, w)
  | Some (Returned err, fl, w) =>
      if negb (String.eqb err EmptyString) then Some (Returned false, fl, w)
      else
        match getIntraframeDirectory (logIndexes fl) index w with
        | None => None
        | Some (d, idx, w) =>
            let o1 := getLogBeginOffset idx index in
            let o2 := getLogBeginOffset o1.2 (index + 1) in
            match parser_parseHeader FacadeParser o1.1 o2.1 w with
            | None => None
            | Some (Thrown t, w) =>
                Some (Thrown t,
                      mkFlightLog index o2.2 d (numCells fl) (numMotors fl)
                                  (fieldNames fl) (fieldNameToIndex fl) (_allChunks fl),
                      w)
            | Some (Returned h, w) =>
                let names := _buildFieldNames h in
                let m := index_names names 0 ∅ in
                Some (Returned true,
                      mkFlightLog index o2.2 d
                                  (_estimateNumCells m (sysConfig h))
                                  (_estimateNumMotors m)
                                  names m None,
                      w)
            end
        end
  end.

(** What a caller can observe of the facade that [openLog] is meant to
    set: the current log index, the field names, the motor and cell
    counts and the chunk cache. *)
Definition observable (fl : FlightLog)
  : Z * list string * Z * Z * option (list chunk_t) :=
  (logIndex fl, fieldNames fl, numMotors fl, numCells fl, _allChunks fl).

(** The caches of the index fit its buffer: the offsets are the ones
    [buildLogOffsetsIndex] finds, and there is one directory for each
    sub-log. *)
Definition index_consistent (idx : FlightLogIndex) : Prop :=
  (∀ l, logBeginOffsets idx = Some l → l = start_offsets (logData idx))
  ∧ (∀ ds, intraframeDirectories idx = Some ds →
       length ds = (length (start_offsets (logData idx)) - 1)%nat).

Definition facade_consistent (fl : FlightLog) : Prop :=
  index_consistent (logIndexes fl).

(** What the pass over a sub-log saw, read off the calls the parser
    made. *)
Definition valid_main_frame (fr : frame_ready) : bool :=
  match fr with
  | MainFrame frameValid _ _ _ => frameValid
  | _ => false
  end.


(** One pass of the indexer over a sub-log, as the parser answers it:
    the header call throws, or it returns and the frame call returns or
    throws after the frames it reported. *)
Inductive parser_pass : Type :=
  | HeaderThrew (e : string)
  | PassRan (h : header) (frames : list frame_ready) (thrown : option string)
            (stats0 : stats_t).

(** The pass the next answers of the world make up, if they do: [None]
    when one of the two calls does not return. *)
Definition next_pass (l : list parser_answer) : option (parser_pass * list parser_answer) :=
  match l with
  | HeaderAnswer (Thrown e) :: rest => Some (HeaderThrew e, rest)
  | HeaderAnswer (Returned h) :: LogDataAnswer frames thrown stats0 :: rest =>
      Some (PassRan h frames thrown stats0, rest)
  | _ => None
  end.


(** The frames the callback was called with; none when the header did
    not parse. *)
Definition frames_seen (p : parser_pass) : list frame_ready :=
  match p with
  | HeaderThrew _ => []
  | PassRan _ frames _ _ => frames
  end.

(** The calls the indexer makes to the parser in a pass over the
    sub-log between the offsets [a] and [b]. *)
Definition calls_of_pass (parser : parser_id) (a b : jsval) (p : parser_pass)
  : list parser_call :=
  match p with
  | HeaderThrew _ => [ParseHeader parser a b]
  | PassRan _ _ _ _ => [ParseHeader parser a b; ParseLogData parser]
  end.

(** [n] passes in a row, from the answers [l]. *)
Fixpoint next_passes (n : nat) (l : list parser_answer)
  : option (list parser_pass * list parser_answer) :=
  match n with
  | O => Some ([], l)
  | S n' =>
      match next_pass l with
      | None => None
      | Some (p, rest) =>
          match next_passes n' rest with
          | None => None
          | Some (ps, rest) => Some (p :: ps, rest)
          end
      end
  end.

(** The calls of the passes over the sub-logs [i], [i + 1], ... *)
Fixpoint calls_of_passes (parser : parser_id) (logBeginOffsets : list Z) (i : nat)
    (ps : list parser_pass) : list parser_call :=
  match ps with
  | [] => []
  | p :: ps' =>
      calls_of_pass parser (offset_at logBeginOffsets i) (offset_at logBeginOffsets (S i)) p
      ++ calls_of_passes parser logBeginOffsets (S i) ps'
  end.

End Parser.

Arguments header : clear implicits.
Arguments index_pass : clear implicits.
Arguments FlightLogIndex : clear implicits.
Arguments FlightLog : clear implicits.
Arguments parser_answer : clear implicits.
Arguments parser_pass : clear implicits.
Arguments world : clear implicits.

(** ** A small world for the examples

    Two sub-logs, each the start marker and one more byte.  The parser
    answers as follows: the header of the first sub-log parses and its
    frame pass reports one valid I-frame followed by a [LOG_END] event;
    the header of the second sub-log is incomplete; the header the
    facade asks for then parses. *)

Definition example_header : header unit :=
  mkHeader (mkFrameDef ["loopIteration"; "time"; "motor[0]"]%string
                       (list_to_map [("loopIteration", 0); ("time", 1); ("motor[0]", 2)]%string%nat)
                       3)
           None tt.

Definition MISSING_I_FRAMES : string :=
  "Log is missing required definitions for I frames, header may be corrupt".

Definition example_frames : list frame_ready :=
  [MainFrame true true [0; 72120701; 1500] 0; EventFrame true 255].

Definition example_world : world unit unit :=
  mkWorld [HeaderAnswer (Returned example_header);
           LogDataAnswer example_frames None tt;
           HeaderAnswer (Thrown MISSING_I_FRAMES);
           HeaderAnswer (Returned example_header)]
          [].



(** A pass whose main frames are out of order, with an invalid frame
    among them. *)
Definition example_world_unordered : world unit unit :=
  mkWorld [HeaderAnswer (Returned example_header);
           LogDataAnswer [MainFrame true true [0; 500] 10; MainFrame true false [1; 300] 20;
                          MainFrame false false [2; 900] 30; MainFrame true false [3; 700] 40]
                         None tt]
          [].

Definition example_logData : list Z :=
  FLIGHT_LOG_START_MARKER ++ [1] ++ FLIGHT_LOG_START_MARKER ++ [2].

Definition example_FlightLog : FlightLog unit unit := new_FlightLog example_logData.

(** A buffer without any log, and a parser that is never asked. *)
Definition empty_FlightLog : FlightLog unit unit := new_FlightLog [].
Definition silent_world : world unit unit := mkWorld [] [].

(** How the end-of-file flag moves from one stream to the next: it is
    not cleared, and it is raised only with the position at or behind
    [end]. *)
Definition eof_step (s s' : ArrayDataStream) : Prop :=
  (eof s = true → eof s' = true)
  ∧ (eof s' = true → eof s = true ∨ end_ s ≤ pos s').

Definition careful {A : Type} (m : M A) : Prop :=
  ∀ s, stream_step s (m s).2 ∧ eof_step s (m s).2.

(** All bytes of a list are values of a [Uint8Array]. *)
Definition bytes_ok (l : list Z) : Prop := Forall (λ b, 0 ≤ b < 256) l.

(** ** Searches of utils/Utils.ts and test/Utils.ts *)

(** [a <= n] on a value read from an array; [undefined <= n] is false. *)
Definition js_le (a : jsval) (n : Z) : bool :=
  match a with
  | JNum x => x <=? n
  | JUndefined => false
  end.

Section FrameSearch.

Variable FLIGHT_LOG_FIELD_INDEX_TIME : nat.

(** The [while (low < high)] loop of [firstIndexLargerThanTime].
    [frames[mid]] outside the array is [undefined], and reading its
    time field throws a [TypeError]; fuel that runs out gives [None]. *)
Fixpoint firstIndexLargerThanTime_loop (fuel : nat) (frames : list (list Z)) (time : Z)
    (low high : Z) : option (outcome Z) :=
  match fuel with
  | O => None
  | S fuel' =>
      if low <? high then
        let mid := (low + high) `div` 2 in
        match (if mid <? 0 then None else frames !! Z.to_nat mid) with
        | None => Some (Thrown "TypeError: Cannot read properties of undefined")
        | Some frame =>
            if js_le (data_at frame (Z.of_nat FLIGHT_LOG_FIELD_INDEX_TIME)) time
            then firstIndexLargerThanTime_loop fuel' frames time (mid + 1) high
            else firstIndexLargerThanTime_loop fuel' frames time low mid
        end
      else Some (Returned low)
  end.

Definition firstIndexLargerThanTime (frames : list (list Z)) (time : Z)
  : option (outcome Z) :=
  firstIndexLargerThanTime_loop (S (length frames)) frames time 0 (Z.of_nat (length frames)).

(** The frames carry the times [ts], in this order. *)
Definition frame_times (frames : list (list Z)) (ts : list Z) : Prop :=
  Forall2 (λ frame t, data_at frame (Z.of_nat FLIGHT_LOG_FIELD_INDEX_TIME) = JNum t)
          frames ts.

End FrameSearch.

(** [Math.max(min, Math.min(value, max))] on integers. *)
Definition constrain (value min max : Z) : Z := Z.max min (Z.min value max).

Module TestUtils.

(** [list.indexOf(searched, k)] scanning the rest of the list behind
    position [k]. *)
Fixpoint index_from (rest : list Z) (searched : Z) (k : Z) : Z :=
  match rest with
  | [] => -1
  | y :: rest' => if y =? searched then k else index_from rest' searched (k + 1)
  end.

Definition indexOf (lst : list Z) (searched : Z) (startIndex : Z) : Z :=
  index_from (drop (Z.to_nat startIndex) lst) searched startIndex.

(** The [while (startIndex < list.length)] loop of [allIndicesOf]; the
    parameter [list] is [lst] here. *)
Fixpoint allIndicesOf_loop (fuel : nat) (lst : list Z) (searched : Z)
    (startIndex : Z) (indices : list Z) : option (list Z) :=
  match fuel with
  | O => None
  | S fuel' =>
      if startIndex <? Z.of_nat (length lst) then
        let index := indexOf lst searched startIndex in
        if index =? -1 then Some indices
        else allIndicesOf_loop fuel' lst searched (index + 1) (indices ++ [index])
      else Some indices
  end.

Definition allIndicesOf (lst : list Z) (searched : Z) : option (list Z) :=
  allIndicesOf_loop (S (length lst)) lst searched 0 [].

End TestUtils.


(** A valid "I" frame, the kind of frame the indexer counts. *)
Definition valid_intra_frame (fr : frame_ready) : bool :=
  match fr with
  | MainFrame frameValid intra _ _ => frameValid && intra
  | _ => false
  end.


(** What the callback of [_parseSubLog] keeps true of the directory it
    fills, with [c] the number of valid I-frames it has been given. *)
Definition directory_shape {stats_t : Type} (motorFields : list nat)
    (st : index_pass stats_t) (c : Z) : Prop :=
  let d := intraIndex_of st in
  iframeCount st = c
  ∧ Z.of_nat (length (times d)) = (c + 3) `div` 4
  ∧ length (offsets d) = length (times d)
  ∧ (length (hasEvent d) ≤ length (times d))%nat
  ∧ (∃ l, initialSlow d = Some l ∧ length l = length (times d))
  ∧ length (avgThrottle d) = (if motorFields is [] then 0%nat else length (times d)).


(** A stream operation advances the position by at most [k]. *)
Definition consumes {A : Type} (k : Z) (m : M A) : Prop :=
  ∀ s, pos (m s).2 ≤ pos s + k.


(** ** Time formatting (utils/Utils.ts) *)

(** The [while (string.length < minLength) string = pad + string] loop
    of [leftPad].  With an empty [pad] the loop does not end; [None]
    stands for a loop that has not ended within [fuel] iterations. *)
Fixpoint leftPad_loop (fuel : nat) (string0 pad : string) (minLength : nat)
  : option string :=
  match fuel with
  | O => None
  | S fuel' =>
      if (String.length string0 <? minLength)%nat
      then leftPad_loop fuel' (pad +:+ string0) pad minLength
      else Some string0
  end.

(** [leftPad(string, pad, minLength)] on a value that is a string
    already.  A non-empty [pad] makes the string longer in every
    iteration, so [minLength + 1] iterations always suffice. *)
Definition leftPad (string0 pad : string) (minLength : nat) : option string :=
  leftPad_loop (S minLength) string0 pad minLength.

(** [k] copies of [pad]. *)
Fixpoint pad_times (k : nat) (pad : string) : string :=
  match k with
  | O => EmptyString
  | S k' => pad +:+ pad_times k' pad
  end.



(** The time and the offset of a main frame, as the callback of the
    indexer reads them. *)
Definition main_frame_time (fr : frame_ready) : jsval :=
  match fr with
  | MainFrame _ _ frame _ => data_at frame (Z.of_nat FLIGHT_LOG_FIELD_INDEX_TIME)
  | _ => JUndefined
  end.

Definition main_frame_offset (fr : frame_ready) : Z :=
  match fr with
  | MainFrame _ _ _ frameOffset => frameOffset
  | _ => 0
  end.

(** The elements of a list whose number, counted from [k], is a multiple
    of four. *)
Fixpoint every_fourth_from {A : Type} (k : Z) (l : list A) : list A :=
  match l with
  | [] => []
  | x :: l' =>
      if k `mod` 4 =? 0 then x :: every_fourth_from (k + 1) l'
      else every_fourth_from (k + 1) l'
  end.

(** The running maximum the callback keeps in [maxTime]: the first time,
    then every time that is larger than the one kept. *)
Definition max_step (acc : option Z) (z : Z) : option Z :=
  match acc with
  | None => Some z
  | Some m => if m <? z then Some z else Some m
  end.


(* ================================================================== *)
(** * Properties *)
(* ================================================================== *)

(** ** Facts about the 32-bit operators *)

Section JSFacts.

Lemma ToInt32_small z : - 2 ^ 31 ≤ z < 2 ^ 31 → JS.ToInt32 z = z.
Proof.
  intros Hz. unfold JS.ToInt32. cbv zeta.
  destruct (Z_lt_dec z 0) as [Hneg|Hpos].
  - replace (z mod 2 ^ 32) with (z + 2 ^ 32).
    + case_match; [apply Z.ltb_lt in H|]; lia.
    + apply Z.mod_unique with (q := -1); lia.
  - rewrite Z.mod_small by lia.
    case_match; [done|apply Z.ltb_ge in H; lia].
Qed.

Lemma ToInt32_range z : - 2 ^ 31 ≤ JS.ToInt32 z < 2 ^ 31.
Proof.
  unfold JS.ToInt32. cbv zeta.
  pose proof (Z.mod_pos_bound z (2 ^ 32) ltac:(lia)).
  case_match; [apply Z.ltb_lt in H0|apply Z.ltb_ge in H0]; lia.
Qed.

Lemma ToInt32_mod z : JS.ToInt32 z mod 2 ^ 32 = z mod 2 ^ 32.
Proof.
  unfold JS.ToInt32. cbv zeta. case_match.
  - apply Z.mod_mod. lia.
  - replace (z mod 2 ^ 32 - 2 ^ 32) with (z mod 2 ^ 32 + (-1) * 2 ^ 32) by lia.
    rewrite Z.mod_add by lia. apply Z.mod_mod. lia.
Qed.

Lemma ToInt32_testbit z i : 0 ≤ i < 32 → Z.testbit (JS.ToInt32 z) i = Z.testbit z i.
Proof.
  intros Hi.
  rewrite <- (Z.mod_pow2_bits_low (JS.ToInt32 z) 32 i) by lia.
  rewrite ToInt32_mod. apply Z.mod_pow2_bits_low. lia.
Qed.

(** A value below 2^w has no bit in common with the mask [-2^w], so
    or-ing the mask in subtracts 2^w. *)
Lemma lor_high_mask w v : 0 ≤ w → 0 ≤ v < 2 ^ w → Z.lor v (- 2 ^ w) = v - 2 ^ w.
Proof.
  intros Hw Hv.
  assert (Hland : Z.land v (- 2 ^ w) = 0).
  { apply Z.bits_inj'. intros i Hi. rewrite Z.land_spec, Z.bits_0.
    destruct (Z_lt_dec i w) as [Hlt|Hge].
    - replace (- 2 ^ w) with (Z.lnot (Z.ones w)).
      + rewrite Z.lnot_spec, Z.ones_spec_low by lia. apply andb_false_r.
      + rewrite Z.ones_equiv. unfold Z.lnot. lia.
    - rewrite <- (Z.mod_small v (2 ^ w)) by done.
      rewrite Z.mod_pow2_bits_high by lia. done. }
  rewrite <- Z.lxor_lor, <- Z.add_nocarry_lxor by done. lia.
Qed.

Lemma land_pow2_testbit v k : 0 ≤ k → (Z.land v (2 ^ k) =? 0) = negb (Z.testbit v k).
Proof.
  intros Hk.
  destruct (Z.testbit v k) eqn:Hb; simpl.
  - apply Z.eqb_neq. intros Heq.
    assert (Z.testbit (Z.land v (2 ^ k)) k = false) as Hc by (rewrite Heq; apply Z.bits_0).
    rewrite Z.land_spec, Hb, Z.pow2_bits_true in Hc by lia. done.
  - apply Z.eqb_eq. apply Z.bits_inj'. intros i Hi.
    rewrite Z.land_spec, Z.bits_0.
    destruct (Z.eq_dec i k) as [->|Hne].
    + rewrite Hb. done.
    + rewrite Z.pow2_bits_false by lia. apply andb_false_r.
Qed.

Lemma testbit_top v w : 0 < w → 0 ≤ v < 2 ^ w → Z.testbit v (w - 1) = negb (v <? 2 ^ (w - 1)).
Proof.
  intros Hw Hv.
  assert (2 ^ w = 2 * 2 ^ (w - 1)) as Hpow.
  { rewrite <- Z.pow_succ_r by lia. f_equal. lia. }
  rewrite Z.testbit_eqb by lia.
  destruct (v <? 2 ^ (w - 1)) eqn:Hlt; simpl.
  - apply Z.ltb_lt in Hlt. rewrite Z.div_small by lia. done.
  - apply Z.ltb_ge in Hlt.
    replace (v / 2 ^ (w - 1)) with 1; [done|].
    apply Z.div_unique with (r := v - 2 ^ (w - 1)); lia.
Qed.

(** The shape shared by the nine helpers: test the sign bit [2^(w-1)],
    or in the mask [2^32 - 2^w]. *)
Lemma signExtend_generic w v :
  0 < w < 32 → 0 ≤ v < 2 ^ w →
  (if negb (JS.and v (2 ^ (w - 1)) =? 0) then JNum (JS.or v (2 ^ 32 - 2 ^ w)) else JNum v)
  = JNum (twos_complement w v).
Proof.
  intros Hw Hv.
  assert (2 ^ w ≤ 2 ^ 31) as Hle by (apply Z.pow_le_mono_r; lia).
  assert (0 < 2 ^ (w - 1) < 2 ^ 31) as Hsb.
  { split; [apply Z.pow_pos_nonneg; lia|apply Z.pow_lt_mono_r; lia]. }
  assert (0 < 2 ^ w) as Hpos by (apply Z.pow_pos_nonneg; lia).
  unfold JS.and, JS.or, twos_complement.
  rewrite !(ToInt32_small v), (ToInt32_small (2 ^ (w - 1))) by lia.
  rewrite land_pow2_testbit, negb_involutive, testbit_top by lia.
  destruct (v <? 2 ^ (w - 1)); simpl; [done|].
  f_equal.
  replace (JS.ToInt32 (2 ^ 32 - 2 ^ w)) with (- 2 ^ w).
  - apply lor_high_mask; lia.
  - unfold JS.ToInt32. cbv zeta.
    rewrite Z.mod_small by lia.
    case_match; [apply Z.ltb_lt in H|]; lia.
Qed.

End JSFacts.

(** C2. Every sign-extension helper (widths 2, 4, 5, 6, 7, 8, 14, 16 and
    24), applied to a value [v] with [0 ≤ v < 2^w], returns the
    two's-complement reading of the [w]-bit pattern of [v], which is a
    signed 32-bit integer. *)
Theorem signExtend_twos_complement (w : Z) (f : jsval → jsval) (v : Z) :
  signExtend_w w = Some f →
  0 ≤ v < 2 ^ w →
  f (JNum v) = JNum (twos_complement w v)
  ∧ - 2 ^ 31 ≤ twos_complement w v < 2 ^ 31.
Proof.
  intros Hf Hv.
  assert (Hw : w = 2 ∨ w = 4 ∨ w = 5 ∨ w = 6 ∨ w = 7 ∨ w = 8 ∨ w = 14 ∨ w = 16 ∨ w = 24).
  { unfold signExtend_w in Hf. repeat case_match; first [discriminate Hf|lia]. }
  assert (0 < w < 32) as Hw32 by lia.
  split.
  - pose proof (signExtend_generic w v Hw32 Hv) as Hgen.
    destruct_or!; subst w; cbv [signExtend_w] in Hf; simplify_eq; exact Hgen.
  - assert (2 ^ w ≤ 2 ^ 31) by (apply Z.pow_le_mono_r; lia).
    assert (0 < 2 ^ (w - 1)) by (apply Z.pow_pos_nonneg; lia).
    unfold twos_complement. case_match; lia.
Qed.

Lemma signExtend_twos_complement_witness :
  signExtend14Bit (JNum 0x3fff) = JNum (twos_complement 14 0x3fff)
  ∧ - 2 ^ 31 ≤ twos_complement 14 0x3fff < 2 ^ 31.
Proof. apply (signExtend_twos_complement 14 signExtend14Bit 0x3fff); [reflexivity|lia]. Defined.
(** ** Variable-byte integers *)

Section VariableByte.

Lemma ToUint32_land x : JS.ToUint32 x = Z.land x (Z.ones 32).
Proof. unfold JS.ToUint32. by rewrite Z.land_ones. Qed.

Lemma ToUint32_testbit x i :
  0 ≤ i → Z.testbit (JS.ToUint32 x) i = Z.testbit x i && bool_decide (i < 32).
Proof.
  intros Hi. rewrite ToUint32_land, Z.land_spec, Z.testbit_ones_nonneg by lia.
  f_equal. case_bool_decide; [by apply Z.ltb_lt|by apply Z.ltb_ge; lia].
Qed.

Lemma ToUint32_ToInt32 x : JS.ToUint32 (JS.ToInt32 x) = JS.ToUint32 x.
Proof. apply ToInt32_mod. Qed.

Lemma ToUint32_small x : 0 ≤ x < 2 ^ 32 → JS.ToUint32 x = x.
Proof. intros. unfold JS.ToUint32. by apply Z.mod_small. Qed.

Lemma ToUint32_lor a b : JS.ToUint32 (Z.lor a b) = Z.lor (JS.ToUint32 a) (JS.ToUint32 b).
Proof. rewrite !ToUint32_land. apply Z.land_lor_distr_l. Qed.

Lemma shift_count_small n : 0 ≤ n < 32 → JS.shift_count n = n.
Proof.
  intros Hn. unfold JS.shift_count. rewrite ToUint32_small by lia.
  by apply Z.mod_small.
Qed.

Lemma ToUint32_or a b : JS.ToUint32 (JS.or a b) = Z.lor (JS.ToUint32 a) (JS.ToUint32 b).
Proof. unfold JS.or. by rewrite ToUint32_lor, !ToUint32_ToInt32. Qed.

Lemma ToUint32_shl a n :
  0 ≤ n < 32 → JS.ToUint32 (JS.shl a n) = JS.ToUint32 (Z.shiftl a n).
Proof.
  intros Hn. unfold JS.shl. rewrite ToUint32_ToInt32, shift_count_small by done.
  apply Z.bits_inj'. intros i Hi.
  rewrite !ToUint32_testbit, !Z.shiftl_spec by lia.
  case_bool_decide; [|by rewrite !andb_false_r].
  destruct (Z_lt_dec (i - n) 0) as [Hneg|Hpos].
  - by rewrite !Z.testbit_neg_r by lia.
  - by rewrite ToInt32_testbit by lia.
Qed.

(** Masking off the continuation bit of a byte. *)
Lemma and_not_0x80 b : 0 ≤ b < 256 → JS.and b (JS.not 0x80) = Z.land b 0x7f.
Proof.
  intros Hb. unfold JS.and, JS.not.
  rewrite (ToInt32_small b), (ToInt32_small 0x80) by lia.
  change (Z.lnot 0x80) with (-129). rewrite (ToInt32_small (-129)) by lia.
  apply Z.bits_inj'. intros i Hi. rewrite !Z.land_spec.
  destruct (Z_lt_dec i 7) as [Hlt|Hge].
  - f_equal. change (-129) with (Z.lnot 128). change 0x7f with (Z.ones 7).
    rewrite Z.lnot_spec, Z.ones_spec_low by lia.
    change 128 with (2 ^ 7). rewrite Z.pow2_bits_false by lia. done.
  - change 0x7f with (Z.ones 7). rewrite Z.ones_spec_high, andb_false_r by lia.
    destruct (Z.eq_dec i 7) as [->|Hne].
    + change (-129) with (Z.lnot (2 ^ 7)).
      rewrite Z.lnot_spec, Z.pow2_bits_true by lia. apply andb_false_r.
    + rewrite <- (Z.mod_small b (2 ^ 8)) by lia.
      rewrite Z.mod_pow2_bits_high by lia. done.
Qed.

Lemma land_0x7f_small u : 0 ≤ u < 128 → Z.land u 0x7f = u.
Proof.
  intros Hu. change 0x7f with (Z.ones 7). rewrite Z.land_ones by lia.
  apply Z.mod_small. lia.
Qed.

Lemma continuation_byte_range u : 128 ≤ Z.lor (Z.land u 0x7f) 0x80 < 256.
Proof.
  assert (0 ≤ Z.land u 0x7f < 128) as Hlow.
  { change 0x7f with (Z.ones 7). rewrite Z.land_ones by lia.
    apply Z.mod_pos_bound. lia. }
  assert (Z.land (Z.land u 0x7f) 0x80 = 0) as Hdisj.
  { rewrite <- Z.land_assoc. change (Z.land 0x7f 0x80) with 0. apply Z.land_0_r. }
  rewrite <- Z.lxor_lor, <- Z.add_nocarry_lxor by done. lia.
Qed.

Lemma continuation_byte_data u :
  Z.land (Z.lor (Z.land u 0x7f) 0x80) 0x7f = Z.land u 0x7f.
Proof.
  rewrite Z.land_lor_distr_l, <- Z.land_assoc.
  change (Z.land 0x7f 0x7f) with 0x7f. change (Z.land 0x80 0x7f) with 0.
  apply Z.lor_0_r.
Qed.

(** Splitting off the low seven bits of [u] at bit position [shift]. *)
Lemma shiftl_split7 u shift :
  0 ≤ shift →
  Z.lor (Z.shiftl (Z.land u 0x7f) shift) (Z.shiftl (Z.shiftr u 7) (shift + 7))
  = Z.shiftl u shift.
Proof.
  intros Hs. apply Z.bits_inj'. intros i Hi.
  rewrite Z.lor_spec, !Z.shiftl_spec by lia.
  destruct (Z_lt_dec (i - shift) 0) as [Hneg|Hpos].
  - by rewrite !Z.testbit_neg_r by lia.
  - change 0x7f with (Z.ones 7). rewrite Z.land_spec.
    destruct (Z_lt_dec (i - shift) 7) as [Hlt|Hge].
    + rewrite Z.ones_spec_low, andb_true_r by lia.
      rewrite (Z.testbit_neg_r _ (i - (shift + 7))) by lia. apply orb_false_r.
    + rewrite Z.ones_spec_high, andb_false_r by lia. simpl.
      rewrite Z.shiftr_spec by lia. f_equal. lia.
Qed.

Lemma bytes_at_cons s b l :
  bytes_at s (b :: l) →
  readByte s = (JNum b, set_pos s (pos s + 1)) ∧ bytes_at (set_pos s (pos s + 1)) l.
Proof.
  intros [Hlen Hat]. simpl in Hlen. split.
  - unfold readByte. replace (pos s <? end_ s) with true by (symmetry; apply Z.ltb_lt; lia).
    f_equal. specialize (Hat 0%nat b eq_refl). by rewrite Z.add_0_r in Hat.
  - split; simpl; [lia|].
    intros k c Hk. specialize (Hat (S k) c Hk).
    rewrite <- Hat. f_equal. lia.
Qed.

Lemma encodeVB_bytes_length n u :
  0 ≤ u < 2 ^ (7 * Z.of_nat (S n)) → (1 ≤ length (encodeVB_bytes (S n) u) ≤ S n)%nat.
Proof.
  revert u. induction n as [|n IH]; intros u Hu.
  - simpl. replace (u <? 128) with true; [simpl; lia|].
    symmetry. apply Z.ltb_lt. change (2 ^ (7 * Z.of_nat 1)) with 128 in Hu. lia.
  - cbn [encodeVB_bytes]. destruct (u <? 128) eqn:Hlt; [simpl; lia|].
    cbn [length]. 
    assert (0 ≤ Z.shiftr u 7 < 2 ^ (7 * Z.of_nat (S n))) as Hsh.
    { rewrite Z.shiftr_div_pow2 by lia. split; [apply Z.div_pos; lia|].
      apply Z.div_lt_upper_bound; [lia|].
      rewrite <- Z.pow_add_r by lia.
      replace (7 + 7 * Z.of_nat (S n)) with (7 * Z.of_nat (S (S n))) by lia. lia. }
    specialize (IH _ Hsh). cbn [encodeVB_bytes] in IH. lia.
Qed.

Lemma readUnsignedVB_loop_S n shift r s :
  readUnsignedVB_loop (S n) shift r s =
  let b := (readByte s).1 in
  let s' := (readByte s).2 in
  if loose_eq b (JNum EOF) then (0, s')
  else
    let result := JS.or r (JS.shl (JS.and (num_of b) (JS.not 0x80)) shift) in
    if js_lt b 128 then (JS.shr result 0, s')
    else readUnsignedVB_loop n (shift + 7) result s'.
Proof. cbn [readUnsignedVB_loop]. unfold bind, ret. cbv zeta. repeat case_match; done. Qed.

(** Decoding what the encoder produced: the loop ors [u], shifted to
    its position and cut to 32 bits, into the accumulator. *)
Lemma readUnsignedVB_loop_encode n : ∀ u shift r s,
  0 ≤ u < 2 ^ (7 * Z.of_nat (S n)) →
  0 ≤ shift → shift + 7 * Z.of_nat n < 32 →
  bytes_at s (encodeVB_bytes (S n) u) →
  readUnsignedVB_loop (S n) shift r s
  = (Z.lor (JS.ToUint32 r) (JS.ToUint32 (Z.shiftl u shift)),
     set_pos s (pos s + Z.of_nat (length (encodeVB_bytes (S n) u)))).
Proof.
  induction n as [|n IH]; intros u shift r s Hu Hs Hs32 Hbytes.
  - change (2 ^ (7 * Z.of_nat 1)) with 128 in Hu.
    cbn [encodeVB_bytes] in *.
    replace (u <? 128) with true in * by (symmetry; apply Z.ltb_lt; lia).
    apply bytes_at_cons in Hbytes as [Hread _].
    rewrite readUnsignedVB_loop_S, Hread. cbn [fst snd loose_eq js_lt num_of]. cbv zeta.
    replace (u =? EOF) with false by (symmetry; apply Z.eqb_neq; unfold EOF; lia).
    replace (u <? 128) with true by (symmetry; apply Z.ltb_lt; lia).
    f_equal.
    unfold JS.shr. rewrite shift_count_small, Z.shiftr_0_r by lia.
    rewrite ToUint32_or, ToUint32_shl, and_not_0x80, land_0x7f_small by lia. done.
  - cbn [encodeVB_bytes] in *.
    destruct (u <? 128) eqn:Hlt.
    + apply Z.ltb_lt in Hlt.
      apply bytes_at_cons in Hbytes as [Hread _].
      rewrite readUnsignedVB_loop_S, Hread. cbn [fst snd loose_eq js_lt num_of]. cbv zeta.
      replace (u =? EOF) with false by (symmetry; apply Z.eqb_neq; unfold EOF; lia).
      replace (u <? 128) with true by (symmetry; apply Z.ltb_lt; lia).
      f_equal.
      unfold JS.shr. rewrite shift_count_small, Z.shiftr_0_r by lia.
        rewrite ToUint32_or, ToUint32_shl, and_not_0x80, land_0x7f_small by lia. done.
    + apply Z.ltb_ge in Hlt.
      pose proof (continuation_byte_range u) as Hb.
      apply bytes_at_cons in Hbytes as [Hread Hrest].
      assert (0 ≤ Z.shiftr u 7 < 2 ^ (7 * Z.of_nat (S n))) as Hsh.
      { rewrite Z.shiftr_div_pow2 by lia. split; [apply Z.div_pos; lia|].
        apply Z.div_lt_upper_bound; [lia|].
        rewrite <- Z.pow_add_r by lia.
        replace (7 + 7 * Z.of_nat (S n)) with (7 * Z.of_nat (S (S n))) by lia. lia. }
      rewrite readUnsignedVB_loop_S, Hread. cbn [fst snd loose_eq js_lt num_of]. cbv zeta.
      replace (_ =? EOF) with false by (symmetry; apply Z.eqb_neq; unfold EOF; lia).
      replace (_ <? 128) with false by (symmetry; apply Z.ltb_ge; lia).
      rewrite (IH _ _ _ _ Hsh) by (done || lia).
      f_equal.
      * rewrite ToUint32_or, ToUint32_shl, and_not_0x80, continuation_byte_data by lia.
        rewrite <- Z.lor_assoc, <- ToUint32_lor, shiftl_split7 by lia. done.
      * cbn [length set_pos pos]. f_equal. lia.
Qed.

Lemma bytes_at_new l rest : bytes_at (new_ArrayDataStream (l ++ rest) None None) l.
Proof.
  split; cbn.
  - rewrite length_app. lia.
  - intros k b Hk. unfold data_at.
    replace (0 + Z.of_nat k <? 0) with false by (symmetry; apply Z.ltb_ge; lia).
    replace (Z.to_nat (0 + Z.of_nat k)) with k by lia.
    by rewrite (lookup_app_l_Some _ _ _ _ Hk).
Qed.

Lemma encodeZigZag_nonneg x : 0 ≤ x < 2 ^ 31 → encodeZigZag x = 2 * x.
Proof.
  intros Hx. unfold encodeZigZag.
  rewrite Z.shiftr_div_pow2, Z.div_small, Z.lxor_0_r, Z.shiftl_mul_pow2 by lia.
  rewrite ToUint32_small; lia.
Qed.

Lemma encodeZigZag_neg x : - 2 ^ 31 ≤ x < 0 → encodeZigZag x = - 2 * x - 1.
Proof.
  intros Hx. unfold encodeZigZag.
  replace (Z.shiftr x 31) with (-1).
  - rewrite Z.lxor_m1_r, Z.shiftl_mul_pow2 by lia. unfold Z.lnot.
    rewrite ToUint32_small; lia.
  - rewrite Z.shiftr_div_pow2 by lia.
    apply Z.div_unique with (r := x + 2 ^ 31); lia.
Qed.

Lemma and_1_parity z : JS.and z 1 = z mod 2.
Proof.
  unfold JS.and. rewrite (ToInt32_small 1) by lia.
  change 1 with (Z.ones 1) at 1. rewrite Z.land_ones by lia. change (2 ^ 1) with 2.
  unfold JS.ToInt32. cbv zeta. case_match; Z.div_mod_to_equations; lia.
Qed.

Lemma shr_1_half z : 0 ≤ z < 2 ^ 32 → JS.shr z 1 = z `div` 2.
Proof.
  intros Hz. unfold JS.shr.
  rewrite shift_count_small, ToUint32_small, Z.shiftr_div_pow2 by lia. done.
Qed.

Lemma zigzag_decode x :
  - 2 ^ 31 ≤ x < 2 ^ 31 →
  0 ≤ encodeZigZag x < 2 ^ 32
  ∧ JS.xor (JS.shr (encodeZigZag x) 1) (- JS.and (encodeZigZag x) 1) = x.
Proof.
  intros Hx. destruct (Z_lt_dec x 0) as [Hneg|Hpos].
  - rewrite encodeZigZag_neg by lia. split; [lia|].
    rewrite shr_1_half, and_1_parity by lia.
    replace ((- 2 * x - 1) mod 2) with 1 by (Z.div_mod_to_equations; lia).
    replace ((- 2 * x - 1) `div` 2) with (- x - 1) by (Z.div_mod_to_equations; lia).
    unfold JS.xor. rewrite !ToInt32_small by lia.
    rewrite Z.lxor_m1_r. unfold Z.lnot. lia.
  - rewrite encodeZigZag_nonneg by lia. split; [lia|].
    rewrite shr_1_half, and_1_parity by lia.
    replace ((2 * x) mod 2) with 0 by (Z.div_mod_to_equations; lia).
    replace ((2 * x) `div` 2) with x by (Z.div_mod_to_equations; lia).
    unfold JS.xor. rewrite !ToInt32_small by lia.
    apply Z.lxor_0_r.
Qed.

Lemma readUnsignedVB_encodeVB u s :
  0 ≤ u < 2 ^ 32 → bytes_at s (encodeVB u) →
  readUnsignedVB s = (u, set_pos s (pos s + Z.of_nat (length (encodeVB u)))).
Proof.
  intros Hu Hbytes. unfold readUnsignedVB, encodeVB in *.
  rewrite (readUnsignedVB_loop_encode 4 u 0 0 s) by (done || lia).
  f_equal. rewrite Z.shiftl_0_r, (ToUint32_small u), (ToUint32_small 0) by lia. done.
Qed.

Lemma readUnsignedVB_loop_malformed n : ∀ k shift r s,
  continuations_at s k →
  ((k < n)%nat ∧ end_ s ≤ pos s + Z.of_nat k) ∨ k = n →
  readUnsignedVB_loop n shift r s
  = (0, if bool_decide (k < n)%nat
        then set_eof (set_pos s (pos s + Z.of_nat k)) true
        else set_pos s (pos s + Z.of_nat k)).
Proof.
  induction n as [|n IH]; intros k shift r s Hcont Hk.
  - assert (k = 0%nat) as -> by lia. case_bool_decide; [lia|].
    destruct s as [d st en ef p]. unfold set_pos. cbn. do 2 f_equal. lia.
  - rewrite readUnsignedVB_loop_S. cbv zeta. destruct k as [|k].
    + destruct Hk as [[_ Hend]|Hk]; [|done].
      unfold readByte. replace (pos s <? end_ s) with false by (symmetry; apply Z.ltb_ge; lia).
      case_bool_decide; [|lia].
      destruct s as [d st en ef p]. unfold set_eof, set_pos. cbn. do 2 f_equal. lia.
    + destruct (Hcont 0%nat ltac:(lia)) as [Hin (b & Hb & Hrange)].
      rewrite Z.add_0_r in Hin, Hb.
      unfold readByte. replace (pos s <? end_ s) with true by (symmetry; apply Z.ltb_lt; lia).
      rewrite Hb. cbn [fst snd loose_eq js_lt].
      replace (b =? EOF) with false by (symmetry; apply Z.eqb_neq; unfold EOF; lia).
      replace (b <? 128) with false by (symmetry; apply Z.ltb_ge; lia).
      rewrite (IH k).
      * destruct s as [d st en ef p]; unfold set_eof, set_pos; cbn.
        repeat case_bool_decide; try lia; do 2 f_equal; lia.
      * intros j Hj. destruct (Hcont (S j) ltac:(lia)) as [Hin' Hc'].
        cbn. replace (pos s + 1 + Z.of_nat j) with (pos s + Z.of_nat (S j)) by lia. done.
      * cbn. lia.
Qed.

End VariableByte.

(** C1. Decoding the reference variable-byte encoding of an unsigned
    32-bit integer [u] with [readUnsignedVB] yields [u], and
    [readSignedVB] applied to the encoding of the ZigZag image of a
    signed 32-bit integer [x] yields [x]; the encoding has at most five
    bytes and the stream ends up just behind it. *)
Theorem VB_round_trip (u x : Z) (s1 s2 : ArrayDataStream) :
  0 ≤ u < 2 ^ 32 →
  - 2 ^ 31 ≤ x < 2 ^ 31 →
  bytes_at s1 (encodeVB u) →
  bytes_at s2 (encodeVB (encodeZigZag x)) →
  (length (encodeVB u) ≤ 5)%nat
  ∧ readUnsignedVB s1 = (u, set_pos s1 (pos s1 + Z.of_nat (length (encodeVB u))))
  ∧ readSignedVB s2
    = (x, set_pos s2 (pos s2 + Z.of_nat (length (encodeVB (encodeZigZag x))))).
Proof.
  intros Hu Hx H1 H2. split; [|split].
  - apply (encodeVB_bytes_length 4 u). change (2 ^ (7 * Z.of_nat 5)) with (2 ^ 35). lia.
  - by apply readUnsignedVB_encodeVB.
  - destruct (zigzag_decode x Hx) as [Hz Hdec].
    unfold readSignedVB, bind, ret.
    rewrite (readUnsignedVB_encodeVB _ _ Hz H2). cbn [fst snd]. by rewrite Hdec.
Qed.

Lemma VB_round_trip_witness :
  let s1 := new_ArrayDataStream (encodeVB 0xfffffffe ++ []) None None in
  let s2 := new_ArrayDataStream (encodeVB (encodeZigZag (-300)) ++ []) None None in
  (0 ≤ 0xfffffffe < 2 ^ 32)
  ∧ (- 2 ^ 31 ≤ -300 < 2 ^ 31)
  ∧ bytes_at s1 (encodeVB 0xfffffffe)
  ∧ bytes_at s2 (encodeVB (encodeZigZag (-300)))
  ∧ readUnsignedVB s1 = (0xfffffffe, set_pos s1 5)
  ∧ readSignedVB s2 = (-300, set_pos s2 2).
Proof.
  intros s1 s2.
  assert (bytes_at s1 (encodeVB 0xfffffffe)) as H1 by apply bytes_at_new.
  assert (bytes_at s2 (encodeVB (encodeZigZag (-300)))) as H2 by apply bytes_at_new.
  pose proof (VB_round_trip 0xfffffffe (-300) s1 s2 ltac:(lia) ltac:(lia) H1 H2)
    as (_ & Hu & Hs).
  split; [lia|]. split; [lia|]. split; [exact H1|]. split; [exact H2|].
  split; [exact Hu|exact Hs].
Defined.

(** C3. A variable-byte integer that is cut short by the end of the
    data, or that has five bytes which all carry the continuation bit,
    decodes to 0; the stream has consumed exactly the continuation
    bytes (five in the second case), and the end-of-file flag is raised
    only in the first case. *)
Theorem readUnsignedVB_malformed (s : ArrayDataStream) (k : nat) :
  continuations_at s k →
  ((k < 5)%nat ∧ end_ s ≤ pos s + Z.of_nat k) ∨ k = 5%nat →
  (readUnsignedVB s).1 = 0
  ∧ pos (readUnsignedVB s).2 = pos s + Z.of_nat k
  ∧ eof (readUnsignedVB s).2 = (if bool_decide (k = 5%nat) then eof s else true).
Proof.
  intros Hcont Hk. unfold readUnsignedVB.
  rewrite (readUnsignedVB_loop_malformed 5 k 0 0 s Hcont Hk).
  repeat case_bool_decide; try lia; cbn; done.
Qed.

Lemma readUnsignedVB_malformed_witness :
  let s := new_ArrayDataStream [0x80; 0xff; 0x81; 0x90; 0xf0; 0x01] None None in
  continuations_at s 5
  ∧ (readUnsignedVB s).1 = 0
  ∧ pos (readUnsignedVB s).2 = 0 + Z.of_nat 5
  ∧ eof (readUnsignedVB s).2 = false.
Proof.
  intros s.
  assert (continuations_at s 5) as Hc.
  { intros j Hj. cbn.
    destruct j as [|[|[|[|[|j]]]]]; try lia; cbn;
      (split; [lia|eexists; split; [reflexivity|lia]]). }
  split; [exact Hc|].
  apply (readUnsignedVB_malformed s 5 Hc). right. reflexivity.
Defined.

(** ** Marker search *)

Section MarkerSearch.

Variable d : list Z.
Variable marker : list Z.

Lemma loose_eq_JNum v c : loose_eq v (JNum c) = true ↔ v = JNum c.
Proof.
  destruct v as [z|]; simpl; [|by split].
  rewrite Z.eqb_eq. split; [by intros ->|by intros [= ->]].
Qed.

Lemma match_rest_bounds i rest : ∀ j, j ≤ match_rest d i j rest ≤ j + Z.of_nat (length rest).
Proof.
  induction rest as [|c rest IH]; intros j; simpl; [lia|].
  case_match; [specialize (IH (j + 1))|]; lia.
Qed.

Lemma match_rest_full i rest : ∀ j,
  match_rest d i j rest = j + Z.of_nat (length rest)
  ↔ ∀ (k : nat) c, rest !! k = Some c → data_at d (i + j + Z.of_nat k) = JNum c.
Proof.
  induction rest as [|c rest IH]; intros j; simpl.
  - split; [intros _ k c' Hk; by rewrite lookup_nil in Hk|lia].
  - destruct (loose_eq (data_at d (i + j)) (JNum c)) eqn:Heq.
    + apply loose_eq_JNum in Heq.
      replace (j + Z.of_nat (S (length rest))) with (j + 1 + Z.of_nat (length rest)) by lia.
      rewrite IH. split.
      * intros H [|k] c' Hk; simpl in Hk.
        -- injection Hk as <-. by rewrite Z.add_0_r.
        -- rewrite <- (H k c' Hk). f_equal. lia.
      * intros H k c' Hk. rewrite <- (H (S k) c' Hk). f_equal. lia.
    + split; [lia|].
      intros H. specialize (H 0%nat c eq_refl). rewrite Z.add_0_r in H.
      apply loose_eq_JNum in H. congruence.
Qed.

(** The test the outer loop of [nextOffsetOf] makes at offset [i]. *)
Lemma nextOffsetOf_test i :
  marker ≠ [] →
  loose_eq (data_at d i) (needle_at marker 0)
  && (match_rest d i 1 (tail marker) =? Z.of_nat (length marker)) = true
  ↔ occurs_at d marker i.
Proof.
  intros Hne. destruct marker as [|c rest]; [done|]. clear Hne.
  cbn [needle_at lookup list_lookup tail length].
  rewrite andb_true_iff, loose_eq_JNum, Z.eqb_eq.
  replace (Z.of_nat (S (length rest))) with (1 + Z.of_nat (length rest)) by lia.
  rewrite match_rest_full. unfold occurs_at. split.
  - intros [H0 H] [|k] c' Hk; simpl in Hk.
    + injection Hk as <-. by rewrite Z.add_0_r.
    + rewrite <- (H k c' Hk). f_equal. lia.
  - intros H. split.
    + specialize (H 0%nat c eq_refl). by rewrite Z.add_0_r in H.
    + intros k c' Hk. rewrite <- (H (S k) c' Hk). f_equal. lia.
Qed.

Lemma occurs_at_nonneg i : marker ≠ [] → occurs_at d marker i → 0 ≤ i.
Proof.
  intros Hne Hocc. destruct marker as [|c rest]; [done|].
  specialize (Hocc 0%nat c eq_refl). rewrite Z.add_0_r in Hocc.
  unfold data_at in Hocc. destruct (i <? 0) eqn:Hi; [done|]. by apply Z.ltb_ge in Hi.
Qed.

(** The outer loop returns the first occurrence at or after [i] that
    fits in front of [en], or -1 when there is none. *)
Lemma nextOffsetOf_loop_spec en : ∀ fuel i,
  marker ≠ [] →
  en - Z.of_nat (length marker) - i + 1 ≤ Z.of_nat fuel →
  let r := nextOffsetOf_loop fuel d en marker i in
  (r = -1 ∧ ∀ k, i ≤ k ≤ en - Z.of_nat (length marker) → ¬ occurs_at d marker k)
  ∨ (i ≤ r ≤ en - Z.of_nat (length marker) ∧ occurs_at d marker r
     ∧ ∀ k, i ≤ k < r → ¬ occurs_at d marker k).
Proof.
  induction fuel as [|fuel IH]; intros i Hne Hfuel; cbn [nextOffsetOf_loop].
  - left. split; [done|]. intros k Hk. lia.
  - destruct (i <=? en - Z.of_nat (length marker)) eqn:Hguard.
    + apply Z.leb_le in Hguard.
      destruct (loose_eq _ _ && _) eqn:Htest.
      * right. apply nextOffsetOf_test in Htest; [|done].
        split; [lia|]. split; [done|]. intros k Hk. lia.
      * assert (¬ occurs_at d marker i) as Hno.
        { intros Hocc. apply nextOffsetOf_test in Hocc; [|done]. congruence. }
        destruct (IH (i + 1) Hne ltac:(lia)) as [[Hr Hnone]|(Hr & Hocc & Hnone)].
        -- left. split; [done|]. intros k Hk.
           destruct (Z.eq_dec k i) as [->|Hki]; [done|]. apply Hnone. lia.
        -- right. split; [lia|]. split; [done|]. intros k Hk.
           destruct (Z.eq_dec k i) as [->|Hki]; [done|]. apply Hnone. lia.
    + apply Z.leb_gt in Hguard. left. split; [done|]. intros k Hk. lia.
Qed.

Lemma nextOffsetOf_loop_empty en : ∀ fuel i, nextOffsetOf_loop fuel d en [] i = -1.
Proof.
  induction fuel as [|fuel IH]; intros i; cbn [nextOffsetOf_loop]; [done|].
  case_match; [|done]. cbn. rewrite andb_false_r. apply IH.
Qed.

Lemma scan_from_occurs en : ∀ found p,
  scan_from d marker en p found →
  ∀ i, i ∈ found → p ≤ i ≤ en - Z.of_nat (length marker) ∧ occurs_at d marker i.
Proof.
  induction found as [|r found IH]; intros p Hscan i Hi.
  - by apply elem_of_nil in Hi.
  - destruct Hscan as (Hr & Hocc & _ & Hrest).
    apply elem_of_cons in Hi as [->|Hi]; [done|].
    destruct (IH _ Hrest i Hi) as [Hbound Hocc']. split; [lia|done].
Qed.

Lemma scan_from_sorted en : ∀ found p,
  marker ≠ [] →
  scan_from d marker en p found →
  StronglySorted Z.lt (found ++ [en]).
Proof.
  intros found p Hne. assert (0 < Z.of_nat (length marker)) as Hlen.
  { destruct marker; [done|]. simpl. lia. }
  revert p. induction found as [|r found IH]; intros p Hscan; simpl.
  - repeat constructor.
  - destruct Hscan as (Hr & Hocc & _ & Hrest).
    constructor; [by eapply IH|].
    apply Forall_app. split.
    + apply Forall_forall. intros i Hi.
      destruct (scan_from_occurs en _ _ Hrest i Hi) as [Hbound _]. lia.
    + repeat constructor. lia.
Qed.

Lemma scan_from_complete en : ∀ found p,
  scan_from d marker en p found →
  ∀ i, p ≤ i ≤ en - Z.of_nat (length marker) → occurs_at d marker i →
  i ∈ found ∨ ∃ r, r ∈ found ∧ r < i < r + Z.of_nat (length marker).
Proof.
  induction found as [|r found IH]; intros p Hscan i Hi Hocc.
  - exfalso. by apply (Hscan i).
  - destruct Hscan as (Hr & Hoccr & Hfirst & Hrest).
    destruct (Z_lt_dec i r) as [Hlt|Hge]; [exfalso; apply (Hfirst i); [lia|done]|].
    destruct (Z.eq_dec i r) as [->|Hne]; [left; apply elem_of_cons; by left|].
    destruct (Z_lt_dec i (r + Z.of_nat (length marker))) as [Hin|Hout].
    + right. exists r. split; [apply elem_of_cons; by left|lia].
    + destruct (IH _ Hrest i ltac:(lia) Hocc) as [Hfound|(r' & Hr' & Hov)].
      * left. apply elem_of_cons. by right.
      * right. exists r'. split; [apply elem_of_cons; by right|done].
Qed.

(** Two offsets the scan reports one after the other are at least the
    length of the marker apart, and the last one leaves room for the
    marker in front of [en]. *)
Lemma scan_from_apart en : ∀ found p,
  scan_from d marker en p found →
  ∀ (k : nat) a b, found !! k = Some a → (found ++ [en]) !! S k = Some b →
    a + Z.of_nat (length marker) ≤ b.
Proof.
  induction found as [|r found IH]; intros p Hscan k a b Ha Hb; [done|].
  destruct Hscan as (Hr & _ & _ & Hrest).
  destruct k as [|k]; cbn in Ha, Hb.
  - injection Ha as <-. destruct found as [|r' found]; cbn in Hb.
    + injection Hb as <-. lia.
    + injection Hb as <-. destruct Hrest as (Hr' & _). lia.
  - by eapply IH.
Qed.

(** The scan reports one list of offsets only. *)
Lemma scan_from_unique en : ∀ found found' p,
  scan_from d marker en p found → scan_from d marker en p found' → found' = found.
Proof.
  induction found as [|r found IH]; intros [|r' found'] p Hscan Hscan'; [done| | |].
  - destruct Hscan' as (Hr' & Hocc' & _). exfalso. by apply (Hscan r').
  - destruct Hscan as (Hr & Hocc & _). exfalso. by apply (Hscan' r).
  - destruct Hscan as (Hr & Hocc & Hfirst & Hrest).
    destruct Hscan' as (Hr' & Hocc' & Hfirst' & Hrest').
    assert (r' = r) as ->.
    { destruct (Z_lt_dec r r') as [Hlt|Hge].
      - exfalso. apply (Hfirst' r); [lia|done].
      - destruct (Z_lt_dec r' r) as [Hlt|Hge']; [|lia].
        exfalso. apply (Hfirst r'); [lia|done]. }
    f_equal. by eapply IH.
Qed.

End MarkerSearch.

Lemma allIndicesOf_loop_spec (marker : list Z) : ∀ fuel indices s,
  marker ≠ [] →
  Z.max 0 (end_ s - pos s) < Z.of_nat fuel →
  ∃ found s',
    allIndicesOf_loop fuel marker indices s = Some (indices ++ found ++ [end_ s], s')
    ∧ scan_from (data s) marker (end_ s) (pos s) found
    ∧ data s' = data s ∧ start s' = start s ∧ end_ s' = end_ s ∧ eof s' = eof s
    ∧ pos s ≤ pos s' ∧ (pos s ≤ end_ s → pos s' ≤ end_ s).
Proof.
  intros fuel indices s Hne. revert indices s.
  assert (0 < Z.of_nat (length marker)) as Hlen.
  { destruct marker; [done|]. simpl. lia. }
  induction fuel as [|fuel IH]; intros indices s Hfuel; [lia|].
  cbn [allIndicesOf_loop nextOffsetOf fst].
  pose proof (nextOffsetOf_loop_spec (data s) marker (end_ s)
                (Z.to_nat (end_ s - Z.of_nat (length marker) - pos s + 1)) (pos s) Hne
                ltac:(lia)) as Hnext.
  cbv zeta in Hnext.
  set (r := nextOffsetOf_loop _ _ _ _ _) in *.
  destruct Hnext as [[Hr Hnone]|(Hr & Hocc & Hfirst)].
  - rewrite Hr. cbn. exists [], s. repeat split; try done; lia.
  - pose proof (occurs_at_nonneg _ _ _ Hne Hocc) as Hpos.
    replace (r =? -1) with false by (symmetry; apply Z.eqb_neq; lia).
    destruct (IH (indices ++ [r]) (set_pos s (r + Z.of_nat (length marker))))
      as (found & s' & Heq & Hscan & Hd & Hst & Hen & Hef & Hp1 & Hp2).
    { cbn. lia. }
    cbn in Heq, Hscan, Hd, Hst, Hen, Hef, Hp1, Hp2.
    exists (r :: found), s'. rewrite Heq, <- app_assoc. cbn.
    repeat split; try done; lia.
Qed.

Lemma allIndicesOf_empty_marker s : allIndicesOf [] s = Some ([end_ s], s).
Proof.
  unfold allIndicesOf. cbn [allIndicesOf_loop nextOffsetOf fst].
  rewrite nextOffsetOf_loop_empty. done.
Qed.

(** C6 (as the code has it). For a non-empty marker, [allIndicesOf]
    returns the offsets found by a left-to-right scan that resumes
    behind the end of each match, followed by the sentinel [end]: the
    result is strictly increasing and its last element is [end]; every
    reported offset is an occurrence in [[pos, end - len(marker)]];
    every occurrence in that range is either reported or overlaps a
    reported one that starts before it; and when no two occurrences
    in the buffer overlap, the reported offsets are exactly the
    occurrences in the range.  The reported offsets are the scan
    [scan_from] describes and no other list: the first is the first
    occurrence from [pos] on, each further one is the first occurrence
    from the end of the match before it on, and the scan stops when no
    occurrence is left; so each reported offset lies at least the
    length of the marker behind the one before it, and the sentinel at
    least that far behind the last. *)
Theorem allIndicesOf_scan (marker : list Z) (s : ArrayDataStream) :
  marker ≠ [] →
  ∃ found s',
    allIndicesOf marker s = Some (found ++ [end_ s], s')
    ∧ StronglySorted Z.lt (found ++ [end_ s])
    ∧ (∀ i, i ∈ found →
         pos s ≤ i ≤ end_ s - Z.of_nat (length marker) ∧ occurs_at (data s) marker i)
    ∧ (∀ i, pos s ≤ i ≤ end_ s - Z.of_nat (length marker) → occurs_at (data s) marker i →
         i ∈ found ∨ ∃ r, r ∈ found ∧ r < i < r + Z.of_nat (length marker))
    ∧ ((∀ i j, occurs_at (data s) marker i → occurs_at (data s) marker j → i < j →
          i + Z.of_nat (length marker) ≤ j) →
       ∀ i, i ∈ found ↔
            pos s ≤ i ≤ end_ s - Z.of_nat (length marker) ∧ occurs_at (data s) marker i)
    ∧ scan_from (data s) marker (end_ s) (pos s) found
    ∧ (∀ found', scan_from (data s) marker (end_ s) (pos s) found' → found' = found)
    ∧ (∀ (k : nat) a b, found !! k = Some a → (found ++ [end_ s]) !! S k = Some b →
         a + Z.of_nat (length marker) ≤ b).
Proof.
  intros Hne.
  destruct (allIndicesOf_loop_spec marker (S (S (Z.to_nat (end_ s - pos s)))) [] s Hne)
    as (found & s' & Heq & Hscan & _); [lia|].
  exists found, s'. split; [exact Heq|].
  split; [by eapply scan_from_sorted|].
  split; [by eapply scan_from_occurs|].
  split; [by eapply scan_from_complete|].
  split.
  { intros Hapart i. split; [by eapply scan_from_occurs|].
    intros [Hi Hocc].
    destruct (scan_from_complete _ _ _ _ _ Hscan i Hi Hocc) as [Hin|(r & Hr & Hov)]; [done|].
    destruct (scan_from_occurs _ _ _ _ _ Hscan r Hr) as [_ Hoccr].
    specialize (Hapart r i Hoccr Hocc). lia. }
  split; [exact Hscan|].
  split; [intros found' Hscan'; by eapply scan_from_unique|].
  by eapply scan_from_apart.
Qed.

Lemma allIndicesOf_scan_witness :
  [7; 9] ≠ []
  ∧ ∃ found s',
      allIndicesOf [7; 9] (new_ArrayDataStream [7; 9; 0; 7; 9; 7] None None)
      = Some (found ++ [6], s')
      ∧ StronglySorted Z.lt (found ++ [6])
      ∧ ∀ (k : nat) a b, found !! k = Some a → (found ++ [6]) !! S k = Some b → a + 2 ≤ b.
Proof.
  split; [done|].
  destruct (allIndicesOf_scan [7; 9] (new_ArrayDataStream [7; 9; 0; 7; 9; 7] None None))
    as (found & s' & Heq & Hsorted & _ & _ & _ & _ & _ & Hapart); [done|].
  exists found, s'. split; [exact Heq|]. split; [exact Hsorted|exact Hapart].
Defined.

(** C6 as stated fails: an occurrence that overlaps an earlier reported
    one is not returned.  In the buffer [1 1 1] the marker [1 1] occurs
    at offsets 0 and 1, and [allIndicesOf] returns [0; 3]. *)
Lemma allIndicesOf_all_occurrences_counterexample :
  ¬ (∀ (marker : list Z) (s : ArrayDataStream), marker ≠ [] →
       ∀ i, pos s ≤ i ≤ end_ s - Z.of_nat (length marker) →
            occurs_at (data s) marker i →
            ∃ l s', allIndicesOf marker s = Some (l, s') ∧ i ∈ l).
Proof.
  intros H.
  destruct (H [1; 1] (new_ArrayDataStream [1; 1; 1] None None) ltac:(done) 1)
    as (l & s' & Heq & Hin).
  - cbn. lia.
  - intros [|[|j]] c Hj; cbn in Hj; try done; by injection Hj as <-.
  - vm_compute in Heq. injection Heq as <- _.
    set_unfold in Hin. lia.
Qed.

(** ** The bounds invariant *)

Section Bounds.

Ltac step_solve := unfold stream_step; cbn; repeat split; first [done|lia].

Lemma stream_step_refl s : stream_step s s.
Proof. step_solve. Qed.

Lemma stream_step_trans s1 s2 s3 : stream_step s1 s2 → stream_step s2 s3 → stream_step s1 s3.
Proof.
  unfold stream_step. intros (? & ? & ? & ? & ?) (? & ? & ? & ? & ?).
  repeat split; first [congruence|lia].
Qed.

Lemma stream_step_inv s s' : stream_step s s' → stream_inv s → stream_inv s'.
Proof.
  unfold stream_step, stream_inv. intros (Hd & Hs & He & ? & ?) ?.
  rewrite Hd, Hs, He. lia.
Qed.

Lemma forward_ret {A} (a : A) : forward (ret a).
Proof. intros s. apply stream_step_refl. Qed.

Lemma forward_bind {A B} (m : M A) (k : A → M B) :
  forward m → (∀ a, forward (k a)) → forward (bind m k).
Proof.
  intros Hm Hk s. unfold bind.
  eapply stream_step_trans; [apply Hm|apply Hk].
Qed.

Lemma forward_readByte : forward readByte.
Proof.
  intros s. unfold readByte, stream_step.
  destruct (pos s <? end_ s) eqn:Hlt; [apply Z.ltb_lt in Hlt|]; step_solve.
Qed.

Lemma forward_readChar : forward readChar.
Proof.
  intros s. unfold readChar, stream_step.
  destruct (pos s <? end_ s) eqn:Hlt; [apply Z.ltb_lt in Hlt|]; step_solve.
Qed.

Lemma forward_peekChar : forward peekChar.
Proof.
  intros s. unfold peekChar, stream_step.
  destruct (pos s <? end_ s) eqn:Hlt; step_solve.
Qed.

Lemma readLine_scan_bounds d en : ∀ fuel p,
  p ≤ readLine_scan fuel d en p ∧ (p ≤ en → readLine_scan fuel d en p ≤ en).
Proof.
  induction fuel as [|fuel IH]; intros p; cbn [readLine_scan]; [lia|].
  destruct (p <? en) eqn:Hlt; cbn [andb]; [|lia].
  apply Z.ltb_lt in Hlt. case_match; [|lia].
  specialize (IH (p + 1)). lia.
Qed.

(** With the fuel [readLine] gives it, the scan stops only where the
    loop condition is false. *)
Lemma readLine_scan_stops d en : ∀ fuel p,
  en - p ≤ Z.of_nat fuel →
  let q := readLine_scan fuel d en p in
  (q <? en) && negb (is_line_end (data_at d q)) = false.
Proof.
  induction fuel as [|fuel IH]; intros p Hfuel; cbn [readLine_scan].
  - cbv zeta. replace (p <? en) with false; [done|]. symmetry. apply Z.ltb_ge. lia.
  - destruct ((p <? en) && negb (is_line_end (data_at d p))) eqn:Hc; [|by cbv zeta].
    apply IH. lia.
Qed.

Lemma forward_readLine : forward readLine.
Proof.
  intros s. unfold readLine, stream_step. cbn.
  pose proof (readLine_scan_bounds (data s) (end_ s) (Z.to_nat (end_ s - pos s)) (pos s)).
  repeat split; first [done|lia].
Qed.

Lemma forward_nextOffsetOf needle : forward (nextOffsetOf needle).
Proof. intros s. apply stream_step_refl. Qed.

Lemma forward_readUnsignedVB_loop n : ∀ shift result, forward (readUnsignedVB_loop n shift result).
Proof.
  induction n as [|n IH]; intros shift result; cbn [readUnsignedVB_loop].
  - apply forward_ret.
  - apply forward_bind; [apply forward_readByte|]. intros b.
    repeat case_match; first [apply forward_ret|apply IH].
Qed.

Lemma forward_readUnsignedVB : forward readUnsignedVB.
Proof. apply forward_readUnsignedVB_loop. Qed.

Lemma forward_readSignedVB : forward readSignedVB.
Proof.
  apply forward_bind; [apply forward_readUnsignedVB|]. intros u. apply forward_ret.
Qed.

(** Straight-line readers: peel binds, and split on the selector. *)
Ltac forward_straight :=
  repeat first
    [ apply forward_ret
    | apply forward_readByte
    | apply forward_readChar
    | apply forward_readSignedVB
    | apply forward_readUnsignedVB
    | (apply forward_bind; [|intros ?])
    | progress cbv zeta
    | case_match ].

Lemma forward_readString n : forward (readString n).
Proof.
  induction n as [|n IH]; cbn [readString]; [apply forward_ret|].
  apply forward_bind; [apply forward_readChar|]. intros c.
  apply forward_bind; [apply IH|]. intros rest. apply forward_ret.
Qed.

Lemma forward_readS8 : forward readS8.
Proof. unfold readS8. forward_straight. Qed.

Lemma forward_readS16 : forward readS16.
Proof. unfold readS16. forward_straight. Qed.

Lemma forward_readU16 : forward readU16.
Proof. unfold readU16. forward_straight. Qed.

Lemma forward_readU32 : forward readU32.
Proof. unfold readU32. forward_straight. Qed.

Lemma forward_readTag2_3_field leadByte : forward (readTag2_3_field leadByte).
Proof. unfold readTag2_3_field. forward_straight. Qed.

Lemma forward_readTag2_3_fields n : ∀ i leadByte values,
  forward (readTag2_3_fields n i leadByte values).
Proof.
  induction n as [|n IH]; intros i leadByte values; cbn [readTag2_3_fields].
  - apply forward_ret.
  - apply forward_bind; [apply forward_readTag2_3_field|]. intros v. apply IH.
Qed.

Lemma forward_readTag2_3S32 values : forward (readTag2_3S32 values).
Proof.
  unfold readTag2_3S32.
  apply forward_bind; [apply forward_readByte|]. intros leadByte.
  repeat case_match; first [apply forward_readTag2_3_fields|forward_straight].
Qed.

Lemma forward_readTag2_3SVariable values : forward (readTag2_3SVariable values).
Proof.
  unfold readTag2_3SVariable.
  apply forward_bind; [apply forward_readByte|]. intros leadByte.
  repeat case_match; first [apply forward_readTag2_3_fields|forward_straight].
Qed.

Lemma forward_readTag8_4S16_v1_loop fuel : ∀ i selector values,
  forward (readTag8_4S16_v1_loop fuel i selector values).
Proof.
  induction fuel as [|fuel IH]; intros i selector values; cbn [readTag8_4S16_v1_loop].
  - apply forward_ret.
  - repeat case_match;
      repeat first [apply IH|apply forward_ret|apply forward_readByte
                   |(apply forward_bind; [|intros ?])|progress cbv zeta].
Qed.

Lemma forward_readTag8_4S16_v1 values : forward (readTag8_4S16_v1 values).
Proof.
  apply forward_bind; [apply forward_readByte|]. intros selector.
  apply forward_readTag8_4S16_v1_loop.
Qed.

Lemma forward_readTag8_4S16_v2_loop n : ∀ i selector nibbleIndex buffer values,
  forward (readTag8_4S16_v2_loop n i selector nibbleIndex buffer values).
Proof.
  induction n as [|n IH]; intros i selector nibbleIndex buffer values;
    cbn [readTag8_4S16_v2_loop].
  - apply forward_ret.
  - repeat case_match;
      repeat first [apply IH|apply forward_ret|apply forward_readByte
                   |(apply forward_bind; [|intros ?])|progress cbv zeta].
Qed.

Lemma forward_readTag8_4S16_v2 values : forward (readTag8_4S16_v2 values).
Proof.
  apply forward_bind; [apply forward_readByte|]. intros selector.
  apply forward_readTag8_4S16_v2_loop.
Qed.

Lemma forward_readTag8_8SVB_loop n : ∀ i header values,
  forward (readTag8_8SVB_loop n i header values).
Proof.
  induction n as [|n IH]; intros i header values; cbn [readTag8_8SVB_loop].
  - apply forward_ret.
  - apply forward_bind; [|intros v; apply IH].
    case_match; forward_straight.
Qed.

Lemma forward_readTag8_8SVB values valueCount : forward (readTag8_8SVB values valueCount).
Proof.
  unfold readTag8_8SVB. case_match.
  - forward_straight.
  - apply forward_bind; [apply forward_readByte|]. intros header.
    apply forward_readTag8_8SVB_loop.
Qed.

(** [allIndicesOf] returns for every marker and hands on a stream that
    has only moved forward. *)
Lemma allIndicesOf_returns marker s :
  ∃ l s', allIndicesOf marker s = Some (l, s') ∧ stream_step s s'.
Proof.
  destruct (decide (marker = [])) as [->|Hne].
  - exists [end_ s], s. split; [apply allIndicesOf_empty_marker|apply stream_step_refl].
  - destruct (allIndicesOf_loop_spec marker (S (S (Z.to_nat (end_ s - pos s)))) [] s Hne)
      as (found & s' & Heq & _ & Hd & Hst & Hen & _ & Hp1 & Hp2); [lia|].
    exists (found ++ [end_ s]), s'. split; [exact Heq|]. by repeat split.
Qed.

Lemma new_ArrayDataStream_inv d st en :
  let s := new_ArrayDataStream d st en in
  stream_inv s ↔ start s ≤ end_ s ∧ end_ s ≤ Z.of_nat (length d).
Proof. unfold stream_inv. cbn. lia. Qed.

End Bounds.

(** C4 (as the code has it). A stream constructed from a buffer alone
    satisfies [start ≤ pos ≤ end ≤ len(data)], one constructed with
    explicit bounds satisfies it exactly when [start ≤ end ≤ len(data)];
    the reads, the tagged-group readers and the searches preserve it.
    [unreadChar] decrements the position without a check: it preserves
    the invariant exactly when the position is not at [start]. *)
Theorem stream_bounds_invariant (d : list Z) (s : ArrayDataStream) :
  stream_inv (new_ArrayDataStream d None None)
  ∧ (∀ st en, let s0 := new_ArrayDataStream d st en in
       stream_inv s0 ↔ start s0 ≤ end_ s0 ∧ end_ s0 ≤ Z.of_nat (length d))
  ∧ (stream_inv s →
     stream_inv (readByte s).2
     ∧ stream_inv (readChar s).2
     ∧ stream_inv (peekChar s).2
     ∧ stream_inv (readLine s).2
     ∧ (∀ n, stream_inv (readString n s).2)
     ∧ stream_inv (readS8 s).2
     ∧ stream_inv (readU16 s).2
     ∧ stream_inv (readU32 s).2
     ∧ stream_inv (readS16 s).2
     ∧ stream_inv (readUnsignedVB s).2
     ∧ stream_inv (readSignedVB s).2
     ∧ (∀ values, stream_inv (readTag2_3S32 values s).2)
     ∧ (∀ values, stream_inv (readTag2_3SVariable values s).2)
     ∧ (∀ values, stream_inv (readTag8_4S16_v1 values s).2)
     ∧ (∀ values, stream_inv (readTag8_4S16_v2 values s).2)
     ∧ (∀ values valueCount, stream_inv (readTag8_8SVB values valueCount s).2)
     ∧ (∀ needle, stream_inv (nextOffsetOf needle s).2)
     ∧ (∀ marker, ∃ l s', allIndicesOf marker s = Some (l, s') ∧ stream_inv s')
     ∧ (stream_inv (unreadChar s).2 ↔ start s < pos s)).
Proof.
  split; [apply new_ArrayDataStream_inv; cbn; lia|].
  split; [intros st en; apply new_ArrayDataStream_inv|].
  intros Hinv.
  assert (∀ A (m : M A), forward m → stream_inv (m s).2) as Hfw.
  { intros A m Hm. eapply stream_step_inv; [apply Hm|done]. }
  repeat match goal with |- _ ∧ _ => split end;
    try (intros; apply Hfw;
         first [apply forward_readByte|apply forward_readChar|apply forward_peekChar
               |apply forward_readLine|apply forward_readString|apply forward_readS8
               |apply forward_readU16|apply forward_readU32|apply forward_readS16
               |apply forward_readUnsignedVB|apply forward_readSignedVB
               |apply forward_readTag2_3S32|apply forward_readTag2_3SVariable
               |apply forward_readTag8_4S16_v1|apply forward_readTag8_4S16_v2
               |apply forward_readTag8_8SVB|apply forward_nextOffsetOf]).
  - intros marker. destruct (allIndicesOf_returns marker s) as (l & s' & Heq & Hstep).
    exists l, s'. split; [done|]. by eapply stream_step_inv.
  - unfold stream_inv in *. cbn. lia.
Qed.

Lemma stream_bounds_invariant_witness :
  let s := set_pos (new_ArrayDataStream [0x81; 0x40; 0x85; 0x0a] None None) 1 in
  stream_inv s
  ∧ stream_inv (readU16 s).2
  ∧ stream_inv (unreadChar s).2.
Proof.
  intros s.
  assert (stream_inv s) as Hinv by (unfold stream_inv; cbn; lia).
  destruct (stream_bounds_invariant [] s) as (_ & _ & H).
  destruct (H Hinv) as (_ & _ & _ & _ & _ & _ & HU16 & H').
  split; [exact Hinv|]. split; [exact HU16|].
  do 11 (destruct H' as [_ H']).
  apply H'. cbn. lia.
Defined.

(** C4 as stated fails: on a fresh stream [unreadChar] moves the
    position in front of [start]. *)
Lemma unreadChar_breaks_bounds_counterexample :
  let s := new_ArrayDataStream [65] None None in
  stream_inv s ∧ ¬ stream_inv (unreadChar s).2.
Proof.
  split; unfold stream_inv; cbn; lia.
Qed.

(** ** Binary searches *)

Section BinarySearch.

Variable lst : list Z.
Variable item : Z.

Lemma data_at_in_range (l : list Z) i :
  0 ≤ i < Z.of_nat (length l) →
  ∃ v, l !! Z.to_nat i = Some v ∧ data_at l i = JNum v.
Proof.
  intros Hi. destruct (lookup_lt_is_Some_2 l (Z.to_nat i)) as [v Hv]; [lia|].
  exists v. split; [done|]. unfold data_at.
  replace (i <? 0) with false by (symmetry; apply Z.ltb_ge; lia). by rewrite Hv.
Qed.

Lemma midpoint_bounds min max : min < max → min ≤ (min + max) `div` 2 < max.
Proof. intros. Z.div_mod_to_equations. lia. Qed.

(** The loop of [binarySearchOrPrevious] returns, with the running
    [result] or an index of the current interval; it returns [result]
    when the interval only holds larger elements. *)
Lemma binarySearchOrPrevious_loop_bounds : ∀ fuel min max result,
  0 ≤ min ≤ max → max ≤ Z.of_nat (length lst) → max - min < Z.of_nat fuel →
  ∃ i, binarySearchOrPrevious_loop fuel lst item min max result = Some i
       ∧ (i = result ∨ min ≤ i < max)
       ∧ ((∀ (j : nat) a, lst !! j = Some a → min ≤ Z.of_nat j < max → item < a) →
          i = result).
Proof.
  induction fuel as [|fuel IH]; intros min max result Hmin Hmax Hfuel.
  - exists result. lia.
  - cbn [binarySearchOrPrevious_loop].
    destruct (min <? max) eqn:Hlt; [|exists result; split; [done|]; split; [by left|done]].
    apply Z.ltb_lt in Hlt. pose proof (midpoint_bounds min max Hlt) as Hmid.
    cbv zeta. set (mid := (min + max) `div` 2) in *.
    destruct (data_at_in_range lst mid ltac:(lia)) as (v & Hv & ->).
    cbn [loose_eq js_lt].
    destruct (v =? item) eqn:Heq.
    { apply Z.eqb_eq in Heq. exists mid. split; [done|]. split; [right; lia|].
      intros Hall. specialize (Hall (Z.to_nat mid) v Hv). lia. }
    apply Z.eqb_neq in Heq.
    destruct (v <? item) eqn:Hvlt.
    + apply Z.ltb_lt in Hvlt.
      destruct (IH (mid + 1) max mid ltac:(lia) Hmax ltac:(lia)) as (i & Hi & Hb & _).
      exists i. split; [done|]. split; [right; lia|].
      intros Hall. specialize (Hall (Z.to_nat mid) v Hv). lia.
    + apply Z.ltb_ge in Hvlt.
      destruct (IH min mid result ltac:(lia) ltac:(lia) ltac:(lia)) as (i & Hi & Hb & Hres).
      exists i. split; [done|]. split; [lia|].
      intros Hall. apply Hres. intros j a Hj Hjr. apply (Hall j a Hj). lia.
Qed.

Lemma binarySearchOrNext_loop_bounds : ∀ fuel min max result,
  0 ≤ min ≤ max → max ≤ Z.of_nat (length lst) → max - min < Z.of_nat fuel →
  ∃ i, binarySearchOrNext_loop fuel lst item min max result = Some i
       ∧ (i = result ∨ min ≤ i < max)
       ∧ ((∀ (j : nat) a, lst !! j = Some a → min ≤ Z.of_nat j < max → a < item) →
          i = result).
Proof.
  induction fuel as [|fuel IH]; intros min max result Hmin Hmax Hfuel.
  - exists result. lia.
  - cbn [binarySearchOrNext_loop].
    destruct (min <? max) eqn:Hlt; [|exists result; split; [done|]; split; [by left|done]].
    apply Z.ltb_lt in Hlt. pose proof (midpoint_bounds min max Hlt) as Hmid.
    cbv zeta. set (mid := (min + max) `div` 2) in *.
    destruct (data_at_in_range lst mid ltac:(lia)) as (v & Hv & ->).
    cbn [loose_eq js_gt].
    destruct (v =? item) eqn:Heq.
    { apply Z.eqb_eq in Heq. exists mid. split; [done|]. split; [right; lia|].
      intros Hall. specialize (Hall (Z.to_nat mid) v Hv). lia. }
    apply Z.eqb_neq in Heq.
    destruct (item <? v) eqn:Hvgt.
    + apply Z.ltb_lt in Hvgt.
      destruct (IH min mid mid ltac:(lia) ltac:(lia) ltac:(lia)) as (i & Hi & Hb & _).
      exists i. split; [done|]. split; [right; lia|].
      intros Hall. specialize (Hall (Z.to_nat mid) v Hv). lia.
    + apply Z.ltb_ge in Hvgt.
      destruct (IH (mid + 1) max result ltac:(lia) Hmax ltac:(lia)) as (i & Hi & Hb & Hres).
      exists i. split; [done|]. split; [lia|].
      intros Hall. apply Hres. intros j a Hj Hjr. apply (Hall j a Hj). lia.
Qed.

Lemma StronglySorted_le_lookup (l : list Z) :
  StronglySorted Z.le l →
  ∀ (i j : nat) a b, l !! i = Some a → l !! j = Some b → (i ≤ j)%nat → a ≤ b.
Proof.
  induction 1 as [|x l Hsorted IH Hall]; intros i j a b Hi Hj Hij.
  - by rewrite lookup_nil in Hi.
  - destruct i as [|i], j as [|j]; simpl in Hi, Hj; simplify_eq; try lia.
    + rewrite Forall_forall in Hall. apply Hall. by eapply list_elem_of_lookup_2.
    + eapply IH; [done..|lia].
Qed.

(** On a list in ascending order the loop keeps every element in front
    of [min] below the item and every element from [max] on above it,
    and [result] is the index just in front of [min]. *)
Lemma binarySearchOrPrevious_loop_sorted :
  StronglySorted Z.le lst →
  ∀ fuel min max result i,
  0 ≤ min ≤ max → max ≤ Z.of_nat (length lst) →
  (∀ (j : nat) a, lst !! j = Some a → Z.of_nat j < min → a < item) →
  (∀ (j : nat) a, lst !! j = Some a → max ≤ Z.of_nat j → item < a) →
  (min = 0 ∨ result = min - 1) →
  binarySearchOrPrevious_loop fuel lst item min max result = Some i →
  lst !! Z.to_nat i = Some item
  ∨ (∀ (j : nat) a, lst !! j = Some a → item < a)
  ∨ (∃ v, lst !! Z.to_nat i = Some v ∧ v < item
          ∧ ∀ (j : nat) a, lst !! j = Some a → i < Z.of_nat j → item < a).
Proof.
  intros Hsorted.
  induction fuel as [|fuel IH]; intros min max result i Hmin Hmax Hlow Hhigh Hres Hloop;
    [done|].
  cbn [binarySearchOrPrevious_loop] in Hloop.
  destruct (min <? max) eqn:Hlt.
  - apply Z.ltb_lt in Hlt. pose proof (midpoint_bounds min max Hlt) as Hmid.
    cbv zeta in Hloop. set (mid := (min + max) `div` 2) in *.
    destruct (data_at_in_range lst mid ltac:(lia)) as (v & Hv & Hat).
    rewrite Hat in Hloop. cbn [loose_eq js_lt] in Hloop.
    destruct (v =? item) eqn:Heq.
    { apply Z.eqb_eq in Heq. injection Hloop as <-. left. by rewrite Hv, Heq. }
    apply Z.eqb_neq in Heq.
    destruct (v <? item) eqn:Hvlt.
    + apply Z.ltb_lt in Hvlt.
      apply (IH (mid + 1) max mid i); [lia|done| |done|lia|done].
      intros j a Hj Hjm.
      pose proof (StronglySorted_le_lookup lst Hsorted j (Z.to_nat mid) a v Hj Hv ltac:(lia)).
      lia.
    + apply Z.ltb_ge in Hvlt.
      apply (IH min mid result i); [lia|lia|done| |done|done].
      intros j a Hj Hjm.
      pose proof (StronglySorted_le_lookup lst Hsorted (Z.to_nat mid) j v a Hv Hj ltac:(lia)).
      lia.
  - apply Z.ltb_ge in Hlt. injection Hloop as <-.
    destruct Hres as [Hz|Hr].
    + right. left. intros j a Hj. apply (Hhigh j a Hj). lia.
    + destruct (Z.eq_dec min 0) as [Hz|Hnz].
      * right. left. intros j a Hj. apply (Hhigh j a Hj). lia.
      * right. right.
        destruct (data_at_in_range lst result ltac:(lia)) as (v & Hv & _).
        exists v. split; [done|]. split.
        -- apply (Hlow (Z.to_nat result) v Hv). lia.
        -- intros j a Hj Hjr. apply (Hhigh j a Hj). lia.
Qed.

End BinarySearch.

(** C10 (as the code has it). On the empty list
    [binarySearchOrPrevious] returns 0 and [binarySearchOrNext] returns
    -1.  On a non-empty list both return an index in [[0, length-1]];
    [binarySearchOrPrevious] returns 0 when the item is smaller than
    all elements and [binarySearchOrNext] returns [length-1] when it is
    larger than all elements.  When the list is in ascending order and
    some element is not larger than the item, [binarySearchOrPrevious]
    returns the index of the item or of the largest element smaller
    than the item. *)
Theorem binary_search_bounds (lst : list Z) (item : Z) :
  (lst = [] →
   binarySearchOrPrevious lst item = Some 0 ∧ binarySearchOrNext lst item = Some (-1))
  ∧ (lst ≠ [] →
     ∃ p n,
       binarySearchOrPrevious lst item = Some p
       ∧ binarySearchOrNext lst item = Some n
       ∧ 0 ≤ p ≤ Z.of_nat (length lst) - 1
       ∧ 0 ≤ n ≤ Z.of_nat (length lst) - 1
       ∧ ((∀ x, x ∈ lst → item < x) → p = 0)
       ∧ ((∀ x, x ∈ lst → x < item) → n = Z.of_nat (length lst) - 1)
       ∧ (StronglySorted Z.le lst → ¬ (∀ x, x ∈ lst → item < x) →
          ∃ v, lst !! Z.to_nat p = Some v
               ∧ (v = item ∨ (v < item ∧ ∀ w, w ∈ lst → w < item → w ≤ v)))).
Proof.
  split; [by intros ->|].
  intros Hne.
  assert (0 < Z.of_nat (length lst)) as Hlen by (destruct lst; [done|simpl; lia]).
  destruct (binarySearchOrPrevious_loop_bounds lst item (S (length lst)) 0
              (Z.of_nat (length lst)) 0) as (p & Hp & Hpb & Hp0); [lia..|].
  destruct (binarySearchOrNext_loop_bounds lst item (S (length lst)) 0
              (Z.of_nat (length lst)) (Z.of_nat (length lst) - 1))
    as (n & Hn & Hnb & Hn0); [lia..|].
  exists p, n. repeat split; try done; try lia.
  - intros Hall. apply Hp0. intros j a Hj _. apply Hall. by eapply list_elem_of_lookup_2.
  - intros Hall. apply Hn0. intros j a Hj _. apply Hall. by eapply list_elem_of_lookup_2.
  - intros Hsorted Hnot.
    destruct (binarySearchOrPrevious_loop_sorted lst item Hsorted (S (length lst)) 0
                (Z.of_nat (length lst)) 0 p) as [Hfound|[Hall|(v & Hv & Hlt & Hlast)]];
      try done; try lia.
    + intros j a Hj Hge. apply lookup_lt_Some in Hj. lia.
    + exists item. split; [done|by left].
    + exfalso. apply Hnot. intros x Hx.
      apply list_elem_of_lookup in Hx as [j Hj]. by apply (Hall j).
    + exists v. split; [done|]. right. split; [done|].
      intros w Hw Hwlt. apply list_elem_of_lookup in Hw as [j Hj].
      destruct (Z_lt_dec p (Z.of_nat j)) as [Hpj|Hpj].
      * specialize (Hlast j w Hj Hpj). lia.
      * apply (StronglySorted_le_lookup lst Hsorted j (Z.to_nat p) w v Hj Hv). lia.
Qed.

Lemma binary_search_bounds_witness :
  [10; 20; 30] ≠ []
  ∧ StronglySorted Z.le [10; 20; 30]
  ∧ ∃ p n,
      binarySearchOrPrevious [10; 20; 30] 25 = Some p
      ∧ binarySearchOrNext [10; 20; 30] 25 = Some n
      ∧ 0 ≤ p ≤ 2 ∧ 0 ≤ n ≤ 2.
Proof.
  split; [done|]. split; [repeat constructor; lia|].
  destruct (binary_search_bounds [10; 20; 30] 25) as [_ H].
  destruct (H ltac:(done)) as (p & n & Hp & Hn & Hpb & Hnb & _).
  exists p, n. repeat split; first [exact Hp|exact Hn|cbn in Hpb, Hnb; lia].
Defined.

(** C10 as stated fails without an order on the list: in [3; 1; 5] the
    search for 4 returns index 1, whose element 1 is neither the item
    nor the largest element smaller than it. *)
Lemma binarySearchOrPrevious_unsorted_counterexample :
  ¬ (∀ (lst : list Z) (item : Z), lst ≠ [] → ¬ (∀ x, x ∈ lst → item < x) →
       ∃ p v, binarySearchOrPrevious lst item = Some p
              ∧ lst !! Z.to_nat p = Some v
              ∧ (v = item ∨ (v < item ∧ ∀ w, w ∈ lst → w < item → w ≤ v))).
Proof.
  intros H.
  destruct (H [3; 1; 5] 4) as (p & v & Hp & Hv & Hcase).
  - done.
  - intros Hall. specialize (Hall 3 ltac:(set_solver)). lia.
  - vm_compute in Hp. injection Hp as <-. cbn in Hv. injection Hv as <-.
    destruct Hcase as [?|[_ Hmax]]; [lia|].
    specialize (Hmax 3 ltac:(set_solver)). lia.
Qed.

(** ** The 8-7-7 case of [readTag2_3SVariable] *)

(** With selector 2 the decoder reads three bytes, leaves slot 0 as it
    was and writes slot 1 twice, the second time from the second byte
    alone. *)
Lemma readTag2_3SVariable_case2 (values : list jsval) (s : ArrayDataStream)
    (leadByte byte2 byte3 : Z) :
  bytes_at s [leadByte; byte2; byte3] →
  JS.sar leadByte 6 = 2 →
  readTag2_3SVariable values s
  = (arr_set
       (arr_set
          (arr_set values 1
             (signExtend8Bit
                (JNum (JS.or (JS.shl (JS.and leadByte 0x3f) 2)
                             (JS.sar (JS.and byte2 0xc0) 6)))))
          1
          (signExtend7Bit
             (JNum (JS.or (JS.shl (JS.and byte2 0x3f) 1)
                          (JS.sar (JS.and byte2 0x80) 7)))))
       2
       (signExtend7Bit (JNum (JS.and byte3 0x7f))),
     set_pos s (pos s + 3)).
Proof.
  intros Hbytes Hsel.
  apply bytes_at_cons in Hbytes as [Hr1 Hbytes].
  apply bytes_at_cons in Hbytes as [Hr2 Hbytes].
  apply bytes_at_cons in Hbytes as [Hr3 _].
  unfold readTag2_3SVariable, bind.
  rewrite Hr1. cbn [fst snd num_of]. rewrite Hsel.
  rewrite Hr2. cbn [fst snd num_of]. rewrite Hr3. cbn [fst snd num_of ret].
  f_equal. destruct s as [d st en ef p]. unfold set_pos. cbn. f_equal. lia.
Qed.

(** C5 at a failing input.  For the bytes [81 40 85] (selector 2) the
    8-7-7 layout holds the fields 5, 1 and 5; the decoder leaves slot 0
    untouched and stores 0 in slot 1. *)
Theorem readTag2_3SVariable_877_divergence :
  let s := new_ArrayDataStream [0x81; 0x40; 0x85] None None in
  JS.sar 0x81 6 = 2
  ∧ layout_877 0x81 0x40 0x85 = [5; 1; 5]
  ∧ (readTag2_3SVariable [JNum 9; JNum 9; JNum 9] s).1 = [JNum 9; JNum 0; JNum 5].
Proof. vm_compute. done. Qed.

(** ** Header value parsing *)

(** The index of the first dot is 0 exactly when the part begins with
    a dot; in particular it is not 0 when the part has no dot. *)
Lemma string_indexOf_dot_0 (part : string) :
  string_indexOf "." part = 0 ↔ ∃ rest, part = String "." rest.
Proof.
  assert (∀ s, -1 ≤ string_indexOf "." s) as Hge.
  { induction s as [|a s IH]; cbn; [lia|]. repeat case_match; lia. }
  destruct part as [|c rest]; cbn.
  - split; [lia|by intros [? ?]].
  - destruct (Ascii.eqb c ".") eqn:Hc.
    + apply Ascii.eqb_eq in Hc. subst c. split; [by exists rest|done].
    + apply Ascii.eqb_neq in Hc. split.
      * specialize (Hge rest). case_match; [lia|]. apply Z.eqb_neq in H. lia.
      * intros [rest' [= -> _]]. done.
Qed.

(** Which of the two parsers [parseCommaSeparatedString] applies to a
    part: [parseInt] exactly when the index of the dot is 0, since the
    condition is the index itself and only index 0 is falsy. *)
Lemma parse_part_choice (num : Type) (parseFloat parseInt10 : string → option num)
    (part : string) :
  parse_part num parseFloat parseInt10 part
  = nan_fallback num
      (if string_indexOf "." part =? 0 then parseInt10 part else parseFloat part)
      part.
Proof. unfold parse_part. by destruct (string_indexOf "." part =? 0). Qed.

(** C7 at a failing input.  Whatever the two parsers are, for the
    string [1e3,.5] and length 2 the part without a dot goes to
    [parseFloat] and the part with a dot to [parseInt], the reverse of
    the coercion by the presence of a dot. *)
Theorem parseCommaSeparatedString_divergence (num : Type)
    (parseFloat parseInt10 : string → option num) :
  parseCommaSeparatedString num parseFloat parseInt10 "1e3,.5" 2
  = CsvArray [ nan_fallback num (parseFloat "1e3"%string) "1e3";
               nan_fallback num (parseInt10 ".5"%string) ".5" ]
  ∧ map (coerce_by_dot parseFloat parseInt10) (split "," "1e3,.5")
    = [ nan_fallback num (parseInt10 "1e3"%string) "1e3";
        nan_fallback num (parseFloat ".5"%string) ".5" ].
Proof. split; reflexivity. Qed.

(** The array shape holds: a requested length [n ≥ 2] gives exactly [n]
    entries, the parts first and [null] behind them. *)
Lemma parseCommaSeparatedString_shape (num : Type)
    (parseFloat parseInt10 : string → option num) (str : string) (n : Z) :
  2 ≤ n →
  ∃ l, parseCommaSeparatedString num parseFloat parseInt10 str n = CsvArray l
       ∧ length l = Z.to_nat n
       ∧ ∀ i : nat, (i < Z.to_nat n)%nat →
           l !! i = Some (match split "," str !! i with
                          | Some part => parse_part num parseFloat parseInt10 part
                          | None => VNull
                          end).
Proof.
  intros Hn. unfold parseCommaSeparatedString. cbv zeta.
  replace (n =? 0) with false by (symmetry; apply Z.eqb_neq; lia).
  replace (n <? 2) with false by (symmetry; apply Z.ltb_ge; lia).
  eexists. split; [done|]. split.
  - by rewrite length_map, length_seq.
  - intros i Hi. rewrite list_lookup_fmap, lookup_seq_lt by done. done.
Qed.

(** ** The indexer and the facade *)

Section SubLog.

Variable LOG_END : Z.
Context {sysConfig_t stats_t : Type}.

Local Abbreviation parseSubLog := (_parseSubLog LOG_END (sysConfig_t := sysConfig_t)
                                                (stats_t := stats_t)).
Local Abbreviation frameReady := (onFrameReady LOG_END (stats_t := stats_t)).
Local Abbreviation subLogs := (parse_sub_logs LOG_END (sysConfig_t := sysConfig_t)
                                              (stats_t := stats_t)).




(** [_parseSubLog] returns exactly when the parser answers the pass, it
    leaves the answers behind the pass, and it has made the calls of
    the pass. *)
Lemma parseSubLog_pass (parser : parser_id) (offs : list Z) (i : nat)
    (w : world sysConfig_t stats_t) :
  match parseSubLog parser offs i w with
  | None => next_pass (answers w) = None
  | Some (d, w') =>
      ∃ p, next_pass (answers w) = Some (p, answers w')
           ∧ calls w' = calls w ++ calls_of_pass parser (offset_at offs i)
                                                 (offset_at offs (S i)) p
  end.
Proof.
  unfold _parseSubLog, parser_parseHeader, parser_parseLogData, next_pass.
  destruct (answers w) as [|[[h|e]|frames thrown stats0] rest]; cbn; try done.
  - destruct rest as [|[o|frames thrown stats0] rest]; cbn; try done.
    eexists. split; [done|]. cbn. by rewrite <- app_assoc.
  - by eexists.
Qed.

(** The lists and the time range of the directory [_parseSubLog] returns
    are the ones the callback has built from the frames of the pass. *)
Lemma parseSubLog_fields (parser : parser_id) (offs : list Z) (i : nat)
    (w : world sysConfig_t stats_t) :
  match parseSubLog parser offs i w with
  | None => next_pass (answers w) = None
  | Some (d, w') =>
      ∃ p motorFields,
        next_pass (answers w) = Some (p, answers w')
        ∧ let st := foldl (frameReady motorFields)
                          (mkPass (mkIntraIndex [] [] [] (Some []) [] None None
                                                EmptyString None) 0 [] false)
                          (frames_seen p) in
          times d = times (intraIndex_of st)
          ∧ offsets d = offsets (intraIndex_of st)
          ∧ avgThrottle d = avgThrottle (intraIndex_of st)
          ∧ hasEvent d = hasEvent (intraIndex_of st)
          ∧ minTime d = minTime (intraIndex_of st)
          ∧ maxTime d = maxTime (intraIndex_of st)
          ∧ (∀ l, initialSlow d = Some l → initialSlow (intraIndex_of st) = Some l)
  end.
Proof.
  unfold _parseSubLog, parser_parseHeader, parser_parseLogData, next_pass.
  destruct (answers w) as [|[[h|e]|frames thrown stats0] rest]; cbn [fst snd]; try done.
  - destruct rest as [|[o|frames thrown stats0] rest]; cbn [answers]; try done.
    eexists. exists (motorFields_of (frameDefs_I h)). split; [done|].
    cbn [frames_seen]. cbv zeta.
    set (st := foldl _ _ frames).
    unfold no_data_diagnostic.
    destruct thrown; destruct (frameDefs_S h); cbn;
      destruct (minTime (intraIndex_of st)); cbn; split_and?; done.
  - eexists. exists []. split; [done|]. cbn. split_and?; done.
Qed.


End SubLog.

(** *** The index caches *)

Section IndexCaches.

Variable LOG_END : Z.
Context {sysConfig_t stats_t : Type}.

Local Abbreviation subLogs := (parse_sub_logs LOG_END (sysConfig_t := sysConfig_t)
                                              (stats_t := stats_t)).
Local Abbreviation directories :=
  (_getIntraframeDirectories LOG_END (sysConfig_t := sysConfig_t) (stats_t := stats_t)).
Local Abbreviation directoryAt :=
  (getIntraframeDirectory LOG_END (sysConfig_t := sysConfig_t) (stats_t := stats_t)).
Local Abbreviation sub_log_count idx := (length (start_offsets (logData idx)) - 1)%nat.

Lemma ensure_offsets_spec (idx : FlightLogIndex stats_t) :
  index_consistent idx →
  let r := ensure_offsets idx in
  r.1 = start_offsets (logData idx)
  ∧ index_consistent r.2
  ∧ logData r.2 = logData idx
  ∧ intraframeDirectories r.2 = intraframeDirectories idx.
Proof.
  intros Hc. unfold ensure_offsets.
  destruct (logBeginOffsets idx) as [l|] eqn:Hl; cbn.
  - destruct Hc as [Hoff Hdirs]. rewrite (Hoff l Hl). split_and?; try done; by split.
  - destruct Hc as [Hoff Hdirs]. split_and?; try done.
    split; cbn; [by intros l [= <-]|done].
Qed.

Lemma getLogBeginOffset_spec (idx : FlightLogIndex stats_t) (index : Z) :
  index_consistent idx →
  let r := getLogBeginOffset idx index in
  r.1 = data_at (start_offsets (logData idx)) index
  ∧ index_consistent r.2
  ∧ logData r.2 = logData idx
  ∧ intraframeDirectories r.2 = intraframeDirectories idx.
Proof.
  intros Hc. destruct (ensure_offsets_spec idx Hc) as (H1 & H2 & H3 & H4).
  unfold getLogBeginOffset. cbn. by rewrite H1.
Qed.

(** The loop over the sub-logs returns exactly when the parser answers
    every pass; it then has one directory for each pass and has made the
    calls of the passes, in order. *)
Lemma parse_sub_logs_passes (parser : parser_id) (offs : list Z) :
  ∀ n i (w : world sysConfig_t stats_t),
  match subLogs parser offs i n w with
  | None => next_passes n (answers w) = None
  | Some (ds, w') =>
      ∃ ps, next_passes n (answers w) = Some (ps, answers w')
            ∧ length ds = n
            ∧ calls w' = calls w ++ calls_of_passes parser offs i ps
  end.
Proof.
  induction n as [|n IH]; intros i w; cbn [parse_sub_logs next_passes].
  - exists []. cbn. by rewrite app_nil_r.
  - pose proof (parseSubLog_pass LOG_END parser offs i w) as Hpass.
    destruct (_parseSubLog LOG_END parser offs i w) as [[d w1]|]; [|by rewrite Hpass].
    destruct Hpass as (p & -> & Hcalls). specialize (IH (S i) w1).
    destruct (subLogs parser offs (S i) n w1) as [[ds w2]|]; [|by rewrite IH].
    destruct IH as (ps & -> & Hlen & Hcalls'). exists (p :: ps).
    split; [done|]. split; [cbn; by rewrite Hlen|].
    cbn [calls_of_passes]. by rewrite Hcalls', Hcalls, <- app_assoc.
Qed.

(** Once the directories are there, they are handed out as they are:
    nothing is parsed again. *)
Lemma getIntraframeDirectories_cached (idx : FlightLogIndex stats_t) ds
    (w : world sysConfig_t stats_t) :
  intraframeDirectories idx = Some ds → directories idx w = Some (ds, idx, w).
Proof. intros Hds. unfold _getIntraframeDirectories. by rewrite Hds. Qed.

Lemma getIntraframeDirectory_cached (idx : FlightLogIndex stats_t) ds (i : Z)
    (w : world sysConfig_t stats_t) :
  intraframeDirectories idx = Some ds →
  directoryAt idx i w = Some ((if i <? 0 then None else ds !! Z.to_nat i), idx, w).
Proof.
  intros Hds. unfold getIntraframeDirectory. by rewrite (getIntraframeDirectories_cached _ ds).
Qed.

(** Building the directories: one pass of the parser for each sub-log. *)
Lemma getIntraframeDirectories_build (idx : FlightLogIndex stats_t)
    (w : world sysConfig_t stats_t) :
  index_consistent idx →
  intraframeDirectories idx = None →
  match directories idx w with
  | None => next_passes (sub_log_count idx) (answers w) = None
  | Some (ds, idx', w') =>
      ∃ ps, next_passes (sub_log_count idx) (answers w) = Some (ps, answers w')
            ∧ length ds = sub_log_count idx
            ∧ calls w' = calls w ++ calls_of_passes IndexParser (start_offsets (logData idx))
                                                    0 ps
            ∧ index_consistent idx'
            ∧ logData idx' = logData idx
            ∧ intraframeDirectories idx' = Some ds
  end.
Proof.
  intros Hc Hnone. unfold _getIntraframeDirectories. rewrite Hnone.
  pose proof (ensure_offsets_spec idx Hc) as Hens.
  unfold _buildIntraframeDirectories, getLogCount. cbv zeta in Hens |- *.
  destruct (ensure_offsets idx) as [offs idx1].
  cbn [fst snd] in Hens |- *. destruct Hens as (-> & [Hoff2 _] & H3 & H4).
  replace (Z.to_nat (Z.of_nat (length (start_offsets (logData idx))) - 1))
    with (sub_log_count idx) by lia.
  pose proof (parse_sub_logs_passes IndexParser (start_offsets (logData idx))
                (sub_log_count idx) 0%nat w) as Hloop.
  destruct (subLogs IndexParser _ 0 _ w) as [[ds w']|]; [|done].
  destruct Hloop as (ps & Hps & Hlen & Hcalls). exists ps. cbn.
  split_and?; try done.
  split; cbn; [exact Hoff2|]. intros ds' [= <-]. by rewrite H3.
Qed.

Lemma getIntraframeDirectory_spec (idx : FlightLogIndex stats_t) (i : Z)
    (w : world sysConfig_t stats_t) :
  index_consistent idx →
  match directoryAt idx i w with
  | None =>
      intraframeDirectories idx = None
      ∧ next_passes (sub_log_count idx) (answers w) = None
  | Some (od, idx', w') =>
      (is_Some od ↔ 0 ≤ i < Z.of_nat (length (start_offsets (logData idx))) - 1)
      ∧ index_consistent idx'
      ∧ logData idx' = logData idx
      ∧ directoryAt idx' i w' = Some (od, idx', w')
  end.
Proof.
  intros Hc.
  assert (∀ ds : list (intraIndex stats_t), length ds = sub_log_count idx →
            is_Some (if i <? 0 then None else ds !! Z.to_nat i)
            ↔ 0 ≤ i < Z.of_nat (length (start_offsets (logData idx))) - 1) as Hrange.
  { intros ds Hlen. destruct (i <? 0) eqn:Hi.
    - apply Z.ltb_lt in Hi. split; [by intros [? ?]|lia].
    - apply Z.ltb_ge in Hi. rewrite lookup_lt_is_Some, Hlen. lia. }
  destruct (intraframeDirectories idx) as [ds|] eqn:Hds.
  - rewrite (getIntraframeDirectory_cached idx ds i w Hds).
    split_and?; try done; [|by apply getIntraframeDirectory_cached].
    apply Hrange. destruct Hc as [_ Hdirs]. by apply Hdirs.
  - pose proof (getIntraframeDirectories_build idx w Hc Hds) as Hbuild.
    unfold getIntraframeDirectory.
    destruct (directories idx w) as [[[ds idx'] w']|]; [|done].
    destruct Hbuild as (ps & _ & Hlen & _ & Hc' & Hdata & Hds').
    split_and?; try done; [by apply Hrange|].
    by rewrite (getIntraframeDirectories_cached idx' ds w' Hds').
Qed.

End IndexCaches.

(** *** The field names and their table *)

Section FieldNameFacts.

Lemma isFieldDisabled_bit {sysConfig_t : Type} (fields_disabled_mask : sysConfig_t → Z)
    (cfg : sysConfig_t) (bit : Z) :
  0 ≤ bit < 31 →
  isFieldDisabled fields_disabled_mask cfg bit = Z.testbit (fields_disabled_mask cfg) bit.
Proof.
  intros Hbit. unfold isFieldDisabled, JS.and, JS.shl.
  rewrite shift_count_small by lia.
  rewrite (ToInt32_small 1) by lia. rewrite Z.shiftl_1_l.
  assert (2 ^ bit < 2 ^ 31) by (apply Z.pow_lt_mono_r; lia).
  assert (0 < 2 ^ bit) by (apply Z.pow_pos_nonneg; lia).
  rewrite !(ToInt32_small (2 ^ bit)) by lia.
  rewrite land_pow2_testbit by lia. rewrite negb_involutive.
  apply ToInt32_testbit. lia.
Qed.

Lemma indexed_name_motor_legacy (j k : nat) :
  indexed_name "motor" j ≠ indexed_name "motorLegacy" k.
Proof. unfold indexed_name. cbn. done. Qed.

Lemma indexed_name_motor_own (j : nat) :
  indexed_name "motor" j ≠ "__proto__"%string
  ∧ indexed_name "motor" j ∉ Object_prototype_names.
Proof.
  unfold indexed_name, Object_prototype_names. cbn. split; [done|].
  rewrite !not_elem_of_cons. split_and?; try done. apply not_elem_of_nil.
Qed.

(** The loop that appends the legacy motor names appends
    [motorLegacy[i]], [motorLegacy[i + 1]], ... for as long as the motor
    of that number is among the names and iterations are left. *)
Lemma legacy_motor_names_explicit : ∀ n i names,
  ∃ k : nat,
    legacy_motor_names n i names = names ++ (indexed_name "motorLegacy" <$> seq i k)
    ∧ (k ≤ n)%nat
    ∧ (∀ j, (i ≤ j < i + k)%nat → indexed_name "motor" j ∈ names)
    ∧ ((k < n)%nat → indexed_name "motor" (i + k) ∉ names).
Proof.
  induction n as [|n IH]; intros i names; cbn [legacy_motor_names].
  - exists 0%nat. cbn. rewrite app_nil_r. split_and?; try done; lia.
  - case_bool_decide as Hin.
    + destruct (IH (S i) (names ++ [indexed_name "motorLegacy" i]))
        as (k & Heq & Hk & Hall & Hstop).
      assert (∀ j, indexed_name "motor" j ∈ names ++ [indexed_name "motorLegacy" i]
                   ↔ indexed_name "motor" j ∈ names) as Hmem.
      { intros j. rewrite elem_of_app, list_elem_of_singleton. split; [|by left].
        intros [?|Heq']; [done|]. by apply indexed_name_motor_legacy in Heq'. }
      exists (S k). split; [by rewrite Heq, <- app_assoc|]. split; [lia|]. split.
      * intros j Hj. destruct (decide (j = i)) as [->|Hne]; [done|].
        apply Hmem, Hall. lia.
      * intros Hlt. replace (i + S k)%nat with (S i + k)%nat by lia.
        rewrite <- Hmem. apply Hstop. lia.
    + exists 0%nat. cbn. rewrite app_nil_r, Nat.add_0_r. split_and?; try done; lia.
Qed.

(** The table [index_names] builds: a write to [__proto__] leaves no
    entry, and every other name of the list ends up with its last
    position, counted from [i]. *)
Lemma table_set_lookup (m : gmap string nat) (y x : string) (i : nat) :
  (table_set m y i) !! x
  = if bool_decide (y = x ∧ x ≠ "__proto__"%string) then Some i else m !! x.
Proof.
  unfold table_set. destruct (String.eqb y "__proto__") eqn:Hy.
  - apply String.eqb_eq in Hy. subst y. case_bool_decide as H; [|done]. by destruct H.
  - apply String.eqb_neq in Hy. case_bool_decide as H.
    + destruct H as [-> _]. by rewrite lookup_insert_eq.
    + rewrite lookup_insert_ne; [done|]. intros ->. apply H. by split.
Qed.

Lemma index_names_proto : ∀ names i (m : gmap string nat),
  (index_names names i m) !! "__proto__"%string = m !! "__proto__"%string.
Proof.
  induction names as [|y names IH]; intros i m; cbn [index_names]; [done|].
  rewrite IH, table_set_lookup. case_bool_decide as H; [|done]. by destruct H.
Qed.

Lemma index_names_lookup (x : string) :
  x ≠ "__proto__"%string →
  ∀ names i (m : gmap string nat),
  ((x ∉ names) ∧ (index_names names i m) !! x = m !! x)
  ∨ (∃ k, names !! k = Some x
          ∧ (∀ k', names !! k' = Some x → (k' ≤ k)%nat)
          ∧ (index_names names i m) !! x = Some (i + k)%nat).
Proof.
  intros Hx.
  induction names as [|y names IH]; intros i m; cbn [index_names].
  - left. split; [apply not_elem_of_nil|done].
  - destruct (IH (S i) (table_set m y i)) as [[Hnot Hm]|(k & Hk & Hlast & Hm)].
    + destruct (decide (y = x)) as [->|Hne].
      * right. exists 0%nat. split; [done|]. split.
        -- intros [|k'] Hk'; [lia|]. cbn in Hk'. exfalso. apply Hnot.
           by eapply list_elem_of_lookup_2.
        -- rewrite Hm, table_set_lookup, bool_decide_true by done. f_equal. lia.
      * left. split; [by rewrite not_elem_of_cons|].
        rewrite Hm, table_set_lookup, bool_decide_false; [done|]. by intros [? _].
    + right. exists (S k). split; [done|]. split.
      * intros [|k'] Hk'; [lia|]. cbn in Hk'. specialize (Hlast k' Hk'). lia.
      * rewrite Hm. f_equal. lia.
Qed.

(** The entries of [fieldNameToIndex]. *)
Lemma fieldNameToIndex_entries (names : list string) (x : string) (k : nat) :
  (index_names names 0 ∅) !! x = Some k
  ↔ x ≠ "__proto__"%string
    ∧ names !! k = Some x
    ∧ ∀ j, names !! j = Some x → (j ≤ k)%nat.
Proof.
  destruct (decide (x = "__proto__"%string)) as [->|Hx].
  - rewrite index_names_proto, lookup_empty. split; [done|]. by intros [? _].
  - destruct (index_names_lookup x Hx names 0 ∅) as [[Hnot Hm]|(k0 & Hk0 & Hlast & Hm)].
    + rewrite Hm, lookup_empty. split; [done|]. intros (_ & Hk & _).
      exfalso. apply Hnot. by eapply list_elem_of_lookup_2.
    + rewrite Hm. cbn [Nat.add]. split.
      * intros [= <-]. done.
      * intros (_ & Hk & Hmax). f_equal.
        specialize (Hlast k Hk). specialize (Hmax k0 Hk0). lia.
Qed.

(** [_estimateNumMotors] counts the motors that are among the names. *)
Lemma estimateNumMotors_count (MAX_MOTOR_NUMBER : nat) (names : list string) :
  _estimateNumMotors MAX_MOTOR_NUMBER (index_names names 0 ∅)
  = Z.of_nat (length (filter (λ j, indexed_name "motor" j ∈ names)
                             (seq 0 MAX_MOTOR_NUMBER))).
Proof.
  unfold _estimateNumMotors. do 2 f_equal. apply list_filter_iff. intros j.
  unfold getMainFieldIndexByName, table_get.
  destruct (indexed_name_motor_own j) as [Hproto Hown].
  destruct (index_names_lookup (indexed_name "motor" j) Hproto names 0 ∅)
    as [[Hnot Hm]|(k & Hk & _ & Hm)]; rewrite Hm.
  - rewrite lookup_empty, bool_decide_false by done. cbn. split; done.
  - cbn. split; [intros _|done]. by eapply list_elem_of_lookup_2.
Qed.

End FieldNameFacts.

(** *** The cell count *)

Section Estimates.

Context {sysConfig_t : Type}.
Variable cell_voltage_reached : sysConfig_t → Z → bool.

Lemma num_cells_loop_spec cfg : ∀ fuel i,
  1 ≤ i ≤ 8 → 8 - i ≤ Z.of_nat fuel →
  let n := num_cells_loop cell_voltage_reached fuel cfg i in
  i ≤ n ≤ 8
  ∧ (∀ k, i ≤ k < n → cell_voltage_reached cfg k = true)
  ∧ (n < 8 → cell_voltage_reached cfg n = false).
Proof.
  induction fuel as [|fuel IH]; intros i Hi Hfuel; cbn [num_cells_loop]; cbv zeta.
  - split; [lia|]. split; intros; lia.
  - destruct (i <? 8) eqn:Hlt; cbn [andb].
    + apply Z.ltb_lt in Hlt. destruct (cell_voltage_reached cfg i) eqn:Hr.
      * destruct (IH (i + 1) ltac:(lia) ltac:(lia)) as (Hb & Hall & Hstop).
        split; [lia|]. split; [|done].
        intros k Hk. destruct (Z.eq_dec k i) as [->|]; [done|]. apply Hall. lia.
      * split; [lia|]. split; [intros; lia|done].
    + apply Z.ltb_ge in Hlt. split; [lia|]. split; intros; lia.
Qed.

End Estimates.

(** *** Opening a log *)

Section Facade.

Variable LOG_END : Z.
Variable MAX_MOTORS : nat.
Context {sysConfig_t stats_t chunk_t : Type}.
Variable disabled_mask : sysConfig_t → Z.
Variable voltage_reached : sysConfig_t → Z → bool.

Local Abbreviation directoryAt :=
  (getIntraframeDirectory LOG_END (sysConfig_t := sysConfig_t) (stats_t := stats_t)).
Local Abbreviation open :=
  (openLog LOG_END MAX_MOTORS disabled_mask voltage_reached (chunk_t := chunk_t)).
Local Abbreviation consistent := (facade_consistent (stats_t := stats_t) (chunk_t := chunk_t)).

(** The field names [_buildFieldNames] gives, written out. *)
Lemma buildFieldNames_explicit (h : header sysConfig_t) :
  let off := Z.testbit (disabled_mask (sysConfig h)) in
  let logged := name (frameDefs_I h) ++ (if frameDefs_S h is Some s then name s else []) in
  let computed :=
    (if off 0 then [] else ["axisSum[0]"; "axisSum[1]"; "axisSum[2]"]%string)
    ++ (if off 2 then []
        else ["rcCommands[0]"; "rcCommands[1]"; "rcCommands[2]"; "rcCommands[3]"]%string)
    ++ (if off 7 || off 0 then []
        else ["axisError[0]"; "axisError[1]"; "axisError[2]"]%string) in
  ∃ n : nat,
    _buildFieldNames MAX_MOTORS disabled_mask h
    = logged ++ computed ++ (indexed_name "motorLegacy" <$> seq 0 n)
    ∧ (n ≤ MAX_MOTORS)%nat
    ∧ (off 10 = true → n = 0%nat)
    ∧ (∀ j, (j < n)%nat → indexed_name "motor" j ∈ logged ++ computed)
    ∧ (off 10 = false → (n < MAX_MOTORS)%nat →
       indexed_name "motor" n ∉ logged ++ computed).
Proof.
  cbv zeta. unfold _buildFieldNames, PID_disabled, SETPOINT_disabled, GYRO_disabled,
    MOTORS_disabled. cbv zeta.
  rewrite !isFieldDisabled_bit by lia.
  set (off := Z.testbit (disabled_mask (sysConfig h))).
  set (logged := name (frameDefs_I h) ++ (if frameDefs_S h is Some s then name s else [])).
  assert ((match frameDefs_S h with
           | Some s => name (frameDefs_I h) ++ name s
           | None => name (frameDefs_I h)
           end) = logged) as ->.
  { unfold logged. destruct (frameDefs_S h); [done|by rewrite app_nil_r]. }
  set (computed :=
    (if off 0 then [] else ["axisSum[0]"; "axisSum[1]"; "axisSum[2]"]%string)
    ++ (if off 2 then []
        else ["rcCommands[0]"; "rcCommands[1]"; "rcCommands[2]"; "rcCommands[3]"]%string)
    ++ (if off 7 || off 0 then []
        else ["axisError[0]"; "axisError[1]"; "axisError[2]"]%string)).
  set (names := if negb (off 7 || off 0) then _ else _).
  assert (names = logged ++ computed) as ->.
  { unfold names, computed. destruct (off 0), (off 2), (off 7); cbn [negb orb];
      rewrite ?app_nil_r, <- ?app_assoc; reflexivity. }
  destruct (off 10) eqn:H10; cbn [negb].
  - exists 0%nat. cbn. rewrite !app_nil_r. split_and?; try done; lia.
  - destruct (legacy_motor_names_explicit MAX_MOTORS 0 (logged ++ computed))
      as (n & Heq & Hn & Hall & Hstop).
    exists n. rewrite Heq, <- app_assoc. split_and?; try done.
    intros j Hj. apply Hall. lia.
Qed.

(** [_estimateNumCells], written out. *)
Lemma estimateNumCells_explicit (m : gmap string nat) (cfg : sysConfig_t) :
  let n := _estimateNumCells voltage_reached m cfg in
  (m !! "vbatLatest"%string = None ∨ m !! "vbatLatest"%string = Some 0%nat → n = 0)
  ∧ (∀ p, m !! "vbatLatest"%string = Some (S p) →
       1 ≤ n ≤ 8
       ∧ (∀ k, 1 ≤ k < n → voltage_reached cfg k = true)
       ∧ (n < 8 → voltage_reached cfg n = false)).
Proof.
  cbv zeta. unfold _estimateNumCells. split.
  - by intros [-> | ->].
  - intros p ->. apply (num_cells_loop_spec voltage_reached cfg 7 1); lia.
Qed.

Lemma string_eqb_empty (e : string) : String.eqb e EmptyString = true ↔ e = EmptyString.
Proof. apply String.eqb_eq. Qed.

(** A facade that has just been constructed is consistent. *)
Lemma new_FlightLog_consistent (logData0 : list Z) :
  consistent (new_FlightLog logData0).
Proof. split; cbn; done. Qed.

(** C8 (as the code has it). [openLog(i)] first fetches the directory
    of [i], which builds the directories when they are not there yet.
    When that does not return, [openLog] does not return.  For an index
    without a directory ([i] outside 0 .. count - 1) the read of its
    error throws a [TypeError] that leaves [openLog]; the observable
    state is unchanged.  For an index with a directory: if the directory
    carries a non-empty error, [openLog] returns [false] and the
    observable state is unchanged; otherwise it sets the current index
    and the directory and calls [parseHeader] on the facade's parser
    with the begin offsets of the sub-logs [i] and [i + 1].  When that
    call does not return, neither does [openLog]; what it throws leaves
    [openLog], with the field names, the table, the counts and the chunk
    cache as they were; when it returns, [openLog] returns [true] with
    the field names rebuilt from the header the call left (the names of
    the I fields, those of the S fields, the computed names that bits 0,
    2 and 7 of [fields_disabled_mask] do not switch off, and, unless bit
    10 is set, one legacy motor name for each motor from 0 up that is
    among these names), the table of the last position of each name, the
    number of motors among the names, the number of cells (none without
    a [vbatLatest] field behind position 0, else the least number from
    1 on whose voltage the reference does not reach, at most 8), and the
    chunk cache emptied. *)
Theorem openLog_outcome (fl : FlightLog stats_t chunk_t) (i : Z)
    (w : world sysConfig_t stats_t) :
  consistent fl →
  let offs := start_offsets (logData (logIndexes fl)) in
  let dir := directoryAt (logIndexes fl) i w in
  (dir = None → open fl i w = None)
  ∧ (∀ idx1 w1, dir = Some (None, idx1, w1) →
       ¬ (0 ≤ i < Z.of_nat (length offs) - 1)
       ∧ ∃ fl', open fl i w = Some (Thrown NO_DIRECTORY, fl', w1)
                ∧ observable fl' = observable fl
                ∧ consistent fl')
  ∧ (∀ d idx1 w1, dir = Some (Some d, idx1, w1) →
       0 ≤ i < Z.of_nat (length offs) - 1
       ∧ (error d ≠ EmptyString →
          ∃ fl', open fl i w = Some (Returned false, fl', w1)
                 ∧ observable fl' = observable fl
                 ∧ consistent fl')
       ∧ (error d = EmptyString →
          let ph := parser_parseHeader FacadeParser (data_at offs i) (data_at offs (i + 1))
                                       w1 in
          (ph = None → open fl i w = None)
          ∧ (∀ e w2, ph = Some (Thrown e, w2) →
               ∃ fl', open fl i w = Some (Thrown e, fl', w2)
                      ∧ logIndex fl' = i
                      ∧ iframeDirectory fl' = Some d
                      ∧ fieldNames fl' = fieldNames fl
                      ∧ fieldNameToIndex fl' = fieldNameToIndex fl
                      ∧ numMotors fl' = numMotors fl
                      ∧ numCells fl' = numCells fl
                      ∧ _allChunks fl' = _allChunks fl
                      ∧ consistent fl')
          ∧ (∀ h w2, ph = Some (Returned h, w2) →
               let off := Z.testbit (disabled_mask (sysConfig h)) in
               let logged :=
                 name (frameDefs_I h) ++ (if frameDefs_S h is Some s then name s else []) in
               let computed :=
                 (if off 0 then [] else ["axisSum[0]"; "axisSum[1]"; "axisSum[2]"]%string)
                 ++ (if off 2 then []
                     else ["rcCommands[0]"; "rcCommands[1]"; "rcCommands[2]";
                           "rcCommands[3]"]%string)
                 ++ (if off 7 || off 0 then []
                     else ["axisError[0]"; "axisError[1]"; "axisError[2]"]%string) in
               ∃ fl' (n : nat),
                 open fl i w = Some (Returned true, fl', w2)
                 ∧ logIndex fl' = i
                 ∧ iframeDirectory fl' = Some d
                 ∧ fieldNames fl'
                   = logged ++ computed ++ (indexed_name "motorLegacy" <$> seq 0 n)
                 ∧ (n ≤ MAX_MOTORS)%nat
                 ∧ (off 10 = true → n = 0%nat)
                 ∧ (∀ j, (j < n)%nat → indexed_name "motor" j ∈ logged ++ computed)
                 ∧ (off 10 = false → (n < MAX_MOTORS)%nat →
                    indexed_name "motor" n ∉ logged ++ computed)
                 ∧ (∀ x k, fieldNameToIndex fl' !! x = Some k
                           ↔ x ≠ "__proto__"%string
                             ∧ fieldNames fl' !! k = Some x
                             ∧ ∀ j, fieldNames fl' !! j = Some x → (j ≤ k)%nat)
                 ∧ numMotors fl'
                   = Z.of_nat (length (filter (λ j, indexed_name "motor" j ∈ fieldNames fl')
                                              (seq 0 MAX_MOTORS)))
                 ∧ (fieldNameToIndex fl' !! "vbatLatest"%string = None
                    ∨ fieldNameToIndex fl' !! "vbatLatest"%string = Some 0%nat →
                    numCells fl' = 0)
                 ∧ (∀ p, fieldNameToIndex fl' !! "vbatLatest"%string = Some (S p) →
                      1 ≤ numCells fl' ≤ 8
                      ∧ (∀ k, 1 ≤ k < numCells fl' →
                           voltage_reached (sysConfig h) k = true)
                      ∧ (numCells fl' < 8 →
                         voltage_reached (sysConfig h) (numCells fl') = false))
                 ∧ _allChunks fl' = None
                 ∧ consistent fl'))).
Proof.
  intros Hidx. cbv zeta.
  pose proof (getIntraframeDirectory_spec LOG_END (logIndexes fl) i w Hidx) as Hspec.
  unfold openLog, getLogError.
  destruct (directoryAt (logIndexes fl) i w) as [[[od idx1] w1]|] eqn:Hdir.
  2:{ split; [done|]. split; [intros ? ? [=]|intros ? ? ? [=]]. }
  destruct Hspec as (Hrange & Hc1 & Hdata1 & Hagain).
  split; [done|]. split.
  - intros idx1' w1' [= -> <- <-]. split.
    + intros Hin. apply Hrange in Hin. by destruct Hin.
    + eexists. split; [done|]. split; done.
  - intros d idx1' w1' [= -> <- <-]. split; [apply Hrange; by eexists|].
    cbn [negb]. destruct (String.eqb (error d) EmptyString) eqn:Herr; cbn [negb].
    + apply string_eqb_empty in Herr. split; [done|]. intros _.
      cbn [logIndexes set_logIndexes]. rewrite Hagain.
      destruct (getLogBeginOffset_spec idx1 i Hc1) as (Ho1 & Ho2 & Ho3 & _).
      set (o1 := getLogBeginOffset idx1 i) in *.
      destruct (getLogBeginOffset_spec o1.2 (i + 1) Ho2) as (Hp1 & Hp2 & Hp3 & _).
      set (o2 := getLogBeginOffset o1.2 (i + 1)) in *.
      rewrite Hdata1 in Ho1. rewrite Ho3, Hdata1 in Hp1.
      rewrite Ho1, Hp1.
      destruct (parser_parseHeader FacadeParser _ _ w1) as [[[h|e] w2]|].
      * split; [done|]. split; [intros ? ? [=]|]. intros h' w2' [= <- <-].
        destruct (buildFieldNames_explicit h) as (n & Hnames & Hn & Hoff & Hall & Hstop).
        eexists. exists n. split; [done|].
        cbn [logIndex iframeDirectory fieldNames fieldNameToIndex numMotors numCells
             _allChunks set_logIndexes].
        pose proof (estimateNumCells_explicit
                      (index_names (_buildFieldNames MAX_MOTORS disabled_mask h) 0 ∅)
                      (sysConfig h)) as [Hzero Hcells].
        split_and?; try done.
        -- intros x k. apply fieldNameToIndex_entries.
        -- apply estimateNumMotors_count.
      * split; [done|]. split; [|intros ? ? [=]]. intros e' w2' [= <- <-].
        eexists. split; [done|]. cbn. split_and?; done.
      * split; [done|]. split; [intros ? ? [=]|intros ? ? [=]].
    + apply String.eqb_neq in Herr. split; [|done]. intros _.
      eexists. split; [done|]. split; done.
Qed.

End Facade.

(** *** The statements at the example world *)



Lemma openLog_outcome_witness :
  let op := openLog 255 8 (λ _ : unit, 0) (λ _ _, false) (chunk_t := unit) in
  facade_consistent example_FlightLog
  ∧ (∃ fl' w', op example_FlightLog 1 example_world = Some (Returned false, fl', w')
               ∧ observable fl' = observable example_FlightLog)
  ∧ (∃ fl' w', op example_FlightLog 0 example_world = Some (Returned true, fl', w')
               ∧ logIndex fl' = 0
               ∧ (∃ n : nat,
                    fieldNames fl'
                    = ["loopIteration"; "time"; "motor[0]";
                       "axisSum[0]"; "axisSum[1]"; "axisSum[2]";
                       "rcCommands[0]"; "rcCommands[1]"; "rcCommands[2]"; "rcCommands[3]";
                       "axisError[0]"; "axisError[1]"; "axisError[2]"]%string
                      ++ (indexed_name "motorLegacy" <$> seq 0 n))
               ∧ _allChunks fl' = None)
  ∧ (∃ fl' w', op example_FlightLog 2 example_world = Some (Thrown NO_DIRECTORY, fl', w')
               ∧ observable fl' = observable example_FlightLog).
Proof.
  intros op.
  assert (facade_consistent example_FlightLog) as Hcons
    by apply new_FlightLog_consistent.
  split; [exact Hcons|].
  pose proof (openLog_outcome 255 8 (λ _ : unit, 0) (λ _ _, false) (chunk_t := unit)
                example_FlightLog 1 example_world Hcons) as (_ & _ & H1).
  pose proof (openLog_outcome 255 8 (λ _ : unit, 0) (λ _ _, false) (chunk_t := unit)
                example_FlightLog 0 example_world Hcons) as (_ & _ & H0).
  pose proof (openLog_outcome 255 8 (λ _ : unit, 0) (λ _ _, false) (chunk_t := unit)
                example_FlightLog 2 example_world Hcons) as (_ & H2 & _).
  split; [|split].
  - clear H0 H2. revert H1.
    destruct (getIntraframeDirectory 255 (logIndexes example_FlightLog) 1 example_world)
      as [[[[d|] idx1] w1]|] eqn:Hdir; intros H1;
      [|vm_compute in Hdir; discriminate Hdir|vm_compute in Hdir; discriminate Hdir].
    destruct (H1 d idx1 w1 eq_refl) as (_ & Hfalse & _).
    destruct Hfalse as (fl' & Hopen & Hobs & _).
    { vm_compute in Hdir. injection Hdir as <- _ _. done. }
    exists fl', w1. split; [exact Hopen|exact Hobs].
  - clear H1 H2. revert H0.
    destruct (getIntraframeDirectory 255 (logIndexes example_FlightLog) 0 example_world)
      as [[[[d|] idx1] w1]|] eqn:Hdir; intros H0;
      [|vm_compute in Hdir; discriminate Hdir|vm_compute in Hdir; discriminate Hdir].
    destruct (H0 d idx1 w1 eq_refl) as (_ & _ & Htrue).
    assert (error d = EmptyString) as Herr.
    { vm_compute in Hdir. by injection Hdir as <- _ _. }
    destruct (Htrue Herr) as (_ & _ & Hret). clear Htrue. revert Hret.
    destruct (parser_parseHeader FacadeParser
                (data_at (start_offsets (logData (logIndexes example_FlightLog))) 0)
                (data_at (start_offsets (logData (logIndexes example_FlightLog))) (0 + 1))
                w1) as [[[h|e] w2]|] eqn:Hph; intros Hret;
      [|exfalso; vm_compute in Hdir; injection Hdir as _ _ <-; vm_compute in Hph;
        discriminate Hph
       |exfalso; vm_compute in Hdir; injection Hdir as _ _ <-; vm_compute in Hph;
        discriminate Hph].
    assert (h = example_header) as ->.
    { vm_compute in Hdir. injection Hdir as _ _ <-. vm_compute in Hph.
      by injection Hph as <- _. }
    destruct (Hret example_header w2 eq_refl)
      as (fl' & n & Hopen & Hidx & _ & Hnames & _ & _ & _ & _ & _ & _ & _ & _ & Hchunks
          & _).
    exists fl', w2. split; [exact Hopen|]. split; [exact Hidx|].
    split; [by exists n|exact Hchunks].
  - clear H0 H1. revert H2.
    destruct (getIntraframeDirectory 255 (logIndexes example_FlightLog) 2 example_world)
      as [[[[d|] idx1] w1]|] eqn:Hdir; intros H2;
      [vm_compute in Hdir; discriminate Hdir| |vm_compute in Hdir; discriminate Hdir].
    destruct (H2 idx1 w1 eq_refl) as (_ & fl' & Hopen & Hobs & _).
    exists fl', w1. split; [exact Hopen|exact Hobs].
Defined.

(** C8 as stated fails: an exception does cross the facade.  On a
    buffer without any log there is no directory for index 0, and on
    the example there is none for index 2; [getLogError] reads the
    error of [undefined] and [openLog] does not catch the [TypeError]. *)
Lemma openLog_exception_counterexample :
  (∃ fl',
     openLog 255 8 (λ _ : unit, 0) (λ _ _, false) empty_FlightLog 0 silent_world
     = Some (Thrown NO_DIRECTORY, fl', silent_world))
  ∧ (∃ fl' w',
       openLog 255 8 (λ _ : unit, 0) (λ _ _, false) example_FlightLog 2 example_world
       = Some (Thrown NO_DIRECTORY, fl', w')).
Proof.
  split.
  - destruct (openLog 255 8 (λ _ : unit, 0) (λ _ _, false) empty_FlightLog 0 silent_world)
      as [[[r fl'] w']|] eqn:Hopen; vm_compute in Hopen; [|done].
    injection Hopen as <- <- <-. by eexists.
  - destruct (openLog 255 8 (λ _ : unit, 0) (λ _ _, false) example_FlightLog 2 example_world)
      as [[[r fl'] w']|] eqn:Hopen; vm_compute in Hopen; [|done].
    injection Hopen as <- <- <-. by do 2 eexists.
Qed.

(* ================================================================== *)
(** * Further properties of the byte stream *)
(* ================================================================== *)

(** X1. Looking ahead and stepping back.  In front of [end], [peekChar]
    returns what [readChar] returns and leaves the stream as it was, and
    [unreadChar] after [readChar] restores the stream.  At or behind
    [end] both return [EOF] and raise the flag without moving, so an
    [unreadChar] that follows steps back over a byte that was never
    read. *)
Theorem readChar_peekChar_unreadChar (s : ArrayDataStream) :
  (pos s < end_ s →
   peekChar s = ((readChar s).1, s)
   ∧ (unreadChar (readChar s).2).2 = s
   ∧ (readChar s).1 = CChar (fromCharCode (data_at (data s) (pos s))))
  ∧ (end_ s ≤ pos s →
     readChar s = (CEOF, set_eof s true)
     ∧ peekChar s = (CEOF, set_eof s true)
     ∧ pos (unreadChar (readChar s).2).2 = pos s - 1).
Proof.
  unfold readChar, peekChar, unreadChar. split; intros Hp.
  - replace (pos s <? end_ s) with true by (symmetry; apply Z.ltb_lt; lia).
    cbn. split_and?; try done.
    destruct s as [d st en ef p]. unfold set_pos. cbn. f_equal. lia.
  - replace (pos s <? end_ s) with false by (symmetry; apply Z.ltb_ge; lia).
    cbn. done.
Qed.

Lemma readChar_peekChar_unreadChar_witness :
  let s := new_ArrayDataStream [72; 32] None None in
  pos s < end_ s
  ∧ peekChar s = (CChar 72, s)
  ∧ (unreadChar (readChar s).2).2 = s.
Proof.
  intros s. assert (pos s < end_ s) as Hp by (cbn; lia).
  destruct (readChar_peekChar_unreadChar s) as [H _].
  destruct (H Hp) as (Hpeek & Hun & Hval).
  split; [exact Hp|]. split; [|exact Hun].
  rewrite Hpeek, Hval. reflexivity.
Defined.

Section EofFlag.

Lemma eof_step_refl s : eof_step s s.
Proof. unfold eof_step. tauto. Qed.

Lemma careful_ret {A} (a : A) : careful (ret a).
Proof. intros s. split; [apply stream_step_refl|apply eof_step_refl]. Qed.

Lemma careful_bind {A B} (m : M A) (k : A → M B) :
  careful m → (∀ a, careful (k a)) → careful (bind m k).
Proof.
  intros Hm Hk s. unfold bind.
  destruct (Hm s) as [Hs1 [He1 He1']].
  destruct (Hk (m s).1 (m s).2) as [Hs2 [He2 He2']].
  split; [by eapply stream_step_trans|].
  destruct Hs1 as (_ & _ & Hen & Hp & _). destruct Hs2 as (_ & _ & Hen2 & Hp2 & _).
  split; [tauto|]. intros H3.
  destruct (He2' H3) as [H2|H2]; [destruct (He1' H2); [by left|right; lia]|right; lia].
Qed.

Lemma careful_readByte : careful readByte.
Proof.
  intros s. split; [apply forward_readByte|].
  unfold readByte, eof_step.
  destruct (pos s <? end_ s) eqn:Hlt; cbn; [tauto|].
  apply Z.ltb_ge in Hlt. split; [done|]. intros _. by right.
Qed.

Lemma careful_readChar : careful readChar.
Proof.
  intros s. split; [apply forward_readChar|].
  unfold readChar, eof_step.
  destruct (pos s <? end_ s) eqn:Hlt; cbn; [tauto|].
  apply Z.ltb_ge in Hlt. split; [done|]. intros _. by right.
Qed.

Lemma careful_peekChar : careful peekChar.
Proof.
  intros s. split; [apply forward_peekChar|].
  unfold peekChar, eof_step.
  destruct (pos s <? end_ s) eqn:Hlt; cbn; [tauto|].
  apply Z.ltb_ge in Hlt. split; [done|]. intros _. by right.
Qed.

Lemma careful_readLine : careful readLine.
Proof. intros s. split; [apply forward_readLine|]. unfold readLine, eof_step. cbn. tauto. Qed.

Lemma careful_nextOffsetOf needle : careful (nextOffsetOf needle).
Proof. intros s. split; [apply stream_step_refl|apply eof_step_refl]. Qed.

Ltac careful_straight :=
  repeat first
    [ apply careful_ret
    | apply careful_readByte
    | apply careful_readChar
    | (apply careful_bind; [|intros ?])
    | progress cbv zeta
    | case_match ].

Lemma careful_readUnsignedVB_loop n : ∀ shift result, careful (readUnsignedVB_loop n shift result).
Proof.
  induction n as [|n IH]; intros shift result; cbn [readUnsignedVB_loop].
  - apply careful_ret.
  - apply careful_bind; [apply careful_readByte|]. intros b.
    repeat case_match; first [apply careful_ret|apply IH].
Qed.

Lemma careful_readSignedVB : careful readSignedVB.
Proof.
  apply careful_bind; [apply careful_readUnsignedVB_loop|]. intros u. apply careful_ret.
Qed.

Lemma careful_readString n : careful (readString n).
Proof.
  induction n as [|n IH]; cbn [readString]; [apply careful_ret|].
  apply careful_bind; [apply careful_readChar|]. intros c.
  apply careful_bind; [apply IH|]. intros rest. apply careful_ret.
Qed.

Lemma careful_readTag2_3_field leadByte : careful (readTag2_3_field leadByte).
Proof. unfold readTag2_3_field. careful_straight. Qed.

Lemma careful_readTag2_3_fields n : ∀ i leadByte values,
  careful (readTag2_3_fields n i leadByte values).
Proof.
  induction n as [|n IH]; intros i leadByte values; cbn [readTag2_3_fields].
  - apply careful_ret.
  - apply careful_bind; [apply careful_readTag2_3_field|]. intros v. apply IH.
Qed.

Lemma careful_readTag2_3S32 values : careful (readTag2_3S32 values).
Proof.
  unfold readTag2_3S32.
  apply careful_bind; [apply careful_readByte|]. intros leadByte.
  repeat case_match; first [apply careful_readTag2_3_fields|careful_straight].
Qed.

Lemma careful_readTag2_3SVariable values : careful (readTag2_3SVariable values).
Proof.
  unfold readTag2_3SVariable.
  apply careful_bind; [apply careful_readByte|]. intros leadByte.
  repeat case_match; first [apply careful_readTag2_3_fields|careful_straight].
Qed.

Lemma careful_readTag8_4S16_v1_loop fuel : ∀ i selector values,
  careful (readTag8_4S16_v1_loop fuel i selector values).
Proof.
  induction fuel as [|fuel IH]; intros i selector values; cbn [readTag8_4S16_v1_loop].
  - apply careful_ret.
  - repeat case_match;
      repeat first [apply IH|apply careful_ret|apply careful_readByte
                   |(apply careful_bind; [|intros ?])|progress cbv zeta].
Qed.

Lemma careful_readTag8_4S16_v2_loop n : ∀ i selector nibbleIndex buffer values,
  careful (readTag8_4S16_v2_loop n i selector nibbleIndex buffer values).
Proof.
  induction n as [|n IH]; intros i selector nibbleIndex buffer values;
    cbn [readTag8_4S16_v2_loop].
  - apply careful_ret.
  - repeat case_match;
      repeat first [apply IH|apply careful_ret|apply careful_readByte
                   |(apply careful_bind; [|intros ?])|progress cbv zeta].
Qed.

Lemma careful_readTag8_8SVB_loop n : ∀ i header values,
  careful (readTag8_8SVB_loop n i header values).
Proof.
  induction n as [|n IH]; intros i header values; cbn [readTag8_8SVB_loop].
  - apply careful_ret.
  - apply careful_bind; [|intros v; apply IH].
    case_match;
      repeat first [apply careful_ret|apply careful_readSignedVB
                   |(apply careful_bind; [|intros ?])].
Qed.

Lemma careful_readTag8_8SVB values valueCount : careful (readTag8_8SVB values valueCount).
Proof.
  unfold readTag8_8SVB. case_match.
  - apply careful_bind; [apply careful_readSignedVB|]. intros x. apply careful_ret.
  - apply careful_bind; [apply careful_readByte|]. intros header.
    apply careful_readTag8_8SVB_loop.
Qed.

End EofFlag.

(** X2. No read clears the end-of-file flag, and a read that raises it
    leaves the position at or behind [end]; no read changes the buffer
    or its bounds or moves the position back.  [unreadChar] leaves the
    flag as it is. *)
Theorem reads_keep_eof (s : ArrayDataStream) :
  careful readByte ∧ careful readChar ∧ careful peekChar ∧ careful readLine
  ∧ (∀ n, careful (readString n))
  ∧ careful readS8 ∧ careful readU16 ∧ careful readU32 ∧ careful readS16
  ∧ careful readUnsignedVB ∧ careful readSignedVB
  ∧ (∀ values, careful (readTag2_3S32 values))
  ∧ (∀ values, careful (readTag2_3SVariable values))
  ∧ (∀ values, careful (readTag8_4S16_v1 values))
  ∧ (∀ values, careful (readTag8_4S16_v2 values))
  ∧ (∀ values valueCount, careful (readTag8_8SVB values valueCount))
  ∧ (∀ needle, careful (nextOffsetOf needle))
  ∧ eof (unreadChar s).2 = eof s.
Proof.
  split_and?; intros;
    first [ apply careful_readByte | apply careful_readChar | apply careful_peekChar
          | apply careful_readLine | apply careful_readString
          | apply careful_readUnsignedVB_loop | apply careful_readSignedVB
          | apply careful_readTag2_3S32 | apply careful_readTag2_3SVariable
          | apply careful_readTag8_8SVB | apply careful_nextOffsetOf
          | (apply careful_bind; [apply careful_readByte|intros ?];
             first [apply careful_readTag8_4S16_v1_loop|apply careful_readTag8_4S16_v2_loop])
          | done
          | idtac ].
  all: unfold readS8, readU16, readU32, readS16;
    repeat first [apply careful_ret|apply careful_readByte|(apply careful_bind; [|intros ?])].
Qed.

(** ** Fixed-width little-endian reads *)

Section LittleEndian.

(** Or-ing a value below [2^k] with a multiple of [2^k] adds them. *)
Lemma lor_shiftl_add a b k : 0 ≤ k → 0 ≤ a < 2 ^ k → Z.lor a (Z.shiftl b k) = a + b * 2 ^ k.
Proof.
  intros Hk Ha.
  assert (Z.land a (Z.shiftl b k) = 0) as Hdisj.
  { apply Z.bits_inj'. intros i Hi. rewrite Z.land_spec, Z.bits_0.
    destruct (Z_lt_dec i k) as [Hlt|Hge].
    - rewrite Z.shiftl_spec_low by lia. apply andb_false_r.
    - rewrite <- (Z.mod_small a (2 ^ k)) by done.
      rewrite Z.mod_pow2_bits_high by lia. done. }
  rewrite <- Z.lxor_lor, <- Z.add_nocarry_lxor, Z.shiftl_mul_pow2 by done. done.
Qed.

Lemma shl_byte b k : 0 ≤ b < 256 → 0 ≤ k ≤ 16 → JS.shl b k = b * 2 ^ k.
Proof.
  intros Hb Hk. unfold JS.shl.
  rewrite shift_count_small, (ToInt32_small b), Z.shiftl_mul_pow2 by lia.
  assert (2 ^ k ≤ 2 ^ 16) by (apply Z.pow_le_mono_r; lia).
  assert (0 < 2 ^ k) by (apply Z.pow_pos_nonneg; lia).
  apply ToInt32_small. nia.
Qed.

(** The top byte of a 32-bit word, shifted into place and read as a
    signed number. *)
Lemma shl_byte_24 b :
  0 ≤ b < 256 → JS.shl b 24 = Z.shiftl (if b <? 128 then b else b - 256) 24.
Proof.
  intros Hb. unfold JS.shl.
  rewrite shift_count_small, (ToInt32_small b), !Z.shiftl_mul_pow2 by lia.
  destruct (b <? 128) eqn:Hlt.
  - apply Z.ltb_lt in Hlt. apply ToInt32_small. lia.
  - apply Z.ltb_ge in Hlt. unfold JS.ToInt32. cbv zeta.
    rewrite Z.mod_small by lia.
    replace (b * 2 ^ 24 <? 2 ^ 31) with false by (symmetry; apply Z.ltb_ge; lia). lia.
Qed.

Lemma word16 b1 b2 :
  0 ≤ b1 < 256 → 0 ≤ b2 < 256 → JS.or b1 (JS.shl b2 8) = b1 + 256 * b2.
Proof.
  intros H1 H2. unfold JS.or. rewrite shl_byte by lia.
  rewrite !ToInt32_small by lia.
  rewrite <- Z.shiftl_mul_pow2, lor_shiftl_add by lia. lia.
Qed.

Lemma word24 b1 b2 b3 :
  0 ≤ b1 < 256 → 0 ≤ b2 < 256 → 0 ≤ b3 < 256 →
  JS.or (JS.or b1 (JS.shl b2 8)) (JS.shl b3 16) = b1 + 256 * b2 + 65536 * b3.
Proof.
  intros H1 H2 H3. rewrite word16 by done. unfold JS.or. rewrite shl_byte by lia.
  rewrite !ToInt32_small by lia.
  rewrite <- Z.shiftl_mul_pow2, lor_shiftl_add by lia. lia.
Qed.

Lemma word32 b1 b2 b3 b4 :
  0 ≤ b1 < 256 → 0 ≤ b2 < 256 → 0 ≤ b3 < 256 → 0 ≤ b4 < 256 →
  JS.or (JS.or (JS.or b1 (JS.shl b2 8)) (JS.shl b3 16)) (JS.shl b4 24)
  = twos_complement 32 (b1 + 256 * b2 + 65536 * b3 + 16777216 * b4).
Proof.
  intros H1 H2 H3 H4. rewrite word24 by done. unfold JS.or.
  rewrite shl_byte_24 by done.
  rewrite (ToInt32_small (b1 + _ + _)) by lia.
  rewrite (ToInt32_small (Z.shiftl _ 24))
    by (rewrite Z.shiftl_mul_pow2 by lia; case_match; lia).
  rewrite lor_shiftl_add by lia.
  unfold twos_complement. change (2 ^ (32 - 1)) with 2147483648.
  destruct (b4 <? 128) eqn:Hlt; [apply Z.ltb_lt in Hlt|apply Z.ltb_ge in Hlt].
  - replace (_ <? 2147483648) with true by (symmetry; apply Z.ltb_lt; lia). lia.
  - replace (_ <? 2147483648) with false by (symmetry; apply Z.ltb_ge; lia). lia.
Qed.

Lemma read2 s b1 b2 :
  bytes_at s [b1; b2] →
  readByte s = (JNum b1, set_pos s (pos s + 1))
  ∧ readByte (set_pos s (pos s + 1)) = (JNum b2, set_pos s (pos s + 2)).
Proof.
  intros Hb. apply bytes_at_cons in Hb as [Hr1 Hb].
  apply bytes_at_cons in Hb as [Hr2 _]. split; [done|].
  rewrite Hr2. f_equal. destruct s as [d st en ef p]. unfold set_pos. cbn. f_equal. lia.
Qed.

End LittleEndian.

(** X3. With two bytes in front of [end], [readU16] returns the
    little-endian word [b1 + 256·b2], [readS16] returns that word read
    as a 16-bit two's-complement number, and both advance by two bytes.
    With four bytes, [readU32] returns the little-endian word read as a
    32-bit two's-complement number, so a word with the top bit set comes
    back negative, and advances by four. *)
Theorem little_endian_reads (s : ArrayDataStream) (b1 b2 b3 b4 : Z) :
  bytes_ok [b1; b2; b3; b4] →
  (bytes_at s [b1; b2] →
   readU16 s = (b1 + 256 * b2, set_pos s (pos s + 2))
   ∧ readS16 s = (JNum (twos_complement 16 (b1 + 256 * b2)), set_pos s (pos s + 2)))
  ∧ (bytes_at s [b1; b2; b3; b4] →
     readU32 s
     = (twos_complement 32 (b1 + 256 * b2 + 65536 * b3 + 16777216 * b4),
        set_pos s (pos s + 4))).
Proof.
  intros Hok. unfold bytes_ok in Hok. rewrite !Forall_cons in Hok.
  destruct Hok as (H1 & H2 & H3 & H4 & _).
  split; intros Hbytes.
  - destruct (read2 s b1 b2 Hbytes) as [Hr1 Hr2].
    unfold readU16, readS16, bind, ret. rewrite Hr1. cbn [fst snd]. rewrite Hr2.
    cbn [fst snd num_of]. rewrite word16 by done. split; [done|]. f_equal.
    assert (0 ≤ b1 + 256 * b2 < 2 ^ 16) as Hw by lia.
    exact (signExtend_generic 16 _ ltac:(lia) Hw).
  - apply bytes_at_cons in Hbytes as [Hr1 Hbytes].
    apply bytes_at_cons in Hbytes as [Hr2 Hbytes].
    apply bytes_at_cons in Hbytes as [Hr3 Hbytes].
    apply bytes_at_cons in Hbytes as [Hr4 _].
    unfold readU32, bind, ret. rewrite Hr1. cbn [fst snd]. rewrite Hr2. cbn [fst snd].
    rewrite Hr3. cbn [fst snd]. rewrite Hr4. cbn [fst snd num_of].
    rewrite word32 by done. f_equal.
    destruct s as [d st en ef p]. unfold set_pos. cbn. f_equal. lia.
Qed.

Lemma little_endian_reads_witness :
  let s := new_ArrayDataStream ([0x34; 0x12; 0xff; 0xff] ++ []) None None in
  bytes_ok [0x34; 0x12; 0xff; 0xff]
  ∧ bytes_at s [0x34; 0x12; 0xff; 0xff]
  ∧ readU32 s = (-60876, set_pos s 4).
Proof.
  intros s.
  assert (bytes_ok [0x34; 0x12; 0xff; 0xff]) as Hok by (repeat constructor; lia).
  assert (bytes_at s [0x34; 0x12; 0xff; 0xff]) as Hb by apply bytes_at_new.
  destruct (little_endian_reads s 0x34 0x12 0xff 0xff Hok) as [_ H32].
  split; [exact Hok|]. split; [exact Hb|]. exact (H32 Hb).
Defined.

(** ** Lines, strings and the marker search *)

Section Lines.

Lemma readLine_scan_clear d en : ∀ fuel p i,
  p ≤ i < readLine_scan fuel d en p → is_line_end (data_at d i) = false.
Proof.
  induction fuel as [|fuel IH]; intros p i Hi; cbn [readLine_scan] in Hi; [lia|].
  destruct ((p <? en) && negb (is_line_end (data_at d p))) eqn:Hc; [|lia].
  apply andb_true_iff in Hc as [_ Hc]. apply negb_true_iff in Hc.
  destruct (Z.eq_dec i p) as [->|Hne]; [done|]. apply (IH (p + 1)). lia.
Qed.

Lemma readLine_scan_fixed d en fuel p :
  (p <? en) && negb (is_line_end (data_at d p)) = false →
  readLine_scan fuel d en p = p.
Proof. intros Hc. destruct fuel; cbn [readLine_scan]; [done|]. by rewrite Hc. Qed.

Lemma string_of_codes_length l : String.length (string_of_codes l) = length l.
Proof.
  unfold string_of_codes.
  induction l as [|c l IH]; cbn [foldr String.length length]; [done|]. by rewrite IH.
Qed.

Lemma subarray_length d b e :
  0 ≤ b ≤ e → e ≤ Z.of_nat (length d) → length (subarray d b e) = Z.to_nat (e - b).
Proof.
  intros Hb He. unfold subarray. cbv zeta.
  replace (b <? 0) with false by (symmetry; apply Z.ltb_ge; lia).
  replace (e <? 0) with false by (symmetry; apply Z.ltb_ge; lia).
  rewrite !Z.min_l by lia. rewrite length_take, length_drop. lia.
Qed.

Lemma subarray_empty d b : subarray d b b = [].
Proof. unfold subarray. cbv zeta. by rewrite Z.sub_diag. Qed.

End Lines.

(** X4. [readLine] on a stream within its bounds stops at the first byte
    that is a line feed or a zero, or at [end]: the position it leaves
    is in [[pos, end]], no byte in front of it is a line end, and it is
    [end] or the position of a line end.  The line has one character per
    byte passed.  The terminator is not consumed, so a second [readLine]
    returns the empty string and stays where it is. *)
Theorem readLine_stops_at_terminator (s : ArrayDataStream) :
  stream_inv s → 0 ≤ start s →
  let q := pos (readLine s).2 in
  pos s ≤ q ≤ end_ s
  ∧ (∀ i, pos s ≤ i < q → is_line_end (data_at (data s) i) = false)
  ∧ (q < end_ s → is_line_end (data_at (data s) q) = true)
  ∧ String.length (readLine s).1 = Z.to_nat (q - pos s)
  ∧ readLine (readLine s).2 = (EmptyString, (readLine s).2).
Proof.
  intros (Hst & Hpe & Hlen) H0. cbv zeta.
  set (q := readLine_scan (Z.to_nat (end_ s - pos s)) (data s) (end_ s) (pos s)).
  assert (readLine s = (string_of_codes (subarray (data s) (pos s) q), set_pos s q)) as ->
    by reflexivity.
  cbn [fst snd pos set_pos].
  pose proof (readLine_scan_bounds (data s) (end_ s) (Z.to_nat (end_ s - pos s)) (pos s))
    as [Hq1 Hq2]. fold q in Hq1, Hq2. specialize (Hq2 Hpe).
  pose proof (readLine_scan_stops (data s) (end_ s) (Z.to_nat (end_ s - pos s)) (pos s)
                ltac:(lia)) as Hstop. cbv zeta in Hstop. fold q in Hstop.
  split_and?; try lia.
  - intros i Hi. by eapply readLine_scan_clear.
  - intros Hlt. apply andb_false_iff in Hstop as [Hc|Hc].
    + apply Z.ltb_ge in Hc. lia.
    + by apply negb_false_iff in Hc.
  - rewrite string_of_codes_length, subarray_length; lia.
  - unfold readLine. cbn [data end_ pos set_pos fst snd].
    rewrite readLine_scan_fixed by done.
    rewrite subarray_empty. cbn. f_equal.
Qed.

Lemma readLine_stops_at_terminator_witness :
  let s := new_ArrayDataStream [72; 32; 80; 10; 73] None None in
  stream_inv s ∧ 0 ≤ start s
  ∧ pos (readLine s).2 = 3
  ∧ readLine (readLine s).2 = (EmptyString, (readLine s).2).
Proof.
  intros s.
  assert (stream_inv s) as Hinv by (unfold stream_inv; cbn; lia).
  assert (0 ≤ start s) as H0 by (cbn; lia).
  destruct (readLine_stops_at_terminator s Hinv H0) as (_ & _ & _ & _ & Hidem).
  split; [exact Hinv|]. split; [exact H0|]. split; [reflexivity|exact Hidem].
Defined.

Section Strings.

Lemma char_of_code_fromCharCode b : char_of_code (fromCharCode (JNum b)) = char_of_code b.
Proof.
  unfold char_of_code, fromCharCode. cbn [num_of]. do 2 f_equal.
  apply Z.mod_mod_divide. exists 256. reflexivity.
Qed.

Lemma readString_bytes : ∀ l s,
  bytes_at s l →
  readString (length l) s = (string_of_codes l, set_pos s (pos s + Z.of_nat (length l))).
Proof.
  induction l as [|b l IH]; intros s Hb; cbn [readString length].
  - unfold ret. cbn. f_equal. destruct s as [d st en ef p]. unfold set_pos. cbn. f_equal. lia.
  - destruct Hb as [Hlen Hat]. cbn [length] in Hlen.
    assert (bytes_at (set_pos s (pos s + 1)) l) as Hb'.
    { split; cbn; [lia|]. intros k c Hk. rewrite <- (Hat (S k) c Hk). f_equal. lia. }
    unfold bind at 1. unfold readChar at 1 2.
    replace (pos s <? end_ s) with true by (symmetry; apply Z.ltb_lt; lia).
    cbn [fst snd]. unfold bind. rewrite (IH _ Hb'). cbn [fst snd ret].
    specialize (Hat 0%nat b eq_refl). rewrite Z.add_0_r in Hat. rewrite Hat.
    cbn [render_char string_of_codes foldr]. rewrite char_of_code_fromCharCode.
    f_equal. destruct s as [d st en ef p]. unfold set_pos. cbn. f_equal. lia.
Qed.

Lemma readString_past_end : ∀ n s,
  end_ s ≤ pos s →
  String.length (readString n s).1 = (2 * n)%nat
  ∧ (readString n s).2 = (if n is O then s else set_eof s true).
Proof.
  induction n as [|n IH]; intros s Hp; cbn [readString]; [done|].
  assert (readChar s = (CEOF, set_eof s true)) as Hrc.
  { unfold readChar. by replace (pos s <? end_ s) with false by (symmetry; apply Z.ltb_ge; lia). }
  unfold bind. rewrite Hrc. cbn [fst snd].
  destruct (IH (set_eof s true) Hp) as [Hl Hs].
  destruct (readString n (set_eof s true)) as [rest s'].
  cbn [fst snd ret render_char] in *.
  split.
  - change ("-1" +:+ rest)%string with (String "-" (String "1" rest)).
    cbn [String.length]. lia.
  - rewrite Hs. by destruct n.
Qed.

End Strings.

(** X5. [readString(n)] with [n] bytes in front of [end] returns those bytes
    as characters and advances by [n].  At or behind [end] nothing is
    read: each of the [n] missing characters is rendered as the two
    characters of -1, the position stays and the end-of-file flag is
    raised. *)
Theorem readString_reads_or_pads (s : ArrayDataStream) (l : list Z) (n : nat) :
  (bytes_at s l →
   readString (length l) s = (string_of_codes l, set_pos s (pos s + Z.of_nat (length l))))
  ∧ (end_ s ≤ pos s →
     String.length (readString n s).1 = (2 * n)%nat
     ∧ (readString n s).2 = (if n is O then s else set_eof s true)).
Proof. split; [apply readString_bytes|apply readString_past_end]. Qed.

Lemma readString_reads_or_pads_witness :
  let s := new_ArrayDataStream ([69; 110; 100] ++ []) None None in
  bytes_at s [69; 110; 100]
  ∧ readString 3 s = ("End"%string, set_pos s 3)
  ∧ (readString 2 (set_pos s 3)).1 = "-1-1"%string.
Proof.
  intros s.
  assert (bytes_at s [69; 110; 100]) as Hb by apply bytes_at_new.
  destruct (readString_reads_or_pads s [69; 110; 100] 0) as [H _].
  split; [exact Hb|]. split; [exact (H Hb)|reflexivity].
Defined.

(** X6. [nextOffsetOf] never moves the stream.  For a non-empty needle it
    returns the first offset in [[pos, end - len(needle)]] at which the
    needle occurs, or -1 when it occurs nowhere in that range; an empty
    needle is never found. *)
Theorem nextOffsetOf_first_occurrence (needle : list Z) (s : ArrayDataStream) :
  let r := (nextOffsetOf needle s).1 in
  (nextOffsetOf needle s).2 = s
  ∧ (needle = [] → r = -1)
  ∧ (needle ≠ [] →
     (r = -1 ∧ ∀ k, pos s ≤ k ≤ end_ s - Z.of_nat (length needle) →
                    ¬ occurs_at (data s) needle k)
     ∨ (pos s ≤ r ≤ end_ s - Z.of_nat (length needle)
        ∧ 0 ≤ r
        ∧ occurs_at (data s) needle r
        ∧ ∀ k, pos s ≤ k < r → ¬ occurs_at (data s) needle k)).
Proof.
  cbv zeta. unfold nextOffsetOf. cbn [fst snd]. split; [done|]. split.
  - intros ->. apply nextOffsetOf_loop_empty.
  - intros Hne.
    destruct (nextOffsetOf_loop_spec (data s) needle (end_ s)
                (Z.to_nat (end_ s - Z.of_nat (length needle) - pos s + 1)) (pos s) Hne
                ltac:(lia)) as [Hnone|(Hr & Hocc & Hfirst)]; [by left|].
    right. split; [done|]. split; [by eapply (occurs_at_nonneg (data s) needle)|]. done.
Qed.

Lemma nextOffsetOf_first_occurrence_witness :
  let s := new_ArrayDataStream [0; 72; 32; 72; 32] None None in
  [72; 32] ≠ []
  ∧ (nextOffsetOf [72; 32] s).1 = 1
  ∧ occurs_at (data s) [72; 32] 1.
Proof.
  intros s.
  destruct (nextOffsetOf_first_occurrence [72; 32] s) as (_ & _ & H).
  assert ([72; 32] ≠ @nil Z) as Hne by done.
  split; [exact Hne|]. split; [reflexivity|].
  destruct (H Hne) as [[Hr _]|(_ & _ & Hocc & _)]; [discriminate Hr|exact Hocc].
Defined.

(** ** The searches of utils/Utils.ts and test/Utils.ts *)

Section FrameSearchFacts.

Variable T : nat.
Variable frames : list (list Z).
Variable time : Z.

(** The loop returns an index of the interval it is given, never
    throws, and on frames in ascending order of time it keeps the times
    in front of [low] at most [time] and those from [high] on above it. *)
Lemma firstIndexLargerThanTime_loop_spec : ∀ fuel low high,
  0 ≤ low ≤ high → high ≤ Z.of_nat (length frames) → high - low < Z.of_nat fuel →
  ∃ i, firstIndexLargerThanTime_loop T fuel frames time low high = Some (Returned i)
       ∧ low ≤ i ≤ high
       ∧ ∀ ts, frame_times T frames ts → StronglySorted Z.le ts →
           (∀ (j : nat) t, ts !! j = Some t → Z.of_nat j < low → t ≤ time) →
           (∀ (j : nat) t, ts !! j = Some t → high ≤ Z.of_nat j → time < t) →
           ∀ (j : nat) t, ts !! j = Some t → (Z.of_nat j < i ↔ t ≤ time).
Proof.
  induction fuel as [|fuel IH]; intros low high Hlow Hhigh Hfuel; [lia|].
  cbn [firstIndexLargerThanTime_loop].
  destruct (low <? high) eqn:Hlt.
  - apply Z.ltb_lt in Hlt. pose proof (midpoint_bounds low high Hlt) as Hmid.
    cbv zeta. set (mid := (low + high) `div` 2) in *.
    replace (mid <? 0) with false by (symmetry; apply Z.ltb_ge; lia).
    destruct (lookup_lt_is_Some_2 frames (Z.to_nat mid)) as [frame Hframe]; [lia|].
    rewrite Hframe.
    destruct (js_le (data_at frame (Z.of_nat T)) time) eqn:Hle.
    + destruct (IH (mid + 1) high ltac:(lia) Hhigh ltac:(lia)) as (i & Hi & Hb & Hsorted).
      exists i. split; [done|]. split; [lia|].
      intros ts Hft Hs Hl Hh. apply (Hsorted ts Hft Hs); [|done].
      intros j t Hj Hjm.
      destruct (Forall2_lookup_l _ _ _ _ _ Hft Hframe) as (tm & Htm & Hat).
      rewrite Hat in Hle. cbn [js_le] in Hle. apply Z.leb_le in Hle.
      pose proof (StronglySorted_le_lookup ts Hs j (Z.to_nat mid) t tm Hj Htm ltac:(lia)).
      lia.
    + destruct (IH low mid ltac:(lia) ltac:(lia) ltac:(lia)) as (i & Hi & Hb & Hsorted).
      exists i. split; [done|]. split; [lia|].
      intros ts Hft Hs Hl Hh. apply (Hsorted ts Hft Hs); [done|].
      intros j t Hj Hjm.
      destruct (Forall2_lookup_l _ _ _ _ _ Hft Hframe) as (tm & Htm & Hat).
      rewrite Hat in Hle. cbn [js_le] in Hle. apply Z.leb_gt in Hle.
      pose proof (StronglySorted_le_lookup ts Hs (Z.to_nat mid) j tm t Htm Hj ltac:(lia)).
      lia.
  - apply Z.ltb_ge in Hlt. exists low. split; [done|]. split; [lia|].
    intros ts Hft Hs Hl Hh j t Hj. split.
    + intros Hjl. by apply (Hl j).
    + intros Ht. destruct (Z_lt_dec (Z.of_nat j) low) as [|Hge]; [done|].
      specialize (Hh j t Hj ltac:(lia)). lia.
Qed.

End FrameSearchFacts.

(** X7. [firstIndexLargerThanTime] returns for every array of frames (it
    never reads outside the array, and the loop ends) an index in
    [[0, length]].  When the frames are in ascending order of time, the
    index splits them: exactly the frames in front of it have a time
    that is at most [time], so it is the first index with a larger time,
    or the length when there is none. *)
Theorem firstIndexLargerThanTime_partition (T : nat) (frames : list (list Z)) (time : Z) :
  ∃ i, firstIndexLargerThanTime T frames time = Some (Returned i)
       ∧ 0 ≤ i ≤ Z.of_nat (length frames)
       ∧ ∀ ts, frame_times T frames ts → StronglySorted Z.le ts →
           ∀ (j : nat) t, ts !! j = Some t → (Z.of_nat j < i ↔ t ≤ time).
Proof.
  destruct (firstIndexLargerThanTime_loop_spec T frames time (S (length frames)) 0
              (Z.of_nat (length frames))) as (i & Hi & Hb & Hsorted); [lia..|].
  exists i. split; [done|]. split; [done|].
  intros ts Hft Hs. apply (Hsorted ts Hft Hs).
  - intros j t _ Hj. lia.
  - intros j t Hj Hge. apply lookup_lt_Some in Hj.
    apply Forall2_length in Hft. lia.
Qed.

Lemma firstIndexLargerThanTime_partition_witness :
  let frames := [[0; 10]; [1; 20]; [2; 20]; [3; 40]] in
  frame_times 1 frames [10; 20; 20; 40]
  ∧ StronglySorted Z.le [10; 20; 20; 40]
  ∧ firstIndexLargerThanTime 1 frames 20 = Some (Returned 3).
Proof.
  intros frames.
  assert (frame_times 1 frames [10; 20; 20; 40]) as Hft by (repeat constructor).
  assert (StronglySorted Z.le [10; 20; 20; 40]) as Hs by (repeat constructor; lia).
  split; [exact Hft|]. split; [exact Hs|].
  destruct (firstIndexLargerThanTime_partition 1 frames 20) as (i & Hi & _ & Hsplit).
  pose proof (proj2 (Hsplit _ Hft Hs 2%nat 20 eq_refl) ltac:(lia)) as H2.
  pose proof (Hsplit _ Hft Hs 3%nat 40 eq_refl) as H3.
  assert (i = 3) as Hi3 by lia.
  rewrite <- Hi3. exact Hi.
Defined.

Section BinarySearchNext.

Variable lst : list Z.
Variable item : Z.

(** On a list in ascending order the loop of [binarySearchOrNext] keeps
    every element in front of [min] below the item and every element
    from [max] on above it, and [result] is [max] once [max] has moved. *)
Lemma binarySearchOrNext_loop_sorted :
  StronglySorted Z.le lst →
  ∀ fuel min max result i,
  0 ≤ min ≤ max → max ≤ Z.of_nat (length lst) →
  (∀ (j : nat) a, lst !! j = Some a → Z.of_nat j < min → a < item) →
  (∀ (j : nat) a, lst !! j = Some a → max ≤ Z.of_nat j → item < a) →
  (max = Z.of_nat (length lst) ∨ result = max) →
  binarySearchOrNext_loop fuel lst item min max result = Some i →
  lst !! Z.to_nat i = Some item
  ∨ (∀ (j : nat) a, lst !! j = Some a → a < item)
  ∨ (∃ v, 0 ≤ i ∧ lst !! Z.to_nat i = Some v ∧ item < v
          ∧ ∀ (j : nat) a, lst !! j = Some a → Z.of_nat j < i → a < item).
Proof.
  intros Hsorted.
  induction fuel as [|fuel IH]; intros min max result i Hmin Hmax Hlow Hhigh Hres Hloop;
    [done|].
  cbn [binarySearchOrNext_loop] in Hloop.
  destruct (min <? max) eqn:Hlt.
  - apply Z.ltb_lt in Hlt. pose proof (midpoint_bounds min max Hlt) as Hmid.
    cbv zeta in Hloop. set (mid := (min + max) `div` 2) in *.
    destruct (data_at_in_range lst mid ltac:(lia)) as (v & Hv & Hat).
    rewrite Hat in Hloop. cbn [loose_eq js_gt] in Hloop.
    destruct (v =? item) eqn:Heq.
    { apply Z.eqb_eq in Heq. injection Hloop as <-. left. by rewrite Hv, Heq. }
    apply Z.eqb_neq in Heq.
    destruct (item <? v) eqn:Hvgt.
    + apply Z.ltb_lt in Hvgt.
      apply (IH min mid mid i); [lia|lia|done| |by right|done].
      intros j a Hj Hjm.
      pose proof (StronglySorted_le_lookup lst Hsorted (Z.to_nat mid) j v a Hv Hj ltac:(lia)).
      lia.
    + apply Z.ltb_ge in Hvgt.
      apply (IH (mid + 1) max result i); [lia|done| |done|done|done].
      intros j a Hj Hjm.
      pose proof (StronglySorted_le_lookup lst Hsorted j (Z.to_nat mid) a v Hj Hv ltac:(lia)).
      lia.
  - apply Z.ltb_ge in Hlt. injection Hloop as <-.
    destruct (Z.eq_dec max (Z.of_nat (length lst))) as [Hz|Hnz].
    + right. left. intros j a Hj. apply (Hlow j a Hj).
      apply lookup_lt_Some in Hj. lia.
    + destruct Hres as [Hm| ->]; [done|].
      right. right.
      destruct (data_at_in_range lst max ltac:(lia)) as (v & Hv & _).
      exists v. split; [lia|]. split; [done|]. split.
      * apply (Hhigh (Z.to_nat max) v Hv). lia.
      * intros j a Hj Hjr. apply (Hlow j a Hj). lia.
Qed.

End BinarySearchNext.

(** X8. On a list in ascending order in which some element is not smaller
    than the item, [binarySearchOrNext] returns the index of the item
    or, when the item is absent, of the smallest element larger than
    it. *)
Theorem binarySearchOrNext_sorted (lst : list Z) (item : Z) :
  StronglySorted Z.le lst →
  ¬ (∀ x, x ∈ lst → x < item) →
  ∃ n v, binarySearchOrNext lst item = Some n
         ∧ 0 ≤ n
         ∧ lst !! Z.to_nat n = Some v
         ∧ (v = item ∨ (item < v ∧ ∀ w, w ∈ lst → item < w → v ≤ w)).
Proof.
  intros Hsorted Hnot.
  destruct (binarySearchOrNext_loop_bounds lst item (S (length lst)) 0
              (Z.of_nat (length lst)) (Z.of_nat (length lst) - 1))
    as (n & Hn & Hnb & _); [lia..|].
  destruct (binarySearchOrNext_loop_sorted lst item Hsorted (S (length lst)) 0
              (Z.of_nat (length lst)) (Z.of_nat (length lst) - 1) n)
    as [Hfound|[Hall|(v & Hn0 & Hv & Hgt & Hfirst)]].
  { lia. }
  { lia. }
  { intros j a _ Hj. lia. }
  { intros j a Hj Hge. apply lookup_lt_Some in Hj. lia. }
  { by left. }
  { done. }
  - assert (0 ≤ n) as Hn0.
    { destruct Hnb as [->|?]; [|lia].
      destruct lst; [|simpl; lia]. exfalso. apply Hnot. intros x Hx. by apply elem_of_nil in Hx. }
    exists n, item. split; [done|]. split; [done|]. split; [done|by left].
  - exfalso. apply Hnot. intros x Hx.
    apply list_elem_of_lookup in Hx as [j Hj]. by apply (Hall j).
  - exists n, v. split; [done|]. split; [done|]. split; [done|]. right. split; [done|].
    intros w Hw Hwgt. apply list_elem_of_lookup in Hw as [j Hj].
    destruct (Z_lt_dec (Z.of_nat j) n) as [Hjn|Hjn].
    + specialize (Hfirst j w Hj Hjn). lia.
    + apply (StronglySorted_le_lookup lst Hsorted (Z.to_nat n) j v w Hv Hj). lia.
Qed.

Lemma binarySearchOrNext_sorted_witness :
  StronglySorted Z.le [10; 20; 30]
  ∧ ¬ (∀ x, x ∈ [10; 20; 30] → x < 15)
  ∧ ∃ n v, binarySearchOrNext [10; 20; 30] 15 = Some n
           ∧ [10; 20; 30] !! Z.to_nat n = Some v
           ∧ (v = 15 ∨ 15 < v).
Proof.
  assert (StronglySorted Z.le [10; 20; 30]) as Hs by (repeat constructor; lia).
  assert (¬ (∀ x, x ∈ [10; 20; 30] → x < 15)) as Hnot.
  { intros H. specialize (H 20 ltac:(set_solver)). lia. }
  split; [exact Hs|]. split; [exact Hnot|].
  destruct (binarySearchOrNext_sorted [10; 20; 30] 15 Hs Hnot)
    as (n & v & Hn & _ & Hv & Hcase).
  exists n, v. split; [exact Hn|]. split; [exact Hv|].
  destruct Hcase as [?|[? _]]; [by left|by right].
Defined.

(** X9. [constrain] returns a value between the bounds, and the value itself
    when it lies between them; with the bounds the wrong way round it
    returns [min]. *)
Theorem constrain_clamps (value min max : Z) :
  (min ≤ max →
   min ≤ constrain value min max ≤ max
   ∧ (min ≤ value ≤ max → constrain value min max = value)
   ∧ constrain (constrain value min max) min max = constrain value min max)
  ∧ (max < min → constrain value min max = min).
Proof. unfold constrain. lia. Qed.

Lemma constrain_clamps_witness :
  1000 ≤ 2000 ∧ constrain 2500 1000 2000 = 2000 ∧ constrain 1500 1000 2000 = 1500.
Proof.
  destruct (constrain_clamps 1500 1000 2000) as [H _].
  assert (1000 ≤ 2000) as Hle by lia.
  destruct (H Hle) as (_ & Hid & _).
  split; [exact Hle|]. split; [reflexivity|]. apply Hid. lia.
Defined.

Section TestUtilsFacts.

Import TestUtils.

Variable lst : list Z.
Variable searched : Z.

Lemma index_from_spec : ∀ rest k,
  0 ≤ k →
  (index_from rest searched k = -1 ∧ ∀ n : nat, rest !! n ≠ Some searched)
  ∨ (∃ n : nat, index_from rest searched k = k + Z.of_nat n
                ∧ rest !! n = Some searched
                ∧ ∀ m : nat, (m < n)%nat → rest !! m ≠ Some searched).
Proof.
  induction rest as [|y rest IH]; intros k Hk; cbn [index_from].
  - left. split; [done|]. intros n. by rewrite lookup_nil.
  - destruct (y =? searched) eqn:Heq.
    + apply Z.eqb_eq in Heq. subst y. right. exists 0%nat.
      split; [lia|]. split; [done|]. intros m Hm. lia.
    + apply Z.eqb_neq in Heq.
      destruct (IH (k + 1) ltac:(lia)) as [[Hr Hnone]|(n & Hr & Hn & Hfirst)].
      * left. split; [done|]. intros [|n]; cbn; [congruence|apply Hnone].
      * right. exists (S n). split; [lia|]. split; [done|].
        intros [|m] Hm; cbn; [congruence|]. apply Hfirst. lia.
Qed.

Lemma indexOf_spec startIndex :
  0 ≤ startIndex →
  (indexOf lst searched startIndex = -1
   ∧ ∀ j : nat, startIndex ≤ Z.of_nat j → lst !! j ≠ Some searched)
  ∨ (∃ r : nat, indexOf lst searched startIndex = Z.of_nat r
                ∧ startIndex ≤ Z.of_nat r
                ∧ lst !! r = Some searched
                ∧ ∀ j : nat, startIndex ≤ Z.of_nat j → (j < r)%nat →
                             lst !! j ≠ Some searched).
Proof.
  intros Hs. unfold indexOf.
  destruct (index_from_spec (drop (Z.to_nat startIndex) lst) startIndex Hs)
    as [[Hr Hnone]|(n & Hr & Hn & Hfirst)].
  - left. split; [done|]. intros j Hj.
    specialize (Hnone (j - Z.to_nat startIndex)%nat). rewrite lookup_drop in Hnone.
    by replace (Z.to_nat startIndex + (j - Z.to_nat startIndex))%nat with j in Hnone by lia.
  - right. exists (Z.to_nat startIndex + n)%nat. rewrite lookup_drop in Hn.
    split; [lia|]. split; [lia|]. split; [done|].
    intros j Hj Hjr.
    specialize (Hfirst (j - Z.to_nat startIndex)%nat ltac:(lia)). rewrite lookup_drop in Hfirst.
    by replace (Z.to_nat startIndex + (j - Z.to_nat startIndex))%nat with j in Hfirst by lia.
Qed.

Lemma test_allIndicesOf_loop_spec : ∀ fuel startIndex indices,
  0 ≤ startIndex ≤ Z.of_nat (length lst) →
  Z.of_nat (length lst) - startIndex < Z.of_nat fuel →
  ∃ found,
    allIndicesOf_loop fuel lst searched startIndex indices = Some (indices ++ found)
    ∧ StronglySorted Z.lt found
    ∧ ∀ i, i ∈ found ↔ startIndex ≤ i ∧ lst !! Z.to_nat i = Some searched.
Proof.
  induction fuel as [|fuel IH]; intros startIndex indices Hs Hfuel; [lia|].
  cbn [allIndicesOf_loop].
  destruct (startIndex <? Z.of_nat (length lst)) eqn:Hlt.
  - apply Z.ltb_lt in Hlt.
    destruct (indexOf_spec startIndex ltac:(lia)) as [[Hr Hnone]|(r & Hr & Hsr & Hat & Hfirst)].
    + rewrite Hr. cbn. exists []. rewrite app_nil_r. split; [done|]. split; [constructor|].
      intros i. split; [by intros ?%elem_of_nil|]. intros [Hi Hl].
      exfalso. apply (Hnone (Z.to_nat i)); [lia|done].
    + rewrite Hr. replace (Z.of_nat r =? -1) with false by (symmetry; apply Z.eqb_neq; lia).
      pose proof (lookup_lt_Some _ _ _ Hat) as Hrlen.
      destruct (IH (Z.of_nat r + 1) (indices ++ [Z.of_nat r]) ltac:(lia) ltac:(lia))
        as (found & Hloop & Hsorted & Hmem).
      exists (Z.of_nat r :: found). split; [by rewrite Hloop, <- app_assoc|]. split.
      * constructor; [done|]. apply Forall_forall. intros i Hi. apply Hmem in Hi. lia.
      * intros i. rewrite elem_of_cons, Hmem. split.
        -- intros [->|[Hi Hl]]; [by rewrite Nat2Z.id|]. split; [lia|done].
        -- intros [Hi Hl]. destruct (Z.eq_dec i (Z.of_nat r)) as [|Hne]; [by left|]. right.
           split; [|done].
           destruct (Z_lt_dec i (Z.of_nat r)) as [Hir|]; [|lia].
           exfalso. apply (Hfirst (Z.to_nat i)); [lia|lia|done].
  - apply Z.ltb_ge in Hlt. exists []. rewrite app_nil_r. split; [done|].
    split; [constructor|]. intros i. split; [by intros ?%elem_of_nil|]. intros [Hi Hl].
    apply lookup_lt_Some in Hl. lia.
Qed.

End TestUtilsFacts.

(** X10. [allIndicesOf(list, searched)] of the test utilities returns, for
    every list, exactly the indices at which [searched] stands, in
    strictly increasing order. *)
Theorem test_allIndicesOf_exact (lst : list Z) (searched : Z) :
  ∃ indices,
    TestUtils.allIndicesOf lst searched = Some indices
    ∧ StronglySorted Z.lt indices
    ∧ ∀ i, i ∈ indices ↔ 0 ≤ i ∧ lst !! Z.to_nat i = Some searched.
Proof.
  destruct (test_allIndicesOf_loop_spec lst searched (S (length lst)) 0 [])
    as (found & Hloop & Hsorted & Hmem); [lia..|].
  exists found. by split.
Qed.

(** ** The directory of a sub-log *)

Section Directory.

Variable LOG_END : Z.
Context {stats_t : Type}.

Local Abbreviation frameReady := (onFrameReady LOG_END (stats_t := stats_t)).

Lemma mark_true_length (l : list bool) (i : nat) :
  length (mark_true l i) = (length l `max` S i)%nat.
Proof.
  unfold mark_true. destruct (i <? length l)%nat eqn:Hi.
  - apply Nat.ltb_lt in Hi. rewrite length_insert. lia.
  - apply Nat.ltb_ge in Hi. rewrite !length_app, length_replicate. cbn. lia.
Qed.

Lemma onFrameReady_shape motorFields (st : index_pass stats_t) (c : Z) (fr : frame_ready) :
  0 ≤ c →
  directory_shape motorFields st c →
  directory_shape motorFields (frameReady motorFields st fr)
                  (c + (if valid_intra_frame fr then 1 else 0)).
Proof.
  intros Hc Hshape.
  pose proof Hshape as (Hcount & Htimes & Hoff & Hev & (l & Hslow & Hl) & Havg).
  destruct fr as [v intra frame off|v event|v frame|v]; cbn [onFrameReady valid_intra_frame].
  - destruct v; cbn [negb andb]; [|by rewrite Z.add_0_r].
    destruct intra.
    + rewrite Hcount. destruct (c `mod` 4 =? 0) eqn:Hmod.
      * apply Z.eqb_eq in Hmod. unfold directory_shape. cbn.
        rewrite Hslow. cbn. rewrite !length_app. cbn.
        split_and?; try lia.
        -- Z.div_mod_to_equations. lia.
        -- eexists. split; [done|]. rewrite length_app. cbn. lia.
        -- destruct motorFields; cbn; [done|]. rewrite length_app. cbn. lia.
      * apply Z.eqb_neq in Hmod. unfold directory_shape. cbn.
        split_and?; try done; try lia.
        -- Z.div_mod_to_equations. lia.
        -- eauto.
    + rewrite Z.add_0_r. unfold directory_shape. cbn. split_and?; try done. eauto.
  - rewrite Z.add_0_r. destruct v; cbn [negb]; [|done].
    unfold directory_shape. cbn. split_and?; try done; [|eauto].
    destruct (length (times (intraIndex_of st))) as [|k] eqn:Hlen; [done|].
    rewrite mark_true_length. lia.
  - rewrite Z.add_0_r. destruct v; cbn [negb]; [|done].
    unfold directory_shape. cbn. split_and?; try done. eauto.
  - by rewrite Z.add_0_r.
Qed.

Lemma onFrameReady_fold_shape motorFields (frames : list frame_ready) :
  ∀ (st : index_pass stats_t) c,
  0 ≤ c →
  directory_shape motorFields st c →
  directory_shape motorFields (foldl (frameReady motorFields) st frames)
                  (c + Z.of_nat (length (filter (λ fr, valid_intra_frame fr = true) frames))).
Proof.
  induction frames as [|fr frames IH]; intros st c Hc Hshape; cbn [foldl].
  - by rewrite filter_nil, Z.add_0_r.
  - pose proof (onFrameReady_shape motorFields st c fr Hc Hshape) as Hstep.
    rewrite filter_cons. destruct (valid_intra_frame fr) eqn:Hv.
    + rewrite decide_True by done. cbn [length].
      replace (c + Z.of_nat (S (length (filter (λ fr0, valid_intra_frame fr0 = true) frames))))
        with (c + 1 + Z.of_nat (length (filter (λ fr0, valid_intra_frame fr0 = true) frames)))
        by lia.
      apply IH; [lia|done].
    + rewrite decide_False by done. rewrite Z.add_0_r in Hstep. by apply IH.
Qed.

End Directory.

(** X11. [_parseSubLog] returns exactly when the parser answers the calls
    of the pass, whatever the answers are.  The directory it returns has
    one entry for every fourth valid I-frame the callback was given,
    starting with the first: [times] has [ceil(n / 4)] entries for [n]
    valid I-frames, [offsets] has as many, [initialSlow] (when it is
    kept) too, [avgThrottle] has as many or is empty (when the main
    frames have no motor field), and [hasEvent] has at most as many. *)
Theorem parseSubLog_directory_shape (LOG_END : Z) {sysConfig_t stats_t : Type}
    (parser : parser_id) (offs : list Z) (i : nat) (w : world sysConfig_t stats_t) :
  match _parseSubLog LOG_END parser offs i w with
  | None => next_pass (answers w) = None
  | Some (d, w') =>
      ∃ p, next_pass (answers w) = Some (p, answers w')
           ∧ let n := Z.of_nat (length (filter (λ fr, valid_intra_frame fr = true)
                                               (frames_seen p))) in
             Z.of_nat (length (times d)) = (n + 3) `div` 4
             ∧ length (offsets d) = length (times d)
             ∧ (length (hasEvent d) ≤ length (times d))%nat
             ∧ (∀ l, initialSlow d = Some l → length l = length (times d))
             ∧ (avgThrottle d = [] ∨ length (avgThrottle d) = length (times d))
  end.
Proof.
  pose proof (parseSubLog_fields LOG_END parser offs i w) as Hfields.
  destruct (_parseSubLog LOG_END parser offs i w) as [[d w']|]; [|done].
  destruct Hfields as (p & mf & Hp & Hfields). exists p. split; [done|].
  cbv zeta in Hfields |- *.
  pose proof (onFrameReady_fold_shape LOG_END (stats_t := stats_t) mf (frames_seen p)
                (mkPass (mkIntraIndex [] [] [] (Some []) [] None None EmptyString None)
                        0 [] false) 0 ltac:(lia)) as Hshape.
  rewrite Z.add_0_l in Hshape.
  destruct Hshape as (_ & Htimes & Hoff & Hev & (l & Hslow & Hl) & Havg).
  { unfold directory_shape. cbn. split_and?; try done; [by eexists|by destruct mf]. }
  set (st := foldl _ _ (frames_seen p)) in *.
  destruct Hfields as (-> & -> & -> & -> & _ & _ & Hinit).
  split_and?; try done.
  - intros l' Hl'. apply Hinit in Hl'. congruence.
  - destruct mf; [left; by apply nil_length_inv|by right].
Qed.

(** ** The facade: flags, field names and estimates *)

(** X12. A flag of [isFieldDisabled] is the bit of [fields_disabled_mask] at
    its position, whatever the other bits are. *)
Theorem isFieldDisabled_testbit {sysConfig_t : Type} (fields_disabled_mask : sysConfig_t → Z)
    (cfg : sysConfig_t) (bit : Z) :
  0 ≤ bit < 31 →
  isFieldDisabled fields_disabled_mask cfg bit = Z.testbit (fields_disabled_mask cfg) bit.
Proof.
  intros Hbit. unfold isFieldDisabled, JS.and, JS.shl.
  rewrite shift_count_small by lia.
  rewrite (ToInt32_small 1) by lia. rewrite Z.shiftl_1_l.
  assert (2 ^ bit < 2 ^ 31) by (apply Z.pow_lt_mono_r; lia).
  assert (0 < 2 ^ bit) by (apply Z.pow_pos_nonneg; lia).
  rewrite !(ToInt32_small (2 ^ bit)) by lia.
  rewrite land_pow2_testbit by lia. rewrite negb_involutive.
  apply ToInt32_testbit. lia.
Qed.

Lemma isFieldDisabled_testbit_witness :
  0 ≤ 10 < 31
  ∧ MOTORS_disabled (λ _ : unit, 1024 + 5) tt = true
  ∧ GYRO_disabled (λ _ : unit, 1024 + 5) tt = false.
Proof.
  assert (0 ≤ 10 < 31) as H10 by lia.
  assert (0 ≤ 7 < 31) as H7 by lia.
  split; [exact H10|]. split.
  - exact (isFieldDisabled_testbit (λ _ : unit, 1024 + 5) tt 10 H10).
  - exact (isFieldDisabled_testbit (λ _ : unit, 1024 + 5) tt 7 H7).
Defined.


(** X13. [_estimateNumCells] gives 0 when the log has no [vbatLatest] field
    or has it at position 0; otherwise it gives the least [n >= 1] whose
    voltage threshold the reference voltage does not reach, and 8 when
    it reaches the first seven. *)
Theorem estimateNumCells_least {sysConfig_t : Type}
    (cell_voltage_reached : sysConfig_t → Z → bool)
    (m : gmap string nat) (cfg : sysConfig_t) :
  let n := _estimateNumCells cell_voltage_reached m cfg in
  (m !! "vbatLatest"%string = None ∨ m !! "vbatLatest"%string = Some 0%nat → n = 0)
  ∧ (∀ p, m !! "vbatLatest"%string = Some (S p) →
       1 ≤ n ≤ 8
       ∧ (∀ k, 1 ≤ k < n → cell_voltage_reached cfg k = true)
       ∧ (n < 8 → cell_voltage_reached cfg n = false)).
Proof.
  cbv zeta. unfold _estimateNumCells. split.
  - by intros [-> | ->].
  - intros p ->. apply (num_cells_loop_spec cell_voltage_reached cfg 7 1); lia.
Qed.

Lemma estimateNumCells_least_witness :
  let m : gmap string nat := {["vbatLatest"%string := 5%nat]} in
  m !! "vbatLatest"%string = Some 5%nat
  ∧ _estimateNumCells (λ (_ : unit) i, i <? 4) m tt = 4
  ∧ _estimateNumCells (λ (_ : unit) i, i <? 4) {["vbatLatest"%string := 0%nat]} tt = 0.
Proof.
  intros m.
  assert (m !! "vbatLatest"%string = Some 5%nat) as Hm by reflexivity.
  destruct (estimateNumCells_least (λ (_ : unit) i, i <? 4) m tt) as [_ H].
  destruct (H 4%nat Hm) as (Hrange & Hall & Hstop).
  split; [exact Hm|]. split; [|reflexivity].
  cbv zeta in Hrange, Hall, Hstop.
  set (n := _estimateNumCells _ m tt) in *.
  assert (n < 8) as Hn8.
  { destruct (Z_lt_dec n 8); [done|]. specialize (Hall 7 ltac:(lia)). done. }
  specialize (Hstop Hn8). cbv beta in Hstop. apply Z.ltb_ge in Hstop.
  destruct (Z.eq_dec n 4) as [|Hne]; [done|].
  specialize (Hall 4 ltac:(lia)). done.
Defined.

Section FieldNames.

Lemma legacy_motor_names_spec : ∀ n i names,
  ∃ extra, legacy_motor_names n i names = names ++ extra
           ∧ (length extra ≤ n)%nat
           ∧ ∀ (k : nat) x, extra !! k = Some x →
               x = indexed_name "motorLegacy" (i + k)
               ∧ indexed_name "motor" (i + k) ∈ names ++ take k extra.
Proof.
  induction n as [|n IH]; intros i names; cbn [legacy_motor_names].
  - exists []. rewrite app_nil_r. split; [done|]. split; [done|]. intros k x Hk.
    by rewrite lookup_nil in Hk.
  - case_bool_decide as Hin.
    + destruct (IH (S i) (names ++ [indexed_name "motorLegacy" i])) as (extra & Heq & Hlen & Hx).
      exists (indexed_name "motorLegacy" i :: extra).
      split; [by rewrite Heq, <- app_assoc|]. split; [cbn; lia|].
      intros [|k] x Hk; cbn in Hk.
      * injection Hk as <-. rewrite Nat.add_0_r. split; [done|].
        cbn. by rewrite app_nil_r.
      * destruct (Hx k x Hk) as [-> Hmem].
        replace (i + S k)%nat with (S i + k)%nat by lia. split; [done|].
        cbn [take]. by rewrite <- app_assoc in Hmem.
    + exists []. rewrite app_nil_r. split; [done|]. split; [cbn; lia|]. intros k x Hk.
      by rewrite lookup_nil in Hk.
Qed.

End FieldNames.

(** X14. [fieldNameToIndex] as [_buildFieldNames] fills it is a plain
    object.  A name other than [__proto__] has an entry exactly when it
    is among the field names; the entry is a position that holds the
    name, and it is the last such position; so when no name occurs
    twice, every position is the entry of its name.  The name
    [__proto__] never gets an entry.  A read of the table at a name
    gives [undefined] exactly when the name is not among the field names
    and [Object.prototype] does not have it either; at a name without
    an entry that [Object.prototype] has ([constructor], [toString],
    [__proto__], ...) the read gives what is inherited. *)
Theorem fieldNameToIndex_last_position (names : list string) (x : string) :
  let m := index_names names 0 ∅ in
  (is_Some (m !! x) ↔ x ∈ names ∧ x ≠ "__proto__"%string)
  ∧ (∀ i, m !! x = Some i →
       names !! i = Some x ∧ ∀ j, names !! j = Some x → (j ≤ i)%nat)
  ∧ (NoDup names → x ≠ "__proto__"%string →
     ∀ i, names !! i = Some x → m !! x = Some i)
  ∧ (∀ i, getMainFieldIndexByName m x = Index i ↔ m !! x = Some i)
  ∧ (getMainFieldIndexByName m x = Undefined
     ↔ (x ∉ names) ∧ (x ∉ Object_prototype_names))
  ∧ (getMainFieldIndexByName m x = Inherited
     ↔ x ∈ Object_prototype_names ∧ ((x ∉ names) ∨ x = "__proto__"%string)).
Proof.
  cbv zeta.
  assert ("__proto__"%string ∈ Object_prototype_names) as Hproto.
  { unfold Object_prototype_names. rewrite !elem_of_cons. auto 20. }
  assert (∀ o, (index_names names 0 ∅) !! x = o →
               o = None ↔ (x ∉ names) ∨ x = "__proto__"%string) as Hnone.
  { intros o <-. destruct (decide (x = "__proto__"%string)) as [->|Hx].
    - rewrite index_names_proto, lookup_empty. split; [by right|done].
    - destruct (index_names_lookup x Hx names 0 ∅) as [[Hnot Hm]|(k & Hk & Hlast & Hm)];
        rewrite Hm.
      + rewrite lookup_empty. split; [by left|done].
      + split; [done|]. intros [Hnot|?]; [|done]. exfalso. apply Hnot.
        by eapply list_elem_of_lookup_2. }
  split_and?.
  - split.
    + intros [k Hk]. apply fieldNameToIndex_entries in Hk as (Hx & Hk & _).
      split; [by eapply list_elem_of_lookup_2|done].
    + intros [Hin Hx]. destruct ((index_names names 0 ∅) !! x) eqn:Hm; [by eexists|].
      destruct (proj1 (Hnone _ eq_refl) eq_refl); done.
  - intros i Hi. by apply fieldNameToIndex_entries in Hi as (_ & Hk & Hlast).
  - intros Hnd Hx i Hi. apply fieldNameToIndex_entries. split; [done|]. split; [done|].
    intros j Hj. by rewrite (NoDup_lookup _ _ _ _ Hnd Hj Hi).
  - intros i. unfold getMainFieldIndexByName, table_get.
    destruct ((index_names names 0 ∅) !! x); [|case_bool_decide]; split; congruence.
  - unfold getMainFieldIndexByName, table_get.
    destruct ((index_names names 0 ∅) !! x) eqn:Hm.
    + split; [done|]. intros [Hnot Hown].
      by pose proof (proj2 (Hnone _ eq_refl) (or_introl Hnot)).
    + destruct (proj1 (Hnone _ eq_refl) eq_refl) as [Hnot| ->].
      * case_bool_decide as Hown; [|done]. split; [done|]. by intros [_ ?].
      * rewrite bool_decide_true by done. split; [done|]. by intros [_ ?].
  - unfold getMainFieldIndexByName, table_get.
    destruct ((index_names names 0 ∅) !! x) eqn:Hm.
    + split; [done|]. intros [_ Hm']. by pose proof (proj2 (Hnone _ eq_refl) Hm').
    + pose proof (proj1 (Hnone _ eq_refl) eq_refl) as Hm'.
      case_bool_decide as Hown; [done|]. split; [done|]. by intros [? _].
Qed.

Lemma fieldNameToIndex_last_position_witness :
  let names := ["loopIteration"; "time"; "motor[0]"; "time"]%string in
  (index_names names 0 ∅) !! "time"%string = Some 3%nat
  ∧ NoDup (take 3 names)
  ∧ "time"%string ≠ "__proto__"%string
  ∧ (index_names (take 3 names) 0 ∅) !! "time"%string = Some 1%nat
  ∧ getMainFieldIndexByName (index_names ("__proto__"%string :: names) 0 ∅) "__proto__"
    = Inherited.
Proof.
  intros names.
  assert (NoDup (take 3 names)) as Hnd.
  { apply (bool_decide_unpack _). by vm_compute. }
  assert ("time"%string ≠ "__proto__"%string) as Hne by discriminate.
  destruct (fieldNameToIndex_last_position (take 3 names) "time") as (_ & _ & H & _).
  split; [reflexivity|]. split; [exact Hnd|]. split; [exact Hne|].
  split; [exact (H Hnd Hne 1%nat eq_refl)|reflexivity].
Defined.

(** X15. [_buildFieldNames] keeps the names of the I-frame fields, followed
    by those of the S-frame fields when there are any, at their
    positions.  Behind them it appends at most 10 computed names and
    then at most [MAX_MOTOR_NUMBER] legacy motor names: none when the
    motors are disabled, and otherwise [motorLegacy[0]], [motorLegacy[1]]
    and so on, each one only when the motor of that number is among the
    names. *)
Theorem buildFieldNames_keeps_frame_fields (MAX_MOTOR_NUMBER : nat) {sysConfig_t : Type}
    (fields_disabled_mask : sysConfig_t → Z) (h : header sysConfig_t) :
  let logged := name (frameDefs_I h) ++ (if frameDefs_S h is Some s then name s else []) in
  let names := _buildFieldNames MAX_MOTOR_NUMBER fields_disabled_mask h in
  ∃ computed legacy,
    names = logged ++ computed ++ legacy
    ∧ (length computed ≤ 10)%nat
    ∧ (length legacy ≤ MAX_MOTOR_NUMBER)%nat
    ∧ (MOTORS_disabled fields_disabled_mask (sysConfig h) = true → legacy = [])
    ∧ (∀ (k : nat) x, legacy !! k = Some x →
         x = indexed_name "motorLegacy" k ∧ indexed_name "motor" k ∈ names)
    ∧ ∀ i x, logged !! i = Some x → names !! i = Some x.
Proof.
  cbv zeta. unfold _buildFieldNames. cbv zeta.
  set (logged := name (frameDefs_I h) ++ (if frameDefs_S h is Some s then name s else [])).
  assert ((match frameDefs_S h with
           | Some s => name (frameDefs_I h) ++ name s
           | None => name (frameDefs_I h)
           end) = logged) as ->.
  { unfold logged. destruct (frameDefs_S h); [done|by rewrite app_nil_r]. }
  set (a := if negb (PID_disabled fields_disabled_mask (sysConfig h))
            then map (indexed_name "axisSum") [0; 1; 2]%nat else []).
  set (b := if negb (SETPOINT_disabled fields_disabled_mask (sysConfig h))
            then map (indexed_name "rcCommands") [0; 1; 2; 3]%nat else []).
  set (c := if negb (GYRO_disabled fields_disabled_mask (sysConfig h)
                     || PID_disabled fields_disabled_mask (sysConfig h))
            then map (indexed_name "axisError") [0; 1; 2]%nat else []).
  assert ((if negb (GYRO_disabled fields_disabled_mask (sysConfig h)
                    || PID_disabled fields_disabled_mask (sysConfig h))
           then (if negb (SETPOINT_disabled fields_disabled_mask (sysConfig h))
                 then (if negb (PID_disabled fields_disabled_mask (sysConfig h))
                       then logged ++ map (indexed_name "axisSum") [0; 1; 2]%nat
                       else logged)
                      ++ map (indexed_name "rcCommands") [0; 1; 2; 3]%nat
                 else if negb (PID_disabled fields_disabled_mask (sysConfig h))
                      then logged ++ map (indexed_name "axisSum") [0; 1; 2]%nat
                      else logged)
                ++ map (indexed_name "axisError") [0; 1; 2]%nat
           else if negb (SETPOINT_disabled fields_disabled_mask (sysConfig h))
                then (if negb (PID_disabled fields_disabled_mask (sysConfig h))
                      then logged ++ map (indexed_name "axisSum") [0; 1; 2]%nat
                      else logged)
                     ++ map (indexed_name "rcCommands") [0; 1; 2; 3]%nat
                else if negb (PID_disabled fields_disabled_mask (sysConfig h))
                     then logged ++ map (indexed_name "axisSum") [0; 1; 2]%nat
                     else logged) = logged ++ (a ++ b ++ c)) as ->.
  { unfold a, b, c.
    destruct (PID_disabled _ _), (SETPOINT_disabled _ _), (GYRO_disabled _ _);
      cbn [negb orb]; rewrite ?app_nil_r, <- ?app_assoc; done. }
  assert (length (a ++ b ++ c) ≤ 10)%nat as Habc.
  { unfold a, b, c.
    destruct (PID_disabled _ _), (SETPOINT_disabled _ _), (GYRO_disabled _ _);
      cbn; lia. }
  destruct (MOTORS_disabled fields_disabled_mask (sysConfig h)); cbn [negb].
  - exists (a ++ b ++ c), []. rewrite app_nil_r. split_and?; try done.
    + cbn. lia.
    + intros i x Hi. by apply lookup_app_l_Some.
  - destruct (legacy_motor_names_spec MAX_MOTOR_NUMBER 0 (logged ++ a ++ b ++ c))
      as (extra & -> & Hextra & Hnames).
    exists (a ++ b ++ c), extra. split_and?; try done.
    + by rewrite <- !app_assoc.
    + intros k x Hk. destruct (Hnames k x Hk) as [-> Hmem]. split; [done|].
      cbn [Nat.add] in Hmem. apply elem_of_app in Hmem as [Hmem|Hmem].
      * apply elem_of_app. by left.
      * apply elem_of_app. right.
        rewrite <- (take_drop k extra). apply elem_of_app. by left.
    + intros i x Hi. rewrite <- app_assoc. by apply lookup_app_l_Some.
Qed.

Lemma buildFieldNames_keeps_frame_fields_witness :
  let names := _buildFieldNames 8 (λ _ : unit, 0) example_header in
  MOTORS_disabled (λ _ : unit, 1024) (sysConfig example_header) = true
  ∧ names !! 2%nat = Some "motor[0]"%string
  ∧ length names = 14%nat
  ∧ length (_buildFieldNames 8 (λ _ : unit, 1024) example_header) = 13%nat.
Proof.
  intros names.
  destruct (buildFieldNames_keeps_frame_fields 8 (λ _ : unit, 0) example_header)
    as (computed & legacy & _ & _ & _ & _ & _ & Hkeep).
  destruct (buildFieldNames_keeps_frame_fields 8 (λ _ : unit, 1024) example_header)
    as (computed' & legacy' & Heq & _ & _ & Hnone & _ & _).
  assert (MOTORS_disabled (λ _ : unit, 1024) (sysConfig example_header) = true) as Hdis
    by reflexivity.
  split; [exact Hdis|]. split; [exact (Hkeep 2%nat "motor[0]"%string eq_refl)|].
  split; [reflexivity|]. specialize (Hnone Hdis). subst legacy'. reflexivity.
Defined.

(** ** The sub-logs of a file *)

Section SubLogCount.

(** The offsets [buildLogOffsetsIndex] stores end with the length of the
    data. *)
Lemma start_offsets_sentinel (d : list Z) :
  ∃ found, start_offsets d = found ++ [Z.of_nat (length d)].
Proof.
  unfold start_offsets.
  assert (FLIGHT_LOG_START_MARKER ≠ []) as Hne by done.
  destruct (allIndicesOf_loop_spec FLIGHT_LOG_START_MARKER
              (S (S (Z.to_nat (end_ (new_ArrayDataStream d None None)
                               - pos (new_ArrayDataStream d None None)))))
              [] (new_ArrayDataStream d None None) Hne)
    as (found & s' & Heq & _); [lia|].
  unfold allIndicesOf. rewrite Heq. by exists found.
Qed.

End SubLogCount.

(** X16. On an index whose caches fit its buffer (as they do from the
    constructor on), [getLogCount] is the number of begin offsets less
    the closing one and is never negative, and the begin offset behind
    the last sub-log is the length of the data.  Fetching a directory
    when none is built yet makes one pass of the parser over each
    sub-log, in order ([parseHeader] on the range of the sub-log, then
    [parseLogData] when the header parsed), and returns exactly when the
    parser answers all of these calls; with the directories built no
    call is made.  When it returns, there is a directory exactly for the
    indices from 0 up to the count. *)
Theorem directory_for_each_sub_log (LOG_END : Z) {sysConfig_t stats_t : Type}
    (idx : FlightLogIndex stats_t) (w : world sysConfig_t stats_t) :
  index_consistent idx →
  let count := (getLogCount idx).1 in
  0 ≤ count
  ∧ (getLogBeginOffset idx count).1 = JNum (Z.of_nat (length (logData idx)))
  ∧ ∀ i,
      match getIntraframeDirectory LOG_END idx i w with
      | None =>
          intraframeDirectories idx = None
          ∧ next_passes (Z.to_nat count) (answers w) = None
      | Some (od, idx', w') =>
          (is_Some od ↔ 0 ≤ i < count)
          ∧ (is_Some (intraframeDirectories idx) → w' = w)
          ∧ (intraframeDirectories idx = None →
             ∃ ps, next_passes (Z.to_nat count) (answers w) = Some (ps, answers w')
                   ∧ calls w' = calls w ++ calls_of_passes IndexParser
                                             (start_offsets (logData idx)) 0 ps)
      end.
Proof.
  intros Hc. cbv zeta.
  pose proof (ensure_offsets_spec idx Hc) as Hens. cbv zeta in Hens.
  destruct Hens as (Hoffs & _).
  pose proof (getLogBeginOffset_spec idx (getLogCount idx).1 Hc) as Hbeg.
  cbv zeta in Hbeg. destruct Hbeg as (Hbegin & _).
  unfold getLogCount in *. cbn [fst] in *. rewrite Hoffs in *.
  destruct (start_offsets_sentinel (logData idx)) as (found & Hfound).
  split; [rewrite Hfound, length_app; cbn; lia|]. split.
  - rewrite Hbegin, Hfound. unfold data_at. rewrite length_app. cbn [length].
    replace (Z.of_nat (length found + 1) - 1 <? 0) with false by (symmetry; apply Z.ltb_ge; lia).
    replace (Z.to_nat (Z.of_nat (length found + 1) - 1)) with (length found) by lia.
    by rewrite list_lookup_middle.
  - intros i.
    replace (Z.to_nat (Z.of_nat (length (start_offsets (logData idx))) - 1))
      with (length (start_offsets (logData idx)) - 1)%nat by lia.
    pose proof (getIntraframeDirectory_spec LOG_END idx i w Hc) as Hspec.
    destruct (intraframeDirectories idx) as [ds|] eqn:Hds.
    + rewrite (getIntraframeDirectory_cached LOG_END idx ds i w Hds) in Hspec |- *.
      destruct Hspec as (Hrange & _). split; [exact Hrange|]. split; [done|]. intros [=].
    + pose proof (getIntraframeDirectories_build LOG_END idx w Hc Hds) as Hbuild.
      unfold getIntraframeDirectory in Hspec |- *.
      destruct (_getIntraframeDirectories LOG_END idx w) as [[[ds idx'] w']|]; [|done].
      destruct Hspec as (Hrange & _).
      destruct Hbuild as (ps & Hps & _ & Hcalls & _).
      split; [exact Hrange|]. split; [by intros [? ?]|]. intros _. by exists ps.
Qed.

Lemma directory_for_each_sub_log_witness :
  let idx := new_FlightLogIndex (stats_t := unit) example_logData in
  index_consistent idx
  ∧ (getLogCount idx).1 = 2
  ∧ (getLogBeginOffset idx 2).1 = JNum 124
  ∧ ∃ d idx' w', getIntraframeDirectory 255 idx 1 example_world = Some (Some d, idx', w')
                 ∧ calls w' = [ParseHeader IndexParser (JNum 0) (JNum 62);
                               ParseLogData IndexParser;
                               ParseHeader IndexParser (JNum 62) (JNum 124)].
Proof.
  intros idx.
  assert (index_consistent idx) as Hc by (split; intros ? [=]).
  assert ((getLogCount idx).1 = 2) as Hcount by (vm_compute; reflexivity).
  destruct (directory_for_each_sub_log 255 idx example_world Hc) as (_ & Hbegin & Hdir).
  rewrite Hcount in Hbegin, Hdir.
  split; [exact Hc|]. split; [exact Hcount|].
  split; [etrans; [exact Hbegin|vm_compute; reflexivity]|].
  specialize (Hdir 1). revert Hdir.
  destruct (getIntraframeDirectory 255 idx 1 example_world) as [[[od idx'] w']|] eqn:Hget;
    intros Hdir; [|exfalso; destruct Hdir as [_ Hnone]; vm_compute in Hnone; discriminate Hnone].
  destruct Hdir as (Hrange & _ & Hbuild).
  destruct (proj2 Hrange) as [d ->]; [lia|].
  exists d, idx', w'. split; [reflexivity|].
  vm_compute in Hget. injection Hget as _ _ <-. reflexivity.
Defined.

(** ** Header values with the default length *)

Section SplitFacts.

Lemma split_nonempty sep s : split sep s ≠ [].
Proof. destruct s as [|c s]; cbn; [done|]. destruct (Ascii.eqb c sep); [done|]. by destruct (split sep s). Qed.

Lemma string_indexOf_lower c s : -1 ≤ string_indexOf c s.
Proof.
  induction s as [|a s IH]; cbn [string_indexOf]; [lia|].
  destruct (Ascii.eqb a c); [lia|]. cbv zeta. destruct (_ =? -1); lia.
Qed.

Lemma split_no_separator sep s : string_indexOf sep s = -1 → split sep s = [s].
Proof.
  induction s as [|a s IH]; cbn [string_indexOf split]; [done|].
  destruct (Ascii.eqb a sep); [lia|]. cbv zeta.
  pose proof (string_indexOf_lower sep s).
  destruct (string_indexOf sep s =? -1) eqn:Hr; [|lia].
  apply Z.eqb_eq in Hr. intros _. by rewrite (IH Hr).
Qed.

Lemma split_separator sep s : string_indexOf sep s ≠ -1 → (2 ≤ length (split sep s))%nat.
Proof.
  induction s as [|a s IH]; cbn [string_indexOf split]; [done|].
  destruct (Ascii.eqb a sep).
  - intros _. pose proof (split_nonempty sep s). destruct (split sep s); [done|cbn; lia].
  - cbv zeta. destruct (string_indexOf sep s =? -1) eqn:Hr; [done|].
    apply Z.eqb_neq in Hr. intros _. specialize (IH Hr).
    destruct (split sep s); cbn in *; lia.
Qed.

Lemma split_parts_clean sep s : Forall (λ p, string_indexOf sep p = -1) (split sep s).
Proof.
  induction s as [|a s IH]; cbn [split]; [by repeat constructor|].
  destruct (Ascii.eqb a sep) eqn:Ha; [by constructor|].
  pose proof (split_nonempty sep s). destruct (split sep s) as [|p ps]; [done|].
  apply Forall_cons in IH as [Hp Hps]. constructor; [|done].
  cbn [string_indexOf]. by rewrite Ha, Hp.
Qed.

Lemma join_comma_split s : join_comma (split ","%char s) = s.
Proof.
  induction s as [|a s IH]; cbn [split]; [done|].
  pose proof (split_nonempty ","%char s) as Hne.
  destruct (Ascii.eqb a ","%char) eqn:Ha.
  - apply Ascii.eqb_eq in Ha. subst a.
    destruct (split ","%char s) as [|p ps]; [done|].
    change (join_comma (EmptyString :: p :: ps)) with (String ","%char (join_comma (p :: ps))).
    by rewrite IH.
  - destruct (split ","%char s) as [|p ps]; [done|]. destruct ps as [|q qs].
    + cbn in IH |- *. by rewrite IH.
    + change (join_comma (String a p :: q :: qs)) with (String a (join_comma (p :: q :: qs))).
      by rewrite IH.
Qed.

End SplitFacts.

(** X17. [parseCommaSeparatedString(string)] with the default length.  The
    parts rejoin to the string and hold no comma.  A string without a
    comma gives a single value, parsed with [parseFloat] unless the
    string is a lone dot (the test is [parts.indexOf(".")] on the array
    of parts), and the string itself when that gives [NaN].  A string
    with a comma gives an array with one entry for every part and no
    padding. *)
Theorem parseCommaSeparatedString_auto_sized (num : Type)
    (parseFloat parseInt10 : string → option num) (str : string) :
  let parts := split ","%char str in
  join_comma parts = str
  ∧ Forall (λ p, string_indexOf ","%char p = -1) parts
  ∧ (string_indexOf ","%char str = -1 →
     parseCommaSeparatedString num parseFloat parseInt10 str 0
     = CsvScalar (nan_fallback num (if String.eqb str "." then parseInt10 str
                                    else parseFloat str) str))
  ∧ (string_indexOf ","%char str ≠ -1 →
     (2 ≤ length parts)%nat
     ∧ parseCommaSeparatedString num parseFloat parseInt10 str 0
       = CsvArray (map (parse_part num parseFloat parseInt10) parts)).
Proof.
  cbv zeta. split; [apply join_comma_split|]. split; [apply split_parts_clean|]. split.
  - intros Hno. unfold parseCommaSeparatedString. cbv zeta.
    rewrite (split_no_separator _ _ Hno). cbn [length Z.eqb Z.of_nat Z.ltb Z.compare
      Pos.of_succ_nat Pos.compare Pos.compare_cont join_comma array_indexOf].
    destruct (String.eqb str ".") eqn:Hdot; done.
  - intros Hsep. pose proof (split_separator _ _ Hsep) as Hlen. split; [done|].
    unfold parseCommaSeparatedString. cbv zeta. cbn [Z.eqb].
    replace (Z.of_nat (length (split "," str)) <? 2) with false
      by (symmetry; apply Z.ltb_ge; lia).
    f_equal. rewrite Nat2Z.id.
    apply list_eq. intros i. rewrite !list_lookup_fmap.
    destruct (decide (i < length (split "," str))%nat) as [Hi|Hi].
    + rewrite lookup_seq_lt by done. cbn.
      destruct (lookup_lt_is_Some_2 _ _ Hi) as [p Hp]. by rewrite Hp.
    + rewrite lookup_seq_ge by lia. cbn. by rewrite lookup_ge_None_2 by lia.
Qed.

Lemma parseCommaSeparatedString_auto_sized_witness :
  let parse := parseCommaSeparatedString nat (λ _, Some 1%nat) (λ _, Some 2%nat) in
  string_indexOf ","%char "1500" = -1
  ∧ string_indexOf ","%char "40,.5" ≠ -1
  ∧ parse "1500"%string 0 = CsvScalar (VNum 1%nat)
  ∧ parse "40,.5"%string 0 = CsvArray [VNum 1%nat; VNum 2%nat].
Proof.
  intros parse.
  assert (string_indexOf ","%char "1500" = -1) as H1 by reflexivity.
  assert (string_indexOf ","%char "40,.5" ≠ -1) as H2 by (vm_compute; discriminate).
  destruct (parseCommaSeparatedString_auto_sized nat (λ _, Some 1%nat) (λ _, Some 2%nat)
              "1500") as (_ & _ & Hs & _).
  destruct (parseCommaSeparatedString_auto_sized nat (λ _, Some 1%nat) (λ _, Some 2%nat)
              "40,.5") as (_ & _ & _ & Ha).
  split; [exact H1|]. split; [exact H2|]. split; [exact (Hs H1)|exact (proj2 (Ha H2))].
Defined.

(** ** The tagged groups *)

Section TaggedGroups.

Lemma sar_small b k : 0 ≤ b < 2 ^ 31 → 0 ≤ k < 32 → JS.sar b k = b `div` 2 ^ k.
Proof.
  intros Hb Hk. unfold JS.sar.
  rewrite shift_count_small, ToInt32_small, Z.shiftr_div_pow2 by lia. done.
Qed.

Lemma and_mask x n : 0 ≤ x < 2 ^ 31 → 0 ≤ n ≤ 30 → JS.and x (2 ^ n - 1) = x `mod` 2 ^ n.
Proof.
  intros Hx Hn. unfold JS.and.
  assert (0 < 2 ^ n) by (apply Z.pow_pos_nonneg; lia).
  assert (2 ^ n ≤ 2 ^ 30) by (apply Z.pow_le_mono_r; lia).
  rewrite !ToInt32_small by lia.
  replace (2 ^ n - 1) with (Z.ones n) by (rewrite Z.ones_equiv; lia).
  apply Z.land_ones. lia.
Qed.

Lemma signExtend2Bit_value v : 0 ≤ v < 4 → signExtend2Bit (JNum v) = JNum (twos_complement 2 v).
Proof. intros Hv. exact (signExtend_generic 2 v ltac:(lia) ltac:(lia)). Qed.

Lemma signExtend4Bit_value v : 0 ≤ v < 16 → signExtend4Bit (JNum v) = JNum (twos_complement 4 v).
Proof. intros Hv. exact (signExtend_generic 4 v ltac:(lia) ltac:(lia)). Qed.

Lemma signExtend5Bit_value v : 0 ≤ v < 32 → signExtend5Bit (JNum v) = JNum (twos_complement 5 v).
Proof. intros Hv. exact (signExtend_generic 5 v ltac:(lia) ltac:(lia)). Qed.

Lemma signExtend6Bit_value v : 0 ≤ v < 64 → signExtend6Bit (JNum v) = JNum (twos_complement 6 v).
Proof. intros Hv. exact (signExtend_generic 6 v ltac:(lia) ltac:(lia)). Qed.

(** A property that can be decided at every number below [n] holds below
    [n] when it holds at each of them. *)
Lemma forall_below (P : Z → Prop) `{!∀ x, Decision (P x)} (n : Z) :
  bool_decide (Forall P (seqZ 0 n)) = true → ∀ x, 0 ≤ x < n → P x.
Proof.
  intros Hall%bool_decide_eq_true x Hx. rewrite Forall_seqZ in Hall. apply Hall. lia.
Qed.

Lemma and_62 f top : 0 ≤ f < 32 → 0 ≤ top < 2 → JS.and (64 + 2 * f + top) 62 = 2 * f.
Proof.
  intros Hf Ht. revert f Hf.
  destruct (Z.eq_dec top 0) as [->|]; [|replace top with 1 by lia].
  - by apply (forall_below (λ f, JS.and (64 + 2 * f + 0) 62 = 2 * f) 32).
  - by apply (forall_below (λ f, JS.and (64 + 2 * f + 1) 62 = 2 * f) 32).
Qed.

Lemma read3 s b1 b2 b3 :
  bytes_at s [b1; b2; b3] →
  readByte s = (JNum b1, set_pos s (pos s + 1))
  ∧ readByte (set_pos s (pos s + 1)) = (JNum b2, set_pos s (pos s + 2))
  ∧ readByte (set_pos s (pos s + 2)) = (JNum b3, set_pos s (pos s + 3)).
Proof.
  intros H. destruct (bytes_at_cons _ _ _ H) as [H1 H']. split; [done|].
  destruct (bytes_at_cons _ _ _ H') as [H2 H'']. cbn [pos set_pos] in H2.
  destruct (bytes_at_cons _ _ _ H'') as [H3 _]. cbn [pos set_pos] in H3.
  destruct s as [d st en ef p]. unfold set_pos in *. cbn in *.
  replace (p + 1 + 1) with (p + 2) in * by lia.
  replace (p + 2 + 1) with (p + 3) in H3 by lia. done.
Qed.

End TaggedGroups.

(** X18. The three fixed layouts of [readTag2_3S32], selected by the top two
    bits of the lead byte: three 2-bit fields in one byte, three 4-bit
    fields in two bytes, three 6-bit fields in three bytes (the top two
    bits of the second and third byte are ignored).  Each field is read
    as a two's-complement number, and exactly the bytes of the layout
    are consumed. *)
Theorem readTag2_3S32_fixed_layouts (values : list jsval) (s : ArrayDataStream)
    (f1 f2 f3 x y : Z) :
  let result w :=
    arr_set (arr_set (arr_set values 0 (JNum (twos_complement w f1)))
                     1 (JNum (twos_complement w f2)))
            2 (JNum (twos_complement w f3)) in
  (0 ≤ f1 < 4 → 0 ≤ f2 < 4 → 0 ≤ f3 < 4 →
   bytes_at s [16 * f1 + 4 * f2 + f3] →
   readTag2_3S32 values s = (result 2, set_pos s (pos s + 1)))
  ∧ (0 ≤ f1 < 16 → 0 ≤ f2 < 16 → 0 ≤ f3 < 16 →
     bytes_at s [64 + f1; 16 * f2 + f3] →
     readTag2_3S32 values s = (result 4, set_pos s (pos s + 2)))
  ∧ (0 ≤ f1 < 64 → 0 ≤ f2 < 64 → 0 ≤ f3 < 64 → 0 ≤ x < 4 → 0 ≤ y < 4 →
     bytes_at s [128 + f1; 64 * x + f2; 64 * y + f3] →
     readTag2_3S32 values s = (result 6, set_pos s (pos s + 3))).
Proof.
  cbv zeta. split_and?.
  - intros H1 H2 H3 Hb. destruct (bytes_at_cons _ _ _ Hb) as [Hr _].
    unfold readTag2_3S32, bind. rewrite Hr. cbn [fst snd num_of].
    set (b := 16 * f1 + 4 * f2 + f3).
    assert (JS.sar b 6 = 0) as ->.
    { rewrite sar_small by lia. change (2 ^ 6) with 64. subst b. Z.div_mod_to_equations. lia. }
    assert (JS.and (JS.sar b 4) 3 = f1) as ->.
    { rewrite sar_small by lia. change (2 ^ 4) with 16.
      rewrite (and_mask _ 2) by (subst b; Z.div_mod_to_equations; lia).
      change (2 ^ 2) with 4. subst b. Z.div_mod_to_equations. lia. }
    assert (JS.and (JS.sar b 2) 3 = f2) as ->.
    { rewrite sar_small by lia. change (2 ^ 2) with 4.
      rewrite (and_mask _ 2) by (subst b; Z.div_mod_to_equations; lia).
      change (2 ^ 2) with 4. subst b. Z.div_mod_to_equations. lia. }
    assert (JS.and b 3 = f3) as ->.
    { rewrite (and_mask _ 2) by lia. change (2 ^ 2) with 4. subst b.
      Z.div_mod_to_equations. lia. }
    by rewrite !signExtend2Bit_value by done.
  - intros H1 H2 H3 Hb. destruct (read2 _ _ _ Hb) as [Hr1 Hr2].
    unfold readTag2_3S32, bind. rewrite Hr1. cbn [fst snd num_of].
    assert (JS.sar (64 + f1) 6 = 1) as ->.
    { rewrite sar_small by lia. change (2 ^ 6) with 64. Z.div_mod_to_equations. lia. }
    rewrite Hr2. cbn [fst snd num_of].
    assert (JS.and (64 + f1) 15 = f1) as ->.
    { rewrite (and_mask _ 4) by lia. change (2 ^ 4) with 16. Z.div_mod_to_equations. lia. }
    assert (JS.sar (16 * f2 + f3) 4 = f2) as ->.
    { rewrite sar_small by lia. change (2 ^ 4) with 16. Z.div_mod_to_equations. lia. }
    assert (JS.and (16 * f2 + f3) 15 = f3) as ->.
    { rewrite (and_mask _ 4) by lia. change (2 ^ 4) with 16. Z.div_mod_to_equations. lia. }
    by rewrite !signExtend4Bit_value by done.
  - intros H1 H2 H3 Hx Hy Hb. destruct (read3 _ _ _ _ Hb) as (Hr1 & Hr2 & Hr3).
    unfold readTag2_3S32, bind. rewrite Hr1. cbn [fst snd num_of].
    assert (JS.sar (128 + f1) 6 = 2) as ->.
    { rewrite sar_small by lia. change (2 ^ 6) with 64. Z.div_mod_to_equations. lia. }
    rewrite Hr2. cbn [fst snd num_of]. rewrite Hr3. cbn [fst snd num_of].
    assert (JS.and (128 + f1) 63 = f1) as ->.
    { rewrite (and_mask _ 6) by lia. change (2 ^ 6) with 64. Z.div_mod_to_equations. lia. }
    assert (JS.and (64 * x + f2) 63 = f2) as ->.
    { rewrite (and_mask _ 6) by lia. change (2 ^ 6) with 64. Z.div_mod_to_equations. lia. }
    assert (JS.and (64 * y + f3) 63 = f3) as ->.
    { rewrite (and_mask _ 6) by lia. change (2 ^ 6) with 64. Z.div_mod_to_equations. lia. }
    by rewrite !signExtend6Bit_value by done.
Qed.

Lemma readTag2_3S32_fixed_layouts_witness :
  let s := new_ArrayDataStream ([64 + 15; 16 * 8 + 7] ++ [0]) None None in
  bytes_at s [64 + 15; 16 * 8 + 7]
  ∧ readTag2_3S32 [] s = ([JNum (-1); JNum (-8); JNum 7], set_pos s 2).
Proof.
  intros s.
  assert (bytes_at s [64 + 15; 16 * 8 + 7]) as Hb by apply bytes_at_new.
  destruct (readTag2_3S32_fixed_layouts [] s 15 8 7 0 0) as (_ & H4 & _).
  split; [exact Hb|].
  exact (H4 ltac:(lia) ltac:(lia) ltac:(lia) Hb).
Defined.

(** X19. The 5-5-4 layout of [readTag2_3SVariable] (selector bits 01, two
    bytes).  The first field is the 5 bits behind the selector and the
    third the low nibble of the second byte, both read as
    two's-complement numbers.  The second field takes its top bit from
    the low bit of the first byte and nothing from the second byte
    ([(leadByte2 & 0x0f) >> 4] is 0): it is 0 or 32, whatever the high
    nibble [n] of the second byte is. *)
Theorem readTag2_3SVariable_554 (values : list jsval) (s : ArrayDataStream)
    (f1 top n f3 : Z) :
  0 ≤ f1 < 32 → 0 ≤ top < 2 → 0 ≤ n < 16 → 0 ≤ f3 < 16 →
  bytes_at s [64 + 2 * f1 + top; 16 * n + f3] →
  readTag2_3SVariable values s
  = (arr_set (arr_set (arr_set values 0 (JNum (twos_complement 5 f1)))
                      1 (JNum (32 * top)))
             2 (JNum (twos_complement 4 f3)),
     set_pos s (pos s + 2)).
Proof.
  intros H1 Ht Hn H3 Hb. destruct (read2 _ _ _ Hb) as [Hr1 Hr2].
  unfold readTag2_3SVariable, bind. rewrite Hr1. cbn [fst snd num_of].
  set (b := 64 + 2 * f1 + top).
  assert (JS.sar b 6 = 1) as ->.
  { rewrite sar_small by lia. change (2 ^ 6) with 64. subst b. Z.div_mod_to_equations. lia. }
  rewrite Hr2. cbn [fst snd num_of].
  assert (JS.sar (JS.and b 62) 1 = f1) as ->.
  { subst b. rewrite and_62 by done.
    rewrite sar_small by lia. change (2 ^ 1) with 2. Z.div_mod_to_equations. lia. }
  assert (JS.and b 1 = top) as ->.
  { rewrite (and_mask _ 1) by lia. change (2 ^ 1) with 2. subst b.
    Z.div_mod_to_equations. lia. }
  assert (JS.and (16 * n + f3) 15 = f3) as ->.
  { rewrite (and_mask _ 4) by lia. change (2 ^ 4) with 16. Z.div_mod_to_equations. lia. }
  assert (JS.sar f3 4 = 0) as ->.
  { rewrite sar_small by lia. change (2 ^ 4) with 16. Z.div_mod_to_equations. lia. }
  assert (JS.or (JS.shl top 5) 0 = 32 * top) as ->.
  { destruct (Z.eq_dec top 0) as [->|]; [done|]. by replace top with 1 by lia. }
  rewrite signExtend5Bit_value, signExtend4Bit_value by done.
  assert (signExtend5Bit (JNum (32 * top)) = JNum (32 * top)) as ->.
  { destruct (Z.eq_dec top 0) as [->|]; [done|]. by replace top with 1 by lia. }
  done.
Qed.

Lemma readTag2_3SVariable_554_witness :
  let s := new_ArrayDataStream ([64 + 2 * 3 + 1; 16 * 15 + 2] ++ []) None None in
  bytes_at s [64 + 2 * 3 + 1; 16 * 15 + 2]
  ∧ readTag2_3SVariable [] s = ([JNum 3; JNum 32; JNum 2], set_pos s 2).
Proof.
  intros s.
  assert (bytes_at s [64 + 2 * 3 + 1; 16 * 15 + 2]) as Hb by apply bytes_at_new.
  split; [exact Hb|].
  exact (readTag2_3SVariable_554 [] s 3 1 15 2 ltac:(lia) ltac:(lia) ltac:(lia) ltac:(lia) Hb).
Defined.

(** ** How far a read can move the position *)

Section Consumption.

Lemma consumes_ret {A} (k : Z) (a : A) : 0 ≤ k → consumes k (ret a).
Proof. intros Hk s. unfold ret. cbn. lia. Qed.

Lemma consumes_le {A} (k k' : Z) (m : M A) : consumes k m → k ≤ k' → consumes k' m.
Proof. intros Hm Hk s. specialize (Hm s). lia. Qed.

Lemma consumes_bind {A B} (k1 k : Z) (m : M A) (f : A → M B) :
  consumes k1 m → (∀ a, consumes (k - k1) (f a)) → consumes k (bind m f).
Proof.
  intros Hm Hf s. unfold bind. specialize (Hm s). specialize (Hf (m s).1 (m s).2). lia.
Qed.

Lemma consumes_readByte : consumes 1 readByte.
Proof. intros s. unfold readByte. case_match; cbn; lia. Qed.

Lemma consumes_readChar : consumes 1 readChar.
Proof. intros s. unfold readChar. case_match; cbn; lia. Qed.

Ltac consume_bytes :=
  repeat first
    [ (apply consumes_ret; lia)
    | (apply (consumes_bind 1); [apply consumes_readByte|intros ?])
    | progress cbv zeta
    | case_match ].

Lemma consumes_readUnsignedVB_loop n : ∀ shift result,
  consumes (Z.of_nat n) (readUnsignedVB_loop n shift result).
Proof.
  induction n as [|n IH]; intros shift result; cbn [readUnsignedVB_loop].
  - by apply consumes_ret.
  - apply (consumes_bind 1); [apply consumes_readByte|]. intros b.
    repeat case_match; first [apply consumes_ret; lia|eapply consumes_le; [apply IH|lia]].
Qed.

Lemma consumes_readSignedVB : consumes 5 readSignedVB.
Proof.
  apply (consumes_bind 5); [apply (consumes_readUnsignedVB_loop 5)|].
  intros u. by apply consumes_ret.
Qed.

Lemma consumes_readString n : consumes (Z.of_nat n) (readString n).
Proof.
  induction n as [|n IH]; cbn [readString]; [by apply consumes_ret|].
  apply (consumes_bind 1); [apply consumes_readChar|]. intros c.
  apply (consumes_bind (Z.of_nat n)); [apply IH|]. intros rest. apply consumes_ret. lia.
Qed.

Lemma consumes_readTag2_3_field leadByte : consumes 4 (readTag2_3_field leadByte).
Proof. unfold readTag2_3_field. consume_bytes. Qed.

Lemma consumes_readTag2_3_fields n : ∀ i leadByte values,
  consumes (4 * Z.of_nat n) (readTag2_3_fields n i leadByte values).
Proof.
  induction n as [|n IH]; intros i leadByte values; cbn [readTag2_3_fields].
  - by apply consumes_ret.
  - apply (consumes_bind 4); [apply consumes_readTag2_3_field|]. intros v.
    eapply consumes_le; [apply IH|lia].
Qed.

Lemma consumes_readTag2_3S32 values : consumes 13 (readTag2_3S32 values).
Proof.
  unfold readTag2_3S32.
  apply (consumes_bind 1); [apply consumes_readByte|]. intros leadByte.
  repeat case_match;
    first [eapply consumes_le; [apply (consumes_readTag2_3_fields 3)|lia]|consume_bytes].
Qed.

Lemma consumes_readTag2_3SVariable values : consumes 13 (readTag2_3SVariable values).
Proof.
  unfold readTag2_3SVariable.
  apply (consumes_bind 1); [apply consumes_readByte|]. intros leadByte.
  repeat case_match;
    first [eapply consumes_le; [apply (consumes_readTag2_3_fields 3)|lia]|consume_bytes].
Qed.

Lemma consumes_readTag8_4S16_v1_loop fuel : ∀ i selector values,
  consumes (2 * Z.of_nat fuel) (readTag8_4S16_v1_loop fuel i selector values).
Proof.
  induction fuel as [|fuel IH]; intros i selector values; cbn [readTag8_4S16_v1_loop].
  - by apply consumes_ret.
  - repeat case_match;
      repeat first [ (eapply consumes_le; [apply IH|lia])
                   | (apply consumes_ret; lia)
                   | (apply (consumes_bind 1); [apply consumes_readByte|intros ?])
                   | progress cbv zeta ].
Qed.

Lemma consumes_readTag8_4S16_v2_loop n : ∀ i selector nibbleIndex buffer values,
  consumes (2 * Z.of_nat n) (readTag8_4S16_v2_loop n i selector nibbleIndex buffer values).
Proof.
  induction n as [|n IH]; intros i selector nibbleIndex buffer values;
    cbn [readTag8_4S16_v2_loop].
  - by apply consumes_ret.
  - repeat case_match;
      repeat first [ (eapply consumes_le; [apply IH|lia])
                   | (apply consumes_ret; lia)
                   | (apply (consumes_bind 1); [apply consumes_readByte|intros ?])
                   | progress cbv zeta ].
Qed.

Lemma consumes_readTag8_8SVB_loop n : ∀ i header values,
  consumes (5 * Z.of_nat n) (readTag8_8SVB_loop n i header values).
Proof.
  induction n as [|n IH]; intros i header values; cbn [readTag8_8SVB_loop].
  - by apply consumes_ret.
  - apply (consumes_bind 5); [|intros v; eapply consumes_le; [apply IH|lia]].
    case_match.
    + apply (consumes_bind 5); [apply consumes_readSignedVB|]. intros x.
      by apply consumes_ret.
    + by apply consumes_ret.
Qed.

End Consumption.

(** X20. No read moves the position further than its format allows, whatever
    the stream holds: a byte or character 1, the 16-bit reads 2,
    [readU32] 4, a variable-byte integer 5, [readString(n)] [n], the
    two 2-3 tagged groups 13 (a lead byte and three fields of at most
    four bytes), the two 8-4 tagged groups 9 (a selector and four fields
    of at most two bytes), and [readTag8_8SVB] 41 (a header and eight
    variable-byte integers), or 5 when it is asked for one value. *)
Theorem reads_consume_at_most :
  consumes 1 readByte ∧ consumes 1 readChar ∧ consumes 0 peekChar ∧ consumes 1 readS8
  ∧ consumes 2 readS16 ∧ consumes 2 readU16 ∧ consumes 4 readU32
  ∧ consumes 5 readUnsignedVB ∧ consumes 5 readSignedVB
  ∧ (∀ n, consumes (Z.of_nat n) (readString n))
  ∧ (∀ values, consumes 13 (readTag2_3S32 values))
  ∧ (∀ values, consumes 13 (readTag2_3SVariable values))
  ∧ (∀ values, consumes 9 (readTag8_4S16_v1 values))
  ∧ (∀ values, consumes 9 (readTag8_4S16_v2 values))
  ∧ (∀ values valueCount, consumes 41 (readTag8_8SVB values valueCount))
  ∧ (∀ values, consumes 5 (readTag8_8SVB values 1)).
Proof.
  split_and?.
  - apply consumes_readByte.
  - apply consumes_readChar.
  - intros s. unfold peekChar. case_match; cbn; lia.
  - apply (consumes_bind 1); [apply consumes_readByte|]. intros b. by apply consumes_ret.
  - apply (consumes_bind 1); [apply consumes_readByte|]. intros b1.
    apply (consumes_bind 1); [apply consumes_readByte|]. intros b2. by apply consumes_ret.
  - apply (consumes_bind 1); [apply consumes_readByte|]. intros b1.
    apply (consumes_bind 1); [apply consumes_readByte|]. intros b2. by apply consumes_ret.
  - apply (consumes_bind 1); [apply consumes_readByte|]. intros b1.
    apply (consumes_bind 1); [apply consumes_readByte|]. intros b2.
    apply (consumes_bind 1); [apply consumes_readByte|]. intros b3.
    apply (consumes_bind 1); [apply consumes_readByte|]. intros b4. by apply consumes_ret.
  - apply (consumes_readUnsignedVB_loop 5).
  - apply consumes_readSignedVB.
  - apply consumes_readString.
  - apply consumes_readTag2_3S32.
  - apply consumes_readTag2_3SVariable.
  - intros values. apply (consumes_bind 1); [apply consumes_readByte|]. intros selector.
    apply (consumes_readTag8_4S16_v1_loop 4).
  - intros values. apply (consumes_bind 1); [apply consumes_readByte|]. intros selector.
    apply (consumes_readTag8_4S16_v2_loop 4).
  - intros values valueCount. unfold readTag8_8SVB. case_match.
    + apply (consumes_bind 5); [apply consumes_readSignedVB|]. intros x.
      by apply consumes_ret.
    + apply (consumes_bind 1); [apply consumes_readByte|]. intros header.
      apply (consumes_readTag8_8SVB_loop 8).
  - intros values. unfold readTag8_8SVB. cbn [Z.eqb Pos.eqb].
    apply (consumes_bind 5); [apply consumes_readSignedVB|]. intros x.
    by apply consumes_ret.
Qed.

(** ** The header of [readTag8_8SVB] *)

Section Tag8_8SVB.

Lemma arr_set_length values i v :
  length (arr_set values i v) = (length values `max` S i)%nat.
Proof.
  unfold arr_set. destruct (i <? length values)%nat eqn:Hi.
  - apply Nat.ltb_lt in Hi. rewrite length_insert. lia.
  - apply Nat.ltb_ge in Hi. rewrite !length_app, length_replicate. cbn. lia.
Qed.

Lemma arr_set_lookup values i v : arr_set values i v !! i = Some v.
Proof.
  unfold arr_set. destruct (i <? length values)%nat eqn:Hi.
  - apply Nat.ltb_lt in Hi. by apply list_lookup_insert_eq.
  - apply Nat.ltb_ge in Hi. rewrite lookup_app_r by done.
    rewrite lookup_app_r by (rewrite length_replicate; lia).
    rewrite length_replicate. by replace (i - length values - (i - length values))%nat with 0%nat by lia.
Qed.

Lemma arr_set_lookup_lt values i v j :
  (j < i)%nat → (j < length values)%nat → arr_set values i v !! j = values !! j.
Proof.
  intros Hji Hj. unfold arr_set. destruct (i <? length values)%nat eqn:Hi.
  - apply list_lookup_insert_ne. lia.
  - by apply lookup_app_l.
Qed.

Lemma and_1_testbit h : (JS.and h 1 =? 0) = negb (Z.testbit h 0).
Proof.
  unfold JS.and. rewrite (ToInt32_small 1) by lia.
  rewrite (land_pow2_testbit _ 0) by lia. by rewrite ToInt32_testbit by lia.
Qed.

Lemma sar_1_testbit h k : 0 ≤ k < 31 → Z.testbit (JS.sar h 1) k = Z.testbit h (k + 1).
Proof.
  intros Hk. unfold JS.sar. rewrite shift_count_small by lia.
  rewrite Z.shiftr_spec by lia. apply ToInt32_testbit. lia.
Qed.

(** The loop writes the slots [i] to [i + n - 1], a zero where the bit
    of the header is clear, and keeps the slots in front of [i]. *)
Lemma readTag8_8SVB_loop_spec : ∀ n i header values s,
  (Z.of_nat n ≤ 31) →
  let r := (readTag8_8SVB_loop n i header values s).1 in
  length r = (length values `max` (if n is O then 0 else i + n))%nat
  ∧ (∀ j, (j < i)%nat → (j < length values)%nat → r !! j = values !! j)
  ∧ (∀ k, (k < n)%nat → Z.testbit header (Z.of_nat k) = false →
          r !! (i + k)%nat = Some (JNum 0)).
Proof.
  induction n as [|n IH]; intros i header values s Hn; cbn [readTag8_8SVB_loop]; cbv zeta.
  - unfold ret. cbn. split; [lia|]. split; [done|]. intros k Hk. lia.
  - unfold bind at 1.
    set (m := if negb (JS.and header 1 =? 0) then _ else _).
    destruct (IH (S i) (JS.sar header 1) (arr_set values i (m s).1) (m s).2 ltac:(lia))
      as (Hlen & Hkeep & Hzero).
    split_and?.
    + rewrite Hlen, arr_set_length. destruct n; lia.
    + intros j Hji Hj. rewrite Hkeep by (rewrite ?arr_set_length; lia).
      by apply arr_set_lookup_lt.
    + intros [|k] Hk Hbit.
      * rewrite Nat.add_0_r. rewrite Hkeep by (rewrite ?arr_set_length; lia).
        rewrite arr_set_lookup. f_equal. subst m.
        rewrite and_1_testbit. change (Z.of_nat 0) with 0 in Hbit. by rewrite Hbit.
      * replace (i + S k)%nat with (S i + k)%nat by lia. apply Hzero; [lia|].
        rewrite sar_1_testbit by lia. by replace (Z.of_nat k + 1) with (Z.of_nat (S k)) by lia.
Qed.

Lemma readTag8_8SVB_loop_zero : ∀ n i values s,
  (readTag8_8SVB_loop n i 0 values s).2 = s.
Proof.
  induction n as [|n IH]; intros i values s; cbn [readTag8_8SVB_loop]; [done|].
  unfold bind at 1. change (negb (JS.and 0 1 =? 0)) with false. cbv iota.
  change (JS.sar 0 1) with 0. unfold ret at 1 2. cbn [fst snd]. apply IH.
Qed.

End Tag8_8SVB.

(** X21. [readTag8_8SVB] for more than one value reads a header byte and
    fills the slots 0 to 7: the result has at least eight entries, and
    the slot of every clear bit of the header holds 0.  A header of 0
    gives eight zeros and consumes the header byte alone. *)
Theorem readTag8_8SVB_header (values : list jsval) (valueCount h : Z) (s : ArrayDataStream) :
  valueCount ≠ 1 →
  bytes_at s [h] →
  let r := readTag8_8SVB values valueCount s in
  length r.1 = (length values `max` 8)%nat
  ∧ (∀ k : nat, (k < 8)%nat → Z.testbit h (Z.of_nat k) = false → r.1 !! k = Some (JNum 0))
  ∧ (h = 0 → r.2 = set_pos s (pos s + 1)).
Proof.
  intros Hvc Hb. destruct (bytes_at_cons _ _ _ Hb) as [Hr _]. cbv zeta.
  unfold readTag8_8SVB. replace (valueCount =? 1) with false by (symmetry; by apply Z.eqb_neq).
  unfold bind. rewrite Hr. cbn [fst snd num_of].
  destruct (readTag8_8SVB_loop_spec 8 0 h values (set_pos s (pos s + 1)) ltac:(lia))
    as (Hlen & _ & Hzero).
  split; [done|]. split; [exact Hzero|]. intros ->. apply readTag8_8SVB_loop_zero.
Qed.

Lemma readTag8_8SVB_header_witness :
  let s := new_ArrayDataStream ([2; 3] ++ []) None None in
  8 ≠ 1
  ∧ bytes_at s [2]
  ∧ (readTag8_8SVB [] 8 s).1
    = [JNum 0; JNum (-2); JNum 0; JNum 0; JNum 0; JNum 0; JNum 0; JNum 0]
  ∧ (readTag8_8SVB [] 8 s).1 !! 0%nat = Some (JNum 0).
Proof.
  intros s.
  assert (8 ≠ 1) as Hne by lia.
  assert (bytes_at s [2]) as Hb.
  { split; [cbn; lia|]. by intros [|k] b [= <-]. }
  destruct (readTag8_8SVB_header [] 8 2 s Hne Hb) as (_ & Hzero & _).
  split; [exact Hne|]. split; [exact Hb|]. split; [reflexivity|].
  exact (Hzero 0%nat ltac:(lia) eq_refl).
Defined.

(** ** Time formatting *)

Section TimeFormat.

Lemma string_app_length (a b : string) :
  String.length (a +:+ b) = (String.length a + String.length b)%nat.
Proof.
  induction a as [|c a IH]; [done|].
  change (String.length (String c a +:+ b)) with (S (String.length (a +:+ b))).
  by rewrite IH.
Qed.

Lemma pad_times_length k pad :
  String.length (pad_times k pad) = (k * String.length pad)%nat.
Proof.
  induction k as [|k IH]; cbn [pad_times]; [done|].
  rewrite string_app_length, IH. lia.
Qed.

Lemma string_app_assoc (a b c : string) : (a +:+ b) +:+ c = a +:+ b +:+ c.
Proof.
  induction a as [|x a IH]; [done|].
  change (String x ((a +:+ b) +:+ c) = String x (a +:+ b +:+ c)). by rewrite IH.
Qed.

Lemma pad_times_snoc k pad : pad_times k pad +:+ pad = pad +:+ pad_times k pad.
Proof.
  induction k as [|k IH]; cbn [pad_times].
  - change (pad = pad +:+ EmptyString). induction pad as [|c pad IHp]; [done|].
    change (String c pad = String c (pad +:+ EmptyString)). by rewrite <- IHp.
  - by rewrite string_app_assoc, IH.
Qed.

(** With a non-empty pad the loop ends within [minLength + 1 - length]
    iterations, having put the least number of pads in front that
    reaches [minLength]. *)
Lemma leftPad_loop_spec pad minLength : ∀ fuel string0,
  pad ≠ EmptyString →
  (minLength - String.length string0 < fuel)%nat →
  ∃ k, leftPad_loop fuel string0 pad minLength = Some (pad_times k pad +:+ string0)
       ∧ (minLength ≤ String.length string0 + k * String.length pad)%nat
       ∧ (k = 0%nat
          ∨ (String.length string0 + (k - 1) * String.length pad < minLength)%nat).
Proof.
  intros fuel string0 Hpad. revert string0.
  assert (0 < String.length pad)%nat as Hlen by (destruct pad; [done|cbn; lia]).
  induction fuel as [|fuel IH]; intros string0 Hfuel; [lia|].
  cbn [leftPad_loop]. destruct (String.length string0 <? minLength)%nat eqn:Hlt.
  - apply Nat.ltb_lt in Hlt.
    destruct (IH (pad +:+ string0)) as (k & Heq & Hge & Hmin).
    { rewrite string_app_length. lia. }
    rewrite string_app_length in Hge, Hmin.
    exists (S k). split; [|split].
    + rewrite Heq. f_equal. cbn [pad_times].
      by rewrite <- string_app_assoc, pad_times_snoc, string_app_assoc.
    + lia.
    + right. destruct Hmin as [->|Hmin]; [cbn; lia|].
      destruct k; [cbn in *; lia|]. cbn in *. lia.
  - apply Nat.ltb_ge in Hlt. exists 0%nat. split; [done|]. split; [lia|by left].
Qed.

Lemma leftPad_loop_empty_pad minLength : ∀ fuel string0,
  (String.length string0 < minLength)%nat →
  leftPad_loop fuel string0 EmptyString minLength = None.
Proof.
  induction fuel as [|fuel IH]; intros string0 Hlt; cbn [leftPad_loop]; [done|].
  replace (String.length string0 <? minLength)%nat with true
    by (symmetry; by apply Nat.ltb_lt).
  by apply IH.
Qed.

End TimeFormat.

(** X22. [leftPad] with a non-empty pad returns the string with the least
    number of pads in front that brings it to [minLength] characters
    (none when it is long enough).  With an empty pad and a string that
    is too short its loop never ends: it has not returned after any
    number of iterations. *)
Theorem leftPad_least_padding (string0 pad : string) (minLength : nat) :
  (pad ≠ EmptyString →
   ∃ k, leftPad string0 pad minLength = Some (pad_times k pad +:+ string0)
        ∧ (minLength ≤ String.length string0 + k * String.length pad)%nat
        ∧ (k = 0%nat
           ∨ (String.length string0 + (k - 1) * String.length pad < minLength)%nat))
  ∧ (pad = EmptyString → (String.length string0 < minLength)%nat →
     ∀ fuel, leftPad_loop fuel string0 pad minLength = None).
Proof.
  split.
  - intros Hpad. apply leftPad_loop_spec; [done|lia].
  - intros -> Hlt fuel. by apply leftPad_loop_empty_pad.
Qed.

Lemma leftPad_least_padding_witness :
  ("0" : string) ≠ EmptyString
  ∧ leftPad "7" "0" 3 = Some "007"%string
  ∧ ∃ k, leftPad "7" "0" 3 = Some (pad_times k "0" +:+ "7") ∧ (3 ≤ 1 + k * 1)%nat.
Proof.
  assert (("0" : string) ≠ EmptyString) as Hpad by done.
  destruct (leftPad_least_padding "7" "0" 3) as [H _].
  destruct (H Hpad) as (k & Heq & Hge & _).
  split; [exact Hpad|]. split; [reflexivity|]. exists k. split; [exact Heq|exact Hge].
Defined.

Section FormatTimeFacts.




End FormatTimeFacts.



(** ** Opening a log once the directories are built *)



(** ** What the directory of a sub-log records *)

Section DirectoryContents.

Variable LOG_END : Z.
Context {stats_t : Type}.

Local Abbreviation frameReady := (onFrameReady LOG_END (stats_t := stats_t)).
Local Abbreviation valid_main fr := (valid_main_frame fr = true).
Local Abbreviation valid_intra fr := (valid_intra_frame fr = true).

Lemma onFrameReady_fold_starts motorFields (frames : list frame_ready) :
  ∀ st : index_pass stats_t,
  let st' := foldl (frameReady motorFields) st frames in
  let starts := every_fourth_from (iframeCount st) (filter (λ fr, valid_intra fr) frames) in
  times (intraIndex_of st') = times (intraIndex_of st) ++ (main_frame_time <$> starts)
  ∧ offsets (intraIndex_of st') = offsets (intraIndex_of st) ++ (main_frame_offset <$> starts).
Proof.
  induction frames as [|fr frames IH]; intros st; cbn [foldl]; cbv zeta.
  - rewrite filter_nil. cbn. by rewrite !app_nil_r.
  - specialize (IH (frameReady motorFields st fr)). cbv zeta in IH.
    destruct IH as [Ht Ho]. rewrite Ht, Ho. clear Ht Ho. rewrite filter_cons.
    destruct fr as [v intra frame off|v event|v frame|v]; cbn [valid_intra_frame].
    + destruct v, intra; cbn [andb];
        try (rewrite decide_False by done; cbn; done).
      rewrite decide_True by done. cbn [every_fourth_from onFrameReady negb].
      destruct (iframeCount st `mod` 4 =? 0); cbn.
      * by rewrite <- !app_assoc.
      * done.
    + rewrite decide_False by done. by destruct v.
    + rewrite decide_False by done. by destruct v.
    + by rewrite decide_False by done.
Qed.

Lemma onFrameReady_fold_times motorFields (frames : list frame_ready) :
  ∀ st : index_pass stats_t,
  let st' := foldl (frameReady motorFields) st frames in
  let ts := main_frame_time <$> filter (λ fr, valid_main fr) frames in
  minTime (intraIndex_of st')
  = match minTime (intraIndex_of st) with
    | Some t => Some t
    | None => head ts
    end
  ∧ ∀ acc zs, maxTime (intraIndex_of st) = JNum <$> acc → ts = JNum <$> zs →
      maxTime (intraIndex_of st') = JNum <$> foldl max_step acc zs.
Proof.
  induction frames as [|fr frames IH]; intros st; cbn [foldl]; cbv zeta.
  - rewrite filter_nil. cbn. split; [by destruct (minTime _)|].
    intros acc zs Hacc Hzs. symmetry in Hzs. apply fmap_nil_inv in Hzs. by subst zs.
  - specialize (IH (frameReady motorFields st fr)). cbv zeta in IH.
    destruct IH as [Hmin Hmax]. rewrite filter_cons.
    destruct fr as [v intra frame off|v event|v frame|v]; cbn [valid_main_frame].
    + destruct v.
      * rewrite decide_True by done. cbn [fmap list_fmap head main_frame_time].
        split.
        -- rewrite Hmin. cbn [onFrameReady negb].
           destruct intra; cbn; by destruct (minTime (intraIndex_of st)).
        -- intros acc zs Hacc Hzs. destruct zs as [|z zs]; [done|].
           cbn in Hzs. injection Hzs as Hz Hzs. cbn [foldl].
           apply Hmax; [|done]. cbn [onFrameReady negb]. rewrite Hz.
           destruct intra; cbn; rewrite Hacc; destruct acc as [m|]; cbn; try done;
             by destruct (m <? z).
      * rewrite decide_False by done. split; [by rewrite Hmin|].
        intros acc zs Hacc Hzs. by apply Hmax.
    + rewrite decide_False by done.
      split; [rewrite Hmin; by destruct v|].
      intros acc zs Hacc Hzs. apply Hmax; [by destruct v|done].
    + rewrite decide_False by done.
      split; [rewrite Hmin; by destruct v|].
      intros acc zs Hacc Hzs. apply Hmax; [by destruct v|done].
    + rewrite decide_False by done.
      split; [by rewrite Hmin|intros acc zs Hacc Hzs; by apply Hmax].
Qed.

End DirectoryContents.

Section RunningMaximum.

Lemma foldl_max_step zs : ∀ acc,
  match foldl max_step acc zs with
  | None => acc = None ∧ zs = []
  | Some m =>
      (acc = Some m ∨ m ∈ zs)
      ∧ (∀ x, x ∈ zs → x ≤ m)
      ∧ (∀ a, acc = Some a → a ≤ m)
  end.
Proof.
  induction zs as [|z zs IH]; intros acc; cbn [foldl].
  - destruct acc as [m|]; [|done]. split; [by left|]. split.
    + intros x Hx. by apply elem_of_nil in Hx.
    + intros a [= ->]. lia.
  - specialize (IH (max_step acc z)).
    destruct (foldl max_step (max_step acc z) zs) as [m|].
    + destruct IH as (Hin & Hall & Hacc). unfold max_step in Hin, Hacc.
      split_and?.
      * destruct Hin as [Hin|Hin]; [|right; by apply elem_of_cons; right].
        destruct acc as [a|]; [|right; apply elem_of_cons; left; congruence].
        destruct (a <? z); [right; apply elem_of_cons; left; congruence|by left].
      * intros x [->|Hx]%elem_of_cons; [|by apply Hall].
        destruct acc as [a|]; [|by apply Hacc].
        destruct (a <? z) eqn:Hlt; [by apply Hacc|].
        apply Z.ltb_ge in Hlt. specialize (Hacc a eq_refl). lia.
      * intros a ->. destruct (a <? z) eqn:Hlt; [|by apply Hacc].
        apply Z.ltb_lt in Hlt. specialize (Hacc z eq_refl). lia.
    + destruct IH as [Hnone _]. unfold max_step in Hnone.
      destruct acc as [a|]; [destruct (a <? z)|]; done.
Qed.

End RunningMaximum.

(** X25. [_parseSubLog] returns exactly when the parser answers the calls
    of the pass.  The chunk starts of the directory it returns: [times]
    and [offsets] hold the time and the offset of the valid I-frames
    number 0, 4, 8 and so on that the callback was given, in this
    order, whatever other frames lie between them. *)
Theorem parseSubLog_chunk_starts (LOG_END : Z) {sysConfig_t stats_t : Type}
    (parser : parser_id) (offs : list Z) (i : nat) (w : world sysConfig_t stats_t) :
  match _parseSubLog LOG_END parser offs i w with
  | None => next_pass (answers w) = None
  | Some (d, w') =>
      ∃ p, next_pass (answers w) = Some (p, answers w')
           ∧ let starts := every_fourth_from 0 (filter (λ fr, valid_intra_frame fr = true)
                                                       (frames_seen p)) in
             times d = main_frame_time <$> starts
             ∧ offsets d = main_frame_offset <$> starts
  end.
Proof.
  pose proof (parseSubLog_fields LOG_END parser offs i w) as Hfields.
  destruct (_parseSubLog LOG_END parser offs i w) as [[d w']|]; [|done].
  destruct Hfields as (p & mf & Hp & Hfields). exists p. split; [done|].
  cbv zeta in Hfields |- *.
  pose proof (onFrameReady_fold_starts LOG_END (stats_t := stats_t) mf (frames_seen p)
                (mkPass (mkIntraIndex [] [] [] (Some []) [] None None EmptyString None)
                        0 [] false)) as Hstarts.
  cbv zeta in Hstarts. cbn [intraIndex_of times offsets iframeCount app] in Hstarts.
  destruct Hstarts as [Ht Ho].
  destruct Hfields as (-> & -> & _). by split.
Qed.

(** X26. The time range of the directory [_parseSubLog] returns.
    [minTime] is the time of the first valid main frame the callback was
    given (not the least time, should the frames be out of order) and
    stays unset when there is none.  When the times of the valid main
    frames are numbers, [maxTime] is the largest of them. *)
Theorem parseSubLog_time_range (LOG_END : Z) {sysConfig_t stats_t : Type}
    (parser : parser_id) (offs : list Z) (i : nat) (w : world sysConfig_t stats_t) :
  match _parseSubLog LOG_END parser offs i w with
  | None => next_pass (answers w) = None
  | Some (d, w') =>
      ∃ p, next_pass (answers w) = Some (p, answers w')
           ∧ let ts := main_frame_time <$> filter (λ fr, valid_main_frame fr = true)
                                                  (frames_seen p) in
             minTime d = head ts
             ∧ ∀ zs, ts = JNum <$> zs →
                 match maxTime d with
                 | None => zs = []
                 | Some m => ∃ z, m = JNum z ∧ z ∈ zs ∧ ∀ x, x ∈ zs → x ≤ z
                 end
  end.
Proof.
  pose proof (parseSubLog_fields LOG_END parser offs i w) as Hfields.
  destruct (_parseSubLog LOG_END parser offs i w) as [[d w']|]; [|done].
  destruct Hfields as (p & mf & Hp & Hfields). exists p. split; [done|].
  cbv zeta in Hfields |- *.
  pose proof (onFrameReady_fold_times LOG_END (stats_t := stats_t) mf (frames_seen p)
                (mkPass (mkIntraIndex [] [] [] (Some []) [] None None EmptyString None)
                        0 [] false)) as Htimes.
  cbv zeta in Htimes. cbn [intraIndex_of minTime maxTime] in Htimes.
  destruct Htimes as [Hmin Hmax].
  destruct Hfields as (_ & _ & _ & _ & -> & -> & _).
  split; [done|]. intros zs Hzs. rewrite (Hmax None zs eq_refl Hzs).
  pose proof (foldl_max_step zs None) as Hfold.
  destruct (foldl max_step None zs) as [m|]; cbn.
  - destruct Hfold as ([?|Hin] & Hall & _); [done|]. by exists m.
  - by destruct Hfold.
Qed.

Lemma parseSubLog_time_range_witness :
  ∃ d w',
    _parseSubLog 255 IndexParser [0; 62] 0 example_world_unordered = Some (d, w')
    ∧ minTime d = Some (JNum 500)
    ∧ maxTime d = Some (JNum 700).
Proof.
  pose proof (parseSubLog_time_range 255 IndexParser [0; 62] 0 example_world_unordered) as H.
  revert H.
  destruct (_parseSubLog 255 IndexParser [0; 62] 0 example_world_unordered)
    as [[d w']|]; intros H; [|discriminate H].
  destruct H as (p & Hp & Hmin & Hmax).
  injection Hp as <- _.
  exists d, w'. split; [reflexivity|]. split; [exact Hmin|].
  specialize (Hmax [500; 300; 700] eq_refl).
  destruct (maxTime d) as [m|]; [|discriminate Hmax].
  destruct Hmax as (z & -> & Hin & Hall).
  assert (z = 700) as ->; [|done].
  assert (700 ∈ [500; 300; 700]) as H700 by (rewrite !elem_of_cons; auto).
  specialize (Hall 700 H700).
  apply elem_of_cons in Hin as [->|Hin]; [lia|].
  apply elem_of_cons in Hin as [->|Hin]; [lia|].
  apply elem_of_cons in Hin as [->|Hin]; [done|]. by apply elem_of_nil in Hin.
Defined.

(** ** The 8-4 tagged groups *)

Section Tag8_4S16.

Lemma signExtend8Bit_value v : 0 ≤ v < 256 → signExtend8Bit (JNum v) = JNum (twos_complement 8 v).
Proof. intros Hv. exact (signExtend_generic 8 v ltac:(lia) ltac:(lia)). Qed.

Lemma low_nibble hi lo : 0 ≤ hi < 16 → 0 ≤ lo < 16 → JS.and (16 * hi + lo) 15 = lo.
Proof.
  intros Hhi Hlo. rewrite (and_mask _ 4) by lia. change (2 ^ 4) with 16.
  Z.div_mod_to_equations. lia.
Qed.

Lemma high_nibble hi lo : 0 ≤ hi < 16 → 0 ≤ lo < 16 → JS.sar (16 * hi + lo) 4 = hi.
Proof.
  intros Hhi Hlo. rewrite sar_small by lia. change (2 ^ 4) with 16.
  Z.div_mod_to_equations. lia.
Qed.

Lemma join_nibbles hi lo :
  0 ≤ hi < 16 → 0 ≤ lo < 16 → JS.or (JS.shl hi 4) lo = 16 * hi + lo.
Proof.
  intros Hhi Hlo. rewrite shl_byte by lia. change (2 ^ 4) with 16.
  unfold JS.or. rewrite !ToInt32_small by lia.
  replace (hi * 16) with (Z.shiftl hi 4) by (rewrite Z.shiftl_mul_pow2; lia).
  rewrite Z.lor_comm, lor_shiftl_add by lia. change (2 ^ 4) with 16. lia.
Qed.

(** One iteration of the loop of [readTag8_4S16_v1] for a zero field
    and for a pair of 4-bit fields. *)
Lemma readTag8_4S16_v1_zero fuel i selector values s :
  (i < 4)%nat → JS.and selector 3 = 0 →
  readTag8_4S16_v1_loop (S fuel) i selector values s
  = readTag8_4S16_v1_loop fuel (S i) (JS.sar selector 2) (arr_set values i (JNum 0)) s.
Proof.
  intros Hi Hsel. cbn [readTag8_4S16_v1_loop].
  replace (i <? 4)%nat with true by (symmetry; by apply Nat.ltb_lt). by rewrite Hsel.
Qed.

Lemma readTag8_4S16_v1_pair fuel i selector values s hi lo :
  (i < 4)%nat → JS.and selector 3 = 1 →
  0 ≤ hi < 16 → 0 ≤ lo < 16 →
  bytes_at s [16 * hi + lo] →
  readTag8_4S16_v1_loop (S fuel) i selector values s
  = readTag8_4S16_v1_loop fuel (S (S i)) (JS.sar (JS.sar selector 2) 2)
      (arr_set (arr_set values i (JNum (twos_complement 4 lo)))
               (S i) (JNum (twos_complement 4 hi)))
      (set_pos s (pos s + 1)).
Proof.
  intros Hi Hsel Hhi Hlo Hb. destruct (bytes_at_cons _ _ _ Hb) as [Hr _].
  cbn [readTag8_4S16_v1_loop].
  replace (i <? 4)%nat with true by (symmetry; by apply Nat.ltb_lt). rewrite Hsel.
  unfold bind. rewrite Hr. cbn [fst snd num_of]. cbv zeta.
  by rewrite low_nibble, high_nibble, !signExtend4Bit_value by done.
Qed.

Lemma readTag8_4S16_v1_done fuel i selector values s :
  (4 ≤ i)%nat → readTag8_4S16_v1_loop fuel i selector values s = (values, s).
Proof.
  intros Hi. destruct fuel; cbn [readTag8_4S16_v1_loop]; [done|].
  by replace (i <? 4)%nat with false by (symmetry; by apply Nat.ltb_ge).
Qed.

End Tag8_4S16.

(** X27. A pair of 4-bit fields in [readTag8_4S16_v1] takes one byte, the low
    nibble first, and two slots; the selector bits [x] of the second
    slot are skipped, whatever they are.  A pair that starts in the last
    slot also writes a fifth value, [values[4]]. *)
Theorem readTag8_4S16_v1_nibble_pair (values : list jsval) (s : ArrayDataStream)
    (x hi lo : Z) :
  0 ≤ x < 4 → 0 ≤ hi < 16 → 0 ≤ lo < 16 →
  (bytes_at s [1 + 4 * x; 16 * hi + lo] →
   readTag8_4S16_v1 values s
   = (arr_set (arr_set (arr_set (arr_set values 0 (JNum (twos_complement 4 lo)))
                                1 (JNum (twos_complement 4 hi)))
                       2 (JNum 0))
              3 (JNum 0),
      set_pos s (pos s + 2)))
  ∧ (bytes_at s [64; 16 * hi + lo] →
     readTag8_4S16_v1 values s
     = (arr_set (arr_set (arr_set (arr_set (arr_set values 0 (JNum 0)) 1 (JNum 0))
                                  2 (JNum 0))
                         3 (JNum (twos_complement 4 lo)))
                4 (JNum (twos_complement 4 hi)),
        set_pos s (pos s + 2))).
Proof.
  intros Hx Hhi Hlo. split.
  - intros Hb. destruct (bytes_at_cons _ _ _ Hb) as [Hr Hb'].
    unfold readTag8_4S16_v1, bind. rewrite Hr. cbn [fst snd num_of].
    assert (x = 0 ∨ x = 1 ∨ x = 2 ∨ x = 3) as Hcases by lia.
    destruct Hcases as [-> | [-> | [-> | ->]]];
      (rewrite (readTag8_4S16_v1_pair _ _ _ _ _ hi lo) by (done || lia);
       rewrite readTag8_4S16_v1_zero by (done || lia);
       rewrite readTag8_4S16_v1_zero by (done || lia);
       rewrite readTag8_4S16_v1_done by lia;
       f_equal; destruct s as [d st en ef p]; unfold set_pos; cbn; f_equal; lia).
  - intros Hb. destruct (bytes_at_cons _ _ _ Hb) as [Hr Hb'].
    unfold readTag8_4S16_v1, bind. rewrite Hr. cbn [fst snd num_of].
    rewrite readTag8_4S16_v1_zero by (done || lia).
    rewrite readTag8_4S16_v1_zero by (done || lia).
    rewrite readTag8_4S16_v1_zero by (done || lia).
    rewrite (readTag8_4S16_v1_pair _ _ _ _ _ hi lo) by (done || lia).
    rewrite readTag8_4S16_v1_done by lia.
    f_equal. destruct s as [d st en ef p]. unfold set_pos. cbn. f_equal. lia.
Qed.

Lemma readTag8_4S16_v1_nibble_pair_witness :
  let s := new_ArrayDataStream ([64; 16 * 15 + 2] ++ []) None None in
  bytes_at s [64; 16 * 15 + 2]
  ∧ readTag8_4S16_v1 [] s = ([JNum 0; JNum 0; JNum 0; JNum 2; JNum (-1)], set_pos s 2).
Proof.
  intros s.
  assert (bytes_at s [64; 16 * 15 + 2]) as Hb by apply bytes_at_new.
  destruct (readTag8_4S16_v1_nibble_pair [] s 0 15 2 ltac:(lia) ltac:(lia) ltac:(lia))
    as [_ H].
  split; [exact Hb|exact (H Hb)].
Defined.

(** X28. [readTag8_4S16_v2] packs 4-bit fields two to a byte, the high nibble
    first: with four 4-bit fields (selector [0x55]) the two bytes behind
    the selector give the four values.  An 8-bit field that follows a
    single 4-bit field is not aligned to a byte: it is the low nibble of
    the first byte followed by the high nibble of the second, and the
    low nibble [z] of the second byte is left for a later field. *)
Theorem readTag8_4S16_v2_nibbles (values : list jsval) (s : ArrayDataStream)
    (a b c d z : Z) :
  0 ≤ a < 16 → 0 ≤ b < 16 → 0 ≤ c < 16 → 0 ≤ d < 16 → 0 ≤ z < 16 →
  (bytes_at s [85; 16 * a + b; 16 * c + d] →
   readTag8_4S16_v2 values s
   = (arr_set (arr_set (arr_set (arr_set values 0 (JNum (twos_complement 4 a)))
                                1 (JNum (twos_complement 4 b)))
                       2 (JNum (twos_complement 4 c)))
              3 (JNum (twos_complement 4 d)),
      set_pos s (pos s + 3)))
  ∧ (bytes_at s [9; 16 * a + b; 16 * c + z] →
     readTag8_4S16_v2 values s
     = (arr_set (arr_set (arr_set (arr_set values 0 (JNum (twos_complement 4 a)))
                                  1 (JNum (twos_complement 8 (16 * b + c))))
                         2 (JNum 0))
                3 (JNum 0),
        set_pos s (pos s + 3))).
Proof.
  intros Ha Hb Hc Hd Hz. split.
  - intros Hbytes. destruct (read3 _ _ _ _ Hbytes) as (Hr1 & Hr2 & Hr3).
    unfold readTag8_4S16_v2, bind. rewrite Hr1. cbn [fst snd num_of].
    cbn [readTag8_4S16_v2_loop].
    change (JS.and 85 3) with 1. change (JS.and (JS.sar 85 2) 3) with 1.
    change (JS.and (JS.sar (JS.sar 85 2) 2) 3) with 1.
    change (JS.and (JS.sar (JS.sar (JS.sar 85 2) 2) 2) 3) with 1.
    cbv iota. cbn [Z.eqb]. unfold bind. rewrite Hr2. cbn [fst snd num_of].
    cbv zeta. cbn [Z.eqb]. rewrite Hr3. cbn [fst snd num_of]. cbv zeta. cbn [Z.eqb].
    unfold ret. by rewrite !high_nibble, !low_nibble, !signExtend4Bit_value by done.
  - intros Hbytes. destruct (read3 _ _ _ _ Hbytes) as (Hr1 & Hr2 & Hr3).
    unfold readTag8_4S16_v2, bind. rewrite Hr1. cbn [fst snd num_of].
    cbn [readTag8_4S16_v2_loop].
    change (JS.and 9 3) with 1. change (JS.and (JS.sar 9 2) 3) with 2.
    change (JS.and (JS.sar (JS.sar 9 2) 2) 3) with 0.
    change (JS.and (JS.sar (JS.sar (JS.sar 9 2) 2) 2) 3) with 0.
    cbv iota. cbn [Z.eqb]. unfold bind. rewrite Hr2. cbn [fst snd num_of].
    cbv zeta. cbn [Z.eqb]. rewrite Hr3. cbn [fst snd num_of]. cbv zeta.
    unfold ret.
    rewrite high_nibble, low_nibble, (high_nibble c z), join_nibbles by done.
    by rewrite signExtend4Bit_value, signExtend8Bit_value by lia.
Qed.

Lemma readTag8_4S16_v2_nibbles_witness :
  let s := new_ArrayDataStream ([9; 16 * 7 + 15; 16 * 14 + 5] ++ []) None None in
  bytes_at s [9; 16 * 7 + 15; 16 * 14 + 5]
  ∧ readTag8_4S16_v2 [] s = ([JNum 7; JNum (-2); JNum 0; JNum 0], set_pos s 3).
Proof.
  intros s.
  assert (bytes_at s [9; 16 * 7 + 15; 16 * 14 + 5]) as Hb by apply bytes_at_new.
  destruct (readTag8_4S16_v2_nibbles [] s 7 15 14 0 5
              ltac:(lia) ltac:(lia) ltac:(lia) ltac:(lia) ltac:(lia)) as [_ H].
  split; [exact Hb|exact (H Hb)].
Defined.
